(** * WordCounter: a self-resizing, separately chained hash table of word counts

    A verification development for [WordCounter.h] / [WordCounter.cpp].

    The class keeps an array of singly linked lists of nodes
    [(word, wordCount)], the number of buckets ([capacity]), the number of
    nodes ([uniqueWordCount]) and the sum of their counts ([totalWordCount]).

    Conventions of the embedding.
    - [int] is a 32-bit two's complement integer.  Signed overflow is
      undefined behaviour in C++, so an arithmetic step whose mathematical
      result leaves the range ends the run with [Fault SignedOverflow]
      instead of being given a value.
    - [size_t] is an unsigned 64-bit integer; conversions to it reduce
      modulo [2^64], conversions from it to [int] reduce modulo [2^32].
    - [std::hash<std::string>] is implementation defined: it is a parameter
      (class [StdHash]); only its being a function matters.
    - [double] load factors are kept as exact rationals.  For [int] operands
      with [0 < capacity < 2^31] the quotient [unique / capacity] differs
      from 3/4 and from 3/10 by at least [1 / (10 * capacity) > 2^-35]
      unless it is equal to them, the rounding error of the division is below
      [2^-53], rounding is monotone, and 0.75 is a double; so the two
      comparisons of the source against [MAX_LOAD_FACTOR] and
      [MIN_LOAD_FACTOR] give the same answers on doubles as on rationals.
    - A linked list of nodes is a Rocq list (the [next] pointer is the tail),
      the bucket array a list of chains; a [Node*] is the pair of a bucket
      index and a position in that bucket's chain.  Module [Ptr] below keeps
      nodes and arrays in a store with addresses instead, and is used for
      the statements about ownership. *)

From Stdlib Require Import ZArith QArith String Ascii List Lia Permutation Sorted.
From stdpp Require Import base tactics option list strings gmap.

Open Scope Z_scope.

(** ** Results of a run: a value, or the undefined behaviour that ended it *)

Inductive fault : Type :=
| OutOfBounds        (* an array index outside [0, length) *)
| NullDereference    (* access through nullptr or a freed address *)
| DivisionByZero     (* [%] with a zero divisor *)
| SignedOverflow     (* [int] arithmetic leaving [INT_MIN, INT_MAX] *)
| Diverges.          (* a traversal that never reaches nullptr *)

Inductive res (A : Type) : Type :=
| Ok (a : A)
| Fault (f : fault).
Arguments Ok {A} a.
Arguments Fault {A} f.

#[global] Instance res_ret : MRet res := fun A a => Ok a.
#[global] Instance res_bind : MBind res := fun A B f m =>
  match m with
  | Ok a => f a
  | Fault e => Fault e
  end.

Definition is_ok {A} (r : res A) : bool :=
  match r with Ok _ => true | Fault _ => false end.

(** ** Machine integers *)

Definition INT_MIN : Z := - 2 ^ 31.
Definition INT_MAX : Z := 2 ^ 31 - 1.
Definition SIZE_MODULUS : Z := 2 ^ 64.

(** The value of an [int] expression whose mathematical result is [z]. *)
Definition int_of (z : Z) : res Z :=
  if (INT_MIN <=? z) && (z <=? INT_MAX) then Ok z else Fault SignedOverflow.

(** Conversion [int -> size_t] and the narrowing conversion [size_t -> int]. *)
Definition size_t_of_int (z : Z) : Z := z mod SIZE_MODULUS.
Definition int_of_size_t (z : Z) : Z := (z + 2 ^ 31) mod 2 ^ 32 - 2 ^ 31.

(** ** Arrays with checked indices *)

Definition array_get {X} (a : list X) (i : Z) : res X :=
  if i <? 0 then Fault OutOfBounds
  else match a !! Z.to_nat i with
       | Some x => Ok x
       | None => Fault OutOfBounds
       end.

Definition array_set {X} (a : list X) (i : Z) (x : X) : res (list X) :=
  if i <? 0 then Fault OutOfBounds
  else if (Z.to_nat i <? length a)%nat then Ok (<[Z.to_nat i := x]> a)
  else Fault OutOfBounds.

(** ** The hash function *)

Class StdHash := std_hash : string -> Z.

(** ** Constants of the class ([WordCounter.h], lines 126-129) *)

Definition MIN_CAPACITY : Z := 11.
Definition MAX_CAPACITY : Z := 993815743.
Definition NEW_WORD_COUNT : Z := 1.
Definition MAX_LOAD_FACTOR : Q := 3 # 4.
Definition MIN_LOAD_FACTOR : Q := 3 # 10.

(** The table of valid capacities of [getValidCapacity]. *)
Definition primes : list Z :=
  [ MIN_CAPACITY; 13; 17; 19; 23; 29; 31; 37; 43; 53; 67; 79; 97; 107;
    131; 157; 191; 223; 269; 331; 389; 461; 557; 673; 797; 967; 1151;
    1381; 1657; 1979; 2377; 2851; 3433; 4111; 4931; 5923; 7103; 8513;
    10211; 12251; 14699; 17657; 21169; 25409; 30491; 36583; 43889;
    52667; 63199; 75853; 91009; 109211; 131059; 157259; 188707;
    226451; 271753; 326087; 391331; 469583; 563489; 676171; 811411;
    973691; 1168451; 1402123; 1682531; 2019037; 2422873; 2907419;
    3488897; 4186673; 5024009; 6028807; 7234589; 8681483; 10417769;
    12501331; 15001603; 18001909; 21602311; 25922749; 31107317;
    37328761; 44794513; 53753431; 64504081; 77404907; 92885893;
    111463049; 133755659; 160506817; 192608173; 231129781; 277355759;
    332826869; 399392243; 479270713; 575124829; 690149821; 828179753;
    MAX_CAPACITY ].

(** The loop of [getValidCapacity] over a table [ps]. *)
Fixpoint first_at_least (capacity : Z) (ps : list Z) : Z :=
  match ps with
  | [] => MAX_CAPACITY
  | primeNum :: rest =>
      if capacity <=? primeNum then primeNum else first_at_least capacity rest
  end.

Definition getValidCapacity (capacity : Z) : Z := first_at_least capacity primes.

(** ** Nodes, chains and the table *)

Record Node : Type := mkNode { word : string; wordCount : Z }.

(** A chain is the list of nodes reached from a bucket head through [next]. *)
Abbreviation chain := (list Node).

Record WordCounter : Type := mkWordCounter {
  capacity : Z;
  totalWordCount : Z;
  uniqueWordCount : Z;
  wordTable : list chain
}.

Definition set_wordTable (t : WordCounter) (tbl : list chain) : WordCounter :=
  mkWordCounter (capacity t) (totalWordCount t) (uniqueWordCount t) tbl.
Definition set_uniqueWordCount (t : WordCounter) (u : Z) : WordCounter :=
  mkWordCounter (capacity t) (totalWordCount t) u (wordTable t).
Definition set_totalWordCount (t : WordCounter) (n : Z) : WordCounter :=
  mkWordCounter (capacity t) n (uniqueWordCount t) (wordTable t).

(** A [Node*]: [None] is nullptr, [Some (bucket, pos)] the node at position
    [pos] of the chain of [bucket]. *)
Definition NodePtr : Type := option (Z * nat).

Definition Qltb (a b : Q) : bool := negb (Qle_bool b a).

Section Table.
Context {hasher : StdHash}.

(** [initialize]: the fields, and an array of [capacity] null heads. *)
Definition initialize (capacity : Z) : WordCounter :=
  mkWordCounter capacity 0 0 (replicate (Z.to_nat capacity) []).

(** The two constructors. *)
Definition WordCounter_new : WordCounter := initialize MIN_CAPACITY.
Definition WordCounter_new_capacity (capacity : Z) : WordCounter :=
  initialize (getValidCapacity capacity).

(** [getBucket]: [h(word) % capacity], computed in [size_t], returned as [int]. *)
Definition getBucket (word : string) (capacity : Z) : res Z :=
  let divisor := size_t_of_int capacity in
  if divisor =? 0 then Fault DivisionByZero
  else Ok (int_of_size_t ((std_hash word mod SIZE_MODULUS) mod divisor)).

(** The loop of [getWordNode] along one chain; [pos] counts the nodes passed. *)
Fixpoint find_node (w : string) (curr : chain) (pos : nat) : option nat :=
  match curr with
  | [] => None
  | n :: next => if String.eqb (word n) w then Some pos else find_node w next (S pos)
  end.

Definition getWordNode (t : WordCounter) (w : string) : res NodePtr :=
  bucket ← getBucket w (capacity t);
  head ← array_get (wordTable t) bucket;
  mret (option_map (fun pos => (bucket, pos)) (find_node w head 0)).

(** Reading and writing through a node pointer. *)
Definition node_at (t : WordCounter) (p : Z * nat) : res Node :=
  head ← array_get (wordTable t) (fst p);
  match head !! snd p with
  | Some n => Ok n
  | None => Fault NullDereference
  end.

Definition set_node_at (t : WordCounter) (p : Z * nat) (n : Node) : res WordCounter :=
  head ← array_get (wordTable t) (fst p);
  if (snd p <? length head)%nat then
    tbl ← array_set (wordTable t) (fst p) (<[snd p := n]> head);
    mret (set_wordTable t tbl)
  else Fault NullDereference.

Definition getLoadFactor (t : WordCounter) : Q :=
  (inject_Z (uniqueWordCount t) / inject_Z (capacity t))%Q.

(** The inner [while] of [resize]: every node of one old chain is copied to
    the front of its chain in the new array. *)
Fixpoint rehash_chain (originalNode : chain) (newCapacity : Z)
    (newWordTable : list chain) : res (list chain) :=
  match originalNode with
  | [] => Ok newWordTable
  | n :: next =>
      newBucket ← getBucket (word n) newCapacity;
      head ← array_get newWordTable newBucket;
      newWordTable ← array_set newWordTable newBucket
                       (mkNode (word n) (wordCount n) :: head);
      rehash_chain next newCapacity newWordTable
  end.

(** The outer [for] of [resize] over the bucket indices still to visit. *)
Fixpoint rehash_buckets (oldTable : list chain) (buckets : list nat)
    (newCapacity : Z) (newWordTable : list chain) : res (list chain) :=
  match buckets with
  | [] => Ok newWordTable
  | bucket :: rest =>
      originalNode ← array_get oldTable (Z.of_nat bucket);
      newWordTable ← rehash_chain originalNode newCapacity newWordTable;
      rehash_buckets oldTable rest newCapacity newWordTable
  end.

Definition resize (t : WordCounter) (newCapacity : Z) : res WordCounter :=
  let newCapacity := getValidCapacity newCapacity in
  let newWordTable := replicate (Z.to_nat newCapacity) [] in
  newWordTable ← rehash_buckets (wordTable t) (seq 0 (Z.to_nat (capacity t)))
                   newCapacity newWordTable;
  mret (mkWordCounter newCapacity (totalWordCount t) (uniqueWordCount t) newWordTable).

Definition addWord (t : WordCounter) (w : string) : res (Z * WordCounter) :=
  wordNode ← getWordNode t w;
  '(count, t) ←
    match wordNode with
    | None =>
        bucket ← getBucket w (capacity t);
        head ← array_get (wordTable t) bucket;
        tbl ← array_set (wordTable t) bucket (mkNode w NEW_WORD_COUNT :: head);
        let t := set_wordTable t tbl in
        unique ← int_of (uniqueWordCount t + 1);
        let t := set_uniqueWordCount t unique in
        n ← node_at t (bucket, 0%nat);
        let count := wordCount n in
        t ← (if Qltb MAX_LOAD_FACTOR (getLoadFactor t) && (capacity t <? MAX_CAPACITY)
             then doubled ← int_of (capacity t * 2); resize t doubled
             else mret t);
        mret (count, t)
    | Some p =>
        n ← node_at t p;
        incremented ← int_of (wordCount n + 1);
        t ← set_node_at t p (mkNode (word n) incremented);
        n ← node_at t p;
        mret (wordCount n, t)
    end;
  total ← int_of (totalWordCount t + 1);
  mret (count, set_totalWordCount t total).

Definition updateWordCountsPostRemoval (t : WordCounter) (toSubtract : Z)
    : res WordCounter :=
  total ← int_of (totalWordCount t - toSubtract);
  unique ← int_of (uniqueWordCount t - 1);
  mret (mkWordCounter (capacity t) total unique (wordTable t)).

(** The [for] loop of [removeWord] over the nodes after the head: the first
    node holding [w] is unlinked; the result is its count and the remaining
    nodes, or [None] when the loop ends without finding it. *)
Fixpoint unlink (w : string) (current : chain) : option (Z * chain) :=
  match current with
  | [] => None
  | n :: next =>
      if String.eqb (word n) w then Some (wordCount n, next)
      else match unlink w next with
           | Some (c, next') => Some (c, n :: next')
           | None => None
           end
  end.

Definition removeWord (t : WordCounter) (w : string) : res WordCounter :=
  wordNode ← getWordNode t w;
  match wordNode with
  | None => mret t
  | Some _ =>
      bucket ← getBucket w (capacity t);
      head ← array_get (wordTable t) bucket;
      match head with
      | [] => Fault NullDereference
      | first :: rest =>
          t ← (if String.eqb (word first) w then
                 t ← updateWordCountsPostRemoval t (wordCount first);
                 tbl ← array_set (wordTable t) bucket rest;
                 mret (set_wordTable t tbl)
               else
                 match unlink w rest with
                 | Some (toSubtract, rest') =>
                     t ← updateWordCountsPostRemoval t toSubtract;
                     tbl ← array_set (wordTable t) bucket (first :: rest');
                     mret (set_wordTable t tbl)
                 | None => mret t
                 end);
          if Qltb (getLoadFactor t) MIN_LOAD_FACTOR && (MIN_CAPACITY <? capacity t)
          then resize t (capacity t ÷ 2)
          else mret t
      end
  end.

Definition getWordCount (t : WordCounter) (w : string) : res Z :=
  wordNode ← getWordNode t w;
  match wordNode with
  | None => mret 0
  | Some p => n ← node_at t p; mret (wordCount n)
  end.

Definition getUniqueWordCount (t : WordCounter) : Z := uniqueWordCount t.
Definition getTotalWordCount (t : WordCounter) : Z := totalWordCount t.
Definition getCapacity (t : WordCounter) : Z := capacity t.
Definition empty (t : WordCounter) : bool := totalWordCount t =? 0.

End Table.

(** ** What a table stores *)

(** All nodes of a table, bucket after bucket. *)
Definition entries (t : WordCounter) : list Node := concat (wordTable t).

(** The count held by the first node of [l] whose word is [w]; 0 without one. *)
Fixpoint chain_count (w : string) (l : list Node) : Z :=
  match l with
  | [] => 0
  | n :: rest => if String.eqb (word n) w then wordCount n else chain_count w rest
  end.

Definition stored (t : WordCounter) (w : string) : Z := chain_count w (entries t).

Fixpoint sum_counts (l : list Node) : Z :=
  match l with
  | [] => 0
  | n :: rest => wordCount n + sum_counts rest
  end.

(** The bucket a word belongs to in a table of [c] buckets. *)
Definition bucket_of {hasher : StdHash} (w : string) (c : Z) : Z :=
  (std_hash w mod SIZE_MODULUS) mod c.

(** Every node of an array of [c] chains sits in the bucket of its word. *)
Definition buckets_ok {hasher : StdHash} (c : Z) (tbl : list chain) : Prop :=
  forall (b : nat) (ch : chain) (n : Node),
    tbl !! b = Some ch -> n ∈ ch -> bucket_of (word n) c = Z.of_nat b.

(** The representation invariant of the class. *)
Record table_inv {hasher : StdHash} (t : WordCounter) : Prop := mk_table_inv {
  inv_capacity : capacity t ∈ primes;
  inv_length : length (wordTable t) = Z.to_nat (capacity t);
  inv_bucket : buckets_ok (capacity t) (wordTable t);
  inv_nodup : NoDup (word <$> entries t);
  inv_positive : forall n, n ∈ entries t -> 1 <= wordCount n;
  inv_unique : uniqueWordCount t = Z.of_nat (length (entries t));
  inv_total : totalWordCount t = sum_counts (entries t);
  inv_range : totalWordCount t <= INT_MAX
}.

(** ** Programs over one table: sequences of calls *)

Inductive call : Type :=
| AddWord (w : string)
| RemoveWord (w : string).

Definition step {hasher : StdHash} (t : WordCounter) (c : call) : res WordCounter :=
  match c with
  | AddWord w => '(_, t') ← addWord t w; mret t'
  | RemoveWord w => removeWord t w
  end.

Fixpoint run {hasher : StdHash} (t : WordCounter) (calls : list call) : res WordCounter :=
  match calls with
  | [] => Ok t
  | c :: rest => t' ← step t c; run t' rest
  end.

(** How often [w] was added by [calls] after the last removal of [w] in it,
    on top of [before]. *)
Fixpoint added_since_removal (w : string) (before : Z) (calls : list call) : Z :=
  match calls with
  | [] => before
  | AddWord w' :: rest =>
      added_since_removal w (if String.eqb w' w then before + 1 else before) rest
  | RemoveWord w' :: rest =>
      added_since_removal w (if String.eqb w' w then 0 else before) rest
  end.

(** A table as a constructor leaves it. *)
Inductive fresh : WordCounter -> Prop :=
| fresh_default : fresh WordCounter_new
| fresh_capacity (requested : Z) : fresh (WordCounter_new_capacity requested).

(** The states a program can reach. *)
Inductive reachable {hasher : StdHash} : WordCounter -> Prop :=
| reach_fresh t : fresh t -> reachable t
| reach_add t w n t' : reachable t -> addWord t w = Ok (n, t') -> reachable t'
| reach_remove t w t' : reachable t -> removeWord t w = Ok t' -> reachable t'.

(** Load factor within the thresholds, or beyond one with the capacity at
    the end of the table of sizes on that side. *)
Definition load_within (t : WordCounter) : Prop :=
  (MIN_LOAD_FACTOR <= getLoadFactor t)%Q /\ (getLoadFactor t <= MAX_LOAD_FACTOR)%Q.

Definition load_clamped (t : WordCounter) : Prop :=
  (capacity t = MIN_CAPACITY /\ (getLoadFactor t < MIN_LOAD_FACTOR)%Q) \/
  (capacity t = MAX_CAPACITY /\ (MAX_LOAD_FACTOR < getLoadFactor t)%Q).

(** A sample hash function for closed examples: the length of the word. *)
Definition length_hash : StdHash := fun w => Z.of_nat (String.length w).

(** ** Further definitions used in the statements *)

(** [primes] is strictly ascending, from [MIN_CAPACITY] to [MAX_CAPACITY]. *)
Fixpoint ascending_from (lo : Z) (ps : list Z) : bool :=
  match ps with
  | [] => true
  | p :: rest => (lo <? p) && ascending_from p rest
  end.

(** The capacity [addWord t w] leaves: doubled and rounded up to a valid size
    when [w] is new, the load factor with it passes [MAX_LOAD_FACTOR] and the
    capacity is below [MAX_CAPACITY]; unchanged otherwise. *)
Definition capacity_after_add (t : WordCounter) (w : string) : Z :=
  if (stored t w =? 0) && (3 * capacity t <? 4 * (uniqueWordCount t + 1))
     && (capacity t <? MAX_CAPACITY)
  then getValidCapacity (capacity t * 2)
  else capacity t.

(** The capacity [removeWord t w] leaves: halved and rounded up to a valid
    size when [w] is stored, the load factor without it is below
    [MIN_LOAD_FACTOR] and the capacity is above [MIN_CAPACITY]. *)
Definition capacity_after_remove (t : WordCounter) (w : string) : Z :=
  if negb (stored t w =? 0) && (10 * (uniqueWordCount t - 1) <? 3 * capacity t)
     && (MIN_CAPACITY <? capacity t)
  then getValidCapacity (capacity t ÷ 2)
  else capacity t.

Record add_post {hasher : StdHash} (t : WordCounter) (w : string) (n : Z)
    (t' : WordCounter) : Prop := mk_add_post {
  add_inv : table_inv t';
  add_result : n = stored t w + 1;
  add_node : mkNode w n ∈ entries t';
  add_stored : forall k,
      stored t' k = if String.eqb k w then stored t k + 1 else stored t k;
  add_total : totalWordCount t' = totalWordCount t + 1;
  add_unique : uniqueWordCount t' =
               uniqueWordCount t + (if stored t w =? 0 then 1 else 0);
  add_capacity : capacity t' = capacity_after_add t w
}.

Record remove_post {hasher : StdHash} (t : WordCounter) (w : string)
    (t' : WordCounter) : Prop := mk_remove_post {
  remove_inv : table_inv t';
  remove_stored : forall k,
      stored t' k = if String.eqb k w then 0 else stored t k;
  remove_total : totalWordCount t' = totalWordCount t - stored t w;
  remove_unique : uniqueWordCount t' =
                  uniqueWordCount t - (if stored t w =? 0 then 0 else 1);
  remove_capacity : capacity t' = capacity_after_remove t w;
  remove_absent : stored t w = 0 -> t' = t
}.

(** The load factor right after a growth lies within the thresholds: in a
    table of [c] buckets that grows, the word just added is number
    [3c/4 + 1]. *)
Definition grow_check (c : Z) : bool :=
  let u := 3 * c / 4 + 1 in
  let c' := getValidCapacity (c * 2) in
  (3 * c' <=? 10 * u) && (4 * u <=? 3 * c').

(** The load factor right after a shrink lies within the thresholds, or is
    below the lower one with the smallest capacity: in a table of [c]
    buckets that shrinks, [(3c - 1) / 10] words are left. *)
Definition shrink_check (c : Z) : bool :=
  let u := (3 * c - 1) / 10 in
  let c' := getValidCapacity (c ÷ 2) in
  ((3 * c' <=? 10 * u) || (c' =? MIN_CAPACITY)) && (4 * u <=? 3 * c') && (c' <? c).

(** A table holding "cat" twice and "dog" once, under [length_hash]. *)
Definition cat_dog_calls : list call :=
  [AddWord "cat"; AddWord "dog"; AddWord "cat"]%string.

Definition cat_dog_table : WordCounter :=
  Eval vm_compute in
    match @run length_hash WordCounter_new cat_dog_calls with
    | Ok t => t
    | Fault _ => WordCounter_new
    end.

(** A table of capacity 11 holding eight words of different lengths. *)
Definition eight_words : list string :=
  ["a"; "bb"; "ccc"; "dddd"; "eeeee"; "ffffff"; "ggggggg"; "hhhhhhhh"]%string.

Definition eight_table : WordCounter :=
  Eval vm_compute in
    match @run length_hash WordCounter_new (AddWord <$> eight_words) with
    | Ok t => t
    | Fault _ => WordCounter_new
    end.

(** A table of capacity 29 holding nine words of different lengths. *)
Definition nine_words : list string := eight_words ++ ["iiiiiiiii"%string].

Definition shrink_table : WordCounter :=
  Eval vm_compute in
    match @run length_hash (WordCounter_new_capacity 29) (AddWord <$> nine_words) with
    | Ok t => t
    | Fault _ => WordCounter_new
    end.

(** ** A large table, described rather than built

    [large_table c u] has [c] buckets; bucket [i] holds the single node
    [("a"^i, 1)] for [i < u] and is empty otherwise.  Under [length_hash]
    this is a table the class can reach, of any size. *)
Definition letter_a : Ascii.ascii :=
  Ascii.Ascii true false false false false true true false.

Fixpoint a_word (n : nat) : string :=
  match n with
  | O => EmptyString
  | S n => String letter_a (a_word n)
  end.

Definition large_node (i : nat) : Node := mkNode (a_word i) 1.

Definition large_chain (u : nat) (i : nat) : list Node :=
  if (i <? u)%nat then [large_node i] else [].

Definition large_table (c u : Z) : WordCounter :=
  mkWordCounter c u u (large_chain (Z.to_nat u) <$> seq 0 (Z.to_nat c)).

(** * The class over a store of objects, arrays and nodes

    Module [Ptr] embeds the same member functions with the pointers of the
    source kept: nodes, bucket arrays and [WordCounter] objects live in a
    store at addresses, [new] picks an address that is not in use, [delete]
    releases one, and a read or write through nullptr or a released address
    is [Fault NullDereference].  A member function is a state transformer on
    the store that takes the address of its object ([this]). *)
Module Ptr.

Abbreviation addr := positive.
(** A pointer: [None] is nullptr. *)
Abbreviation ptr := (option positive).

Record Node : Type := mkNode { word : string; next : ptr; wordCount : Z }.

(** The data members of a [WordCounter] object. *)
Record Object : Type := mkObject {
  capacity : Z;
  totalWordCount : Z;
  uniqueWordCount : Z;
  wordTable : ptr
}.

Record Store : Type := mkStore {
  objects : gmap positive Object;
  arrays : gmap positive (list ptr);
  nodes : gmap positive Node
}.

Definition set_objects (s : Store) (m : gmap positive Object) : Store :=
  mkStore m (arrays s) (nodes s).
Definition set_arrays (s : Store) (m : gmap positive (list ptr)) : Store :=
  mkStore (objects s) m (nodes s).
Definition set_nodes (s : Store) (m : gmap positive Node) : Store :=
  mkStore (objects s) (arrays s) m.

Definition empty_store : Store := mkStore ∅ ∅ ∅.

(** An address above every address in use. *)
Definition fresh_addr {X} (m : gmap positive X) : positive :=
  Pos.succ (map_fold (fun k _ acc => Pos.max k acc) 1%positive m).

(** ** The monad of member functions *)

Definition M (A : Type) : Type := Store -> res (A * Store).

#[global] Instance M_ret : MRet M := fun A a s => Ok (a, s).
#[global] Instance M_bind : MBind M := fun A B f m s =>
  match m s with
  | Ok (a, s') => f a s'
  | Fault e => Fault e
  end.

Definition lift {A} (r : res A) : M A := fun s =>
  match r with
  | Ok a => Ok (a, s)
  | Fault f => Fault f
  end.

Definition get_store : M Store := fun s => Ok (s, s).

(** ** Memory operations *)

Definition new_object : M positive := fun s =>
  let this := fresh_addr (objects s) in
  Ok (this, set_objects s (<[this := mkObject 0 0 0 None]> (objects s))).

Definition load_object (this : positive) : M Object := fun s =>
  match objects s !! this with
  | Some o => Ok (o, s)
  | None => Fault NullDereference
  end.

Definition store_object (this : positive) (o : Object) : M unit := fun s =>
  match objects s !! this with
  | Some _ => Ok (tt, set_objects s (<[this := o]> (objects s)))
  | None => Fault NullDereference
  end.

Definition delete_object (this : positive) : M unit := fun s =>
  match objects s !! this with
  | Some _ => Ok (tt, set_objects s (delete this (objects s)))
  | None => Fault NullDereference
  end.

Definition new_node (n : Node) : M ptr := fun s =>
  let a := fresh_addr (nodes s) in
  Ok (Some a, set_nodes s (<[a := n]> (nodes s))).

Definition load_node (p : ptr) : M Node := fun s =>
  match p with
  | None => Fault NullDereference
  | Some a =>
      match nodes s !! a with
      | Some n => Ok (n, s)
      | None => Fault NullDereference
      end
  end.

Definition store_node (p : ptr) (n : Node) : M unit := fun s =>
  match p with
  | None => Fault NullDereference
  | Some a =>
      match nodes s !! a with
      | Some _ => Ok (tt, set_nodes s (<[a := n]> (nodes s)))
      | None => Fault NullDereference
      end
  end.

Definition delete_node (p : ptr) : M unit := fun s =>
  match p with
  | None => Ok (tt, s)
  | Some a =>
      match nodes s !! a with
      | Some _ => Ok (tt, set_nodes s (delete a (nodes s)))
      | None => Fault NullDereference
      end
  end.

(** [new Node*[n]].  C++ leaves the cells indeterminate; here they hold
    nullptr.  Every member function assigns a cell before it reads it
    ([initialize] and [resize] assign nullptr, [copy] the copied head), so
    the choice is not observable. *)
Definition new_array (n : Z) : M ptr := fun s =>
  let a := fresh_addr (arrays s) in
  Ok (Some a, set_arrays s (<[a := replicate (Z.to_nat n) None]> (arrays s))).

Definition array_load (arr : ptr) (i : Z) : M ptr := fun s =>
  match arr with
  | None => Fault NullDereference
  | Some a =>
      match arrays s !! a with
      | Some cells => lift (array_get cells i) s
      | None => Fault NullDereference
      end
  end.

Definition array_store (arr : ptr) (i : Z) (p : ptr) : M unit := fun s =>
  match arr with
  | None => Fault NullDereference
  | Some a =>
      match arrays s !! a with
      | Some cells =>
          match array_set cells i p with
          | Ok cells' => Ok (tt, set_arrays s (<[a := cells']> (arrays s)))
          | Fault f => Fault f
          end
      | None => Fault NullDereference
      end
  end.

Definition delete_array (arr : ptr) : M unit := fun s =>
  match arr with
  | None => Ok (tt, s)
  | Some a =>
      match arrays s !! a with
      | Some _ => Ok (tt, set_arrays s (delete a (arrays s)))
      | None => Fault NullDereference
      end
  end.

(** [for (int bucket = 0; bucket < n; bucket++) body(bucket)]. *)
Fixpoint for_each (buckets : list nat) (body : Z -> M unit) : M unit :=
  match buckets with
  | [] => mret tt
  | bucket :: rest => body (Z.of_nat bucket) ;; for_each rest body
  end.

Definition for_buckets (n : Z) (body : Z -> M unit) : M unit :=
  for_each (seq 0 (Z.to_nat n)) body.

(** The number of steps after which a walk along [next] pointers has passed
    through some node twice, so that it never ends. *)
Definition walk_bound : M nat := fun s => Ok (S (size (nodes s)), s).

Section Members.
Context {hasher : StdHash}.

Definition initialize (this : positive) (capacity : Z) : M unit :=
  tbl ← new_array capacity;
  store_object this (mkObject capacity 0 0 tbl);;
  for_buckets capacity (fun bucket => array_store tbl bucket None).

(** [WordCounter()] and [WordCounter(int)]: the address of the new object. *)
Definition WordCounter_new : M positive :=
  this ← new_object;
  initialize this MIN_CAPACITY;;
  mret this.

Definition WordCounter_new_capacity (capacity : Z) : M positive :=
  this ← new_object;
  initialize this (getValidCapacity capacity);;
  mret this.

(** The loop of [getWordNode]. *)
Fixpoint find_loop (steps : nat) (curr : ptr) (w : string) : M ptr :=
  match steps with
  | O => lift (Fault Diverges)
  | S steps =>
      match curr with
      | None => mret None
      | Some _ =>
          n ← load_node curr;
          if String.eqb (word n) w then mret curr
          else find_loop steps (next n) w
      end
  end.

Definition getWordNode (this : positive) (w : string) : M ptr :=
  o ← load_object this;
  bucket ← lift (getBucket w (capacity o));
  head ← array_load (wordTable o) bucket;
  steps ← walk_bound;
  find_loop steps head w.

Definition getWordCount (this : positive) (w : string) : M Z :=
  wordNode ← getWordNode this w;
  match wordNode with
  | None => mret 0
  | Some _ => n ← load_node wordNode; mret (wordCount n)
  end.

Definition getLoadFactor (this : positive) : M Q :=
  o ← load_object this;
  mret (inject_Z (uniqueWordCount o) / inject_Z (capacity o))%Q.

Definition getUniqueWordCount (this : positive) : M Z :=
  o ← load_object this; mret (uniqueWordCount o).
Definition getTotalWordCount (this : positive) : M Z :=
  o ← load_object this; mret (totalWordCount o).
Definition getCapacity (this : positive) : M Z :=
  o ← load_object this; mret (capacity o).
Definition empty (this : positive) : M bool :=
  o ← load_object this; mret (totalWordCount o =? 0).

(** The inner loop of [clear] on one bucket. *)
Fixpoint clear_loop (steps : nat) (tbl : ptr) (bucket : Z) : M unit :=
  match steps with
  | O => lift (Fault Diverges)
  | S steps =>
      head ← array_load tbl bucket;
      match head with
      | None => mret tt
      | Some _ =>
          n ← load_node head;
          array_store tbl bucket (next n);;
          delete_node head;;
          clear_loop steps tbl bucket
      end
  end.

Definition clear (this : positive) : M unit :=
  o ← load_object this;
  for_buckets (capacity o) (fun bucket =>
    steps ← walk_bound; clear_loop steps (wordTable o) bucket);;
  delete_array (wordTable o);;
  o ← load_object this;
  store_object this
    (mkObject (capacity o) (totalWordCount o) (uniqueWordCount o) None).

(** [~WordCounter()]. *)
Definition WordCounter_delete (this : positive) : M unit :=
  clear this;;
  delete_object this.

(** The inner loop of [resize] on one chain of the old array. *)
Fixpoint rehash_loop (steps : nat) (originalNode : ptr) (newCapacity : Z)
    (newWordTable : ptr) : M unit :=
  match steps with
  | O => lift (Fault Diverges)
  | S steps =>
      match originalNode with
      | None => mret tt
      | Some _ =>
          n ← load_node originalNode;
          newBucket ← lift (getBucket (word n) newCapacity);
          head ← array_load newWordTable newBucket;
          p ← new_node (mkNode (word n) head (wordCount n));
          array_store newWordTable newBucket p;;
          rehash_loop steps (next n) newCapacity newWordTable
      end
  end.

Definition resize (this : positive) (newCapacity : Z) : M unit :=
  let newCapacity := getValidCapacity newCapacity in
  newWordTable ← new_array newCapacity;
  for_buckets newCapacity (fun bucket => array_store newWordTable bucket None);;
  o ← load_object this;
  for_buckets (capacity o) (fun bucket =>
    originalNode ← array_load (wordTable o) bucket;
    steps ← walk_bound;
    rehash_loop steps originalNode newCapacity newWordTable);;
  clear this;;
  o ← load_object this;
  store_object this
    (mkObject newCapacity (totalWordCount o) (uniqueWordCount o) newWordTable).

Definition addWord (this : positive) (w : string) : M Z :=
  wordNode ← getWordNode this w;
  count ←
    match wordNode with
    | None =>
        o ← load_object this;
        bucket ← lift (getBucket w (capacity o));
        head ← array_load (wordTable o) bucket;
        p ← new_node (mkNode w head NEW_WORD_COUNT);
        array_store (wordTable o) bucket p;;
        unique ← lift (int_of (uniqueWordCount o + 1));
        store_object this
          (mkObject (capacity o) (totalWordCount o) unique (wordTable o));;
        head ← array_load (wordTable o) bucket;
        n ← load_node head;
        let count := wordCount n in
        load ← getLoadFactor this;
        o ← load_object this;
        (if Qltb MAX_LOAD_FACTOR load && (capacity o <? MAX_CAPACITY)
         then doubled ← lift (int_of (capacity o * 2)); resize this doubled
         else mret tt);;
        mret count
    | Some _ =>
        n ← load_node wordNode;
        incremented ← lift (int_of (wordCount n + 1));
        store_node wordNode (mkNode (word n) (next n) incremented);;
        n ← load_node wordNode;
        mret (wordCount n)
    end;
  o ← load_object this;
  total ← lift (int_of (totalWordCount o + 1));
  store_object this
    (mkObject (capacity o) total (uniqueWordCount o) (wordTable o));;
  mret count.

Definition updateWordCountsPostRemoval (this : positive) (toSubtract : Z) : M unit :=
  o ← load_object this;
  total ← lift (int_of (totalWordCount o - toSubtract));
  unique ← lift (int_of (uniqueWordCount o - 1));
  store_object this (mkObject (capacity o) total unique (wordTable o)).

(** The [for] loop of [removeWord] over the nodes after the head. *)
Fixpoint unlink_loop (steps : nat) (this : positive) (prev current : ptr)
    (w : string) : M unit :=
  match steps with
  | O => lift (Fault Diverges)
  | S steps =>
      match current with
      | None => mret tt
      | Some _ =>
          c ← load_node current;
          if String.eqb (word c) w then
            updateWordCountsPostRemoval this (wordCount c);;
            p ← load_node prev;
            store_node prev (mkNode (word p) (next c) (wordCount p));;
            delete_node current
          else
            p ← load_node prev;
            unlink_loop steps this (next p) (next c) w
      end
  end.

Definition removeWord (this : positive) (w : string) : M unit :=
  wordNode ← getWordNode this w;
  match wordNode with
  | None => mret tt
  | Some _ =>
      o ← load_object this;
      bucket ← lift (getBucket w (capacity o));
      head ← array_load (wordTable o) bucket;
      first ← load_node head;
      (if String.eqb (word first) w then
         updateWordCountsPostRemoval this (wordCount first);;
         array_store (wordTable o) bucket (next first);;
         delete_node head
       else
         steps ← walk_bound;
         unlink_loop steps this head (next first) w);;
      load ← getLoadFactor this;
      o ← load_object this;
      if Qltb load MIN_LOAD_FACTOR && (MIN_CAPACITY <? capacity o)
      then resize this (capacity o ÷ 2)
      else mret tt
  end.

(** The loop of [copyBucket]: [tail] is the last node of the copy so far. *)
Fixpoint copy_loop (steps : nat) (current tail : ptr) : M unit :=
  match steps with
  | O => lift (Fault Diverges)
  | S steps =>
      match current with
      | None => mret tt
      | Some _ =>
          n ← load_node current;
          p ← new_node (mkNode (word n) None (wordCount n));
          t ← load_node tail;
          store_node tail (mkNode (word t) p (wordCount t));;
          copy_loop steps (next n) p
      end
  end.

(** [copyBucket]: the anchor is a local node, released on return. *)
Definition copyBucket (headToCopy : ptr) : M ptr :=
  anchor ← new_node (mkNode EmptyString None 0);
  steps ← walk_bound;
  copy_loop steps headToCopy anchor;;
  a ← load_node anchor;
  delete_node anchor;;
  mret (next a).

Definition copy (this other : positive) : M unit :=
  source ← load_object other;
  tbl ← new_array (capacity source);
  store_object this
    (mkObject (capacity source) (totalWordCount source)
       (uniqueWordCount source) tbl);;
  for_buckets (capacity source) (fun bucket =>
    head ← array_load (wordTable source) bucket;
    copied ← copyBucket head;
    array_store tbl bucket copied).

(** [WordCounter(const WordCounter &other)]. *)
Definition WordCounter_copy (other : positive) : M positive :=
  this ← new_object;
  copy this other;;
  mret this.

(** [operator=]. *)
Definition assign (this rhs : positive) : M unit :=
  if decide (this = rhs) then mret tt
  else clear this;; copy this rhs.

(** One call on the object at [this], and a sequence of calls. *)
Definition step (this : positive) (c : call) : M unit :=
  match c with
  | AddWord w => addWord this w;; mret tt
  | RemoveWord w => removeWord this w
  end.

Fixpoint run (this : positive) (calls : list call) : M unit :=
  match calls with
  | [] => mret tt
  | c :: rest => step this c;; run this rest
  end.

End Members.

End Ptr.

(** ** How a store represents a table

    [chain_at m p addrs l]: starting at pointer [p] and following [next]
    through the nodes [m], one passes the addresses [addrs], which hold the
    words and counts of [l] in this order, and then reaches nullptr. *)
Fixpoint chain_at (m : gmap positive Ptr.Node) (p : option positive)
    (addrs : list positive) (l : list Node) : Prop :=
  match addrs, l with
  | [], [] => p = None
  | a :: addrs', n :: l' =>
      p = Some a /\
      exists nx, m !! a = Some (Ptr.mkNode (word n) nx (wordCount n)) /\
                 chain_at m nx addrs' l'
  | _, _ => False
  end.

(** Where a table lies in the store: the address of its bucket array, the
    heads stored in the array and the addresses of the nodes of each chain. *)
Record layout : Type := mkLayout {
  lay_array : positive;
  lay_heads : list (option positive);
  lay_shape : list (list positive)
}.

(** The node addresses a layout owns. *)
Definition owned (lay : layout) : list positive := concat (lay_shape lay).

(** The array at [lay_array] holds the heads of chains that represent the
    chains of [tbl], on pairwise different addresses. *)
Record table_at (s : Ptr.Store) (lay : layout) (tbl : list (list Node)) : Prop :=
  mk_table_at {
  at_array : Ptr.arrays s !! lay_array lay = Some (lay_heads lay);
  at_heads : length (lay_heads lay) = length tbl;
  at_shape : length (lay_shape lay) = length tbl;
  at_chains : forall (i : nat) h addrs ch,
      lay_heads lay !! i = Some h -> lay_shape lay !! i = Some addrs ->
      tbl !! i = Some ch -> chain_at (Ptr.nodes s) h addrs ch;
  at_nodup : NoDup (owned lay)
}.

(** The object at [this] is the table [t], laid out as [lay]. *)
Record represents (s : Ptr.Store) (this : positive) (t : WordCounter)
    (lay : layout) : Prop := mk_represents {
  rep_object : Ptr.objects s !! this =
               Some (Ptr.mkObject (capacity t) (totalWordCount t)
                       (uniqueWordCount t) (Some (lay_array lay)));
  rep_table : table_at s lay (wordTable t)
}.

(** What a member function running on [this] leaves alone: every other
    object, every other array and every node [this] does not own. *)
Record frame (s s' : Ptr.Store) (this : positive) (lay : layout) : Prop :=
  mk_frame {
  frame_objects : forall o x, o <> this ->
      Ptr.objects s !! o = Some x -> Ptr.objects s' !! o = Some x;
  frame_arrays : forall b x, b <> lay_array lay ->
      Ptr.arrays s !! b = Some x -> Ptr.arrays s' !! b = Some x;
  frame_nodes : forall k x, k ∉ owned lay ->
      Ptr.nodes s !! k = Some x -> Ptr.nodes s' !! k = Some x
}.

(** The new layout uses only addresses the old one owned or that were not
    in use. *)
Record reuses (s : Ptr.Store) (lay lay' : layout) : Prop := mk_reuses {
  reuses_array : lay_array lay' = lay_array lay \/
                 Ptr.arrays s !! lay_array lay' = None;
  reuses_nodes : forall k, k ∈ owned lay' ->
                 k ∈ owned lay \/ Ptr.nodes s !! k = None
}.

(** Two tables of one store share no storage. *)
Record separate (this : positive) (lay : layout) (other : positive)
    (lay' : layout) : Prop := mk_separate {
  sep_objects : this <> other;
  sep_arrays : lay_array lay <> lay_array lay';
  sep_nodes : forall k, k ∈ owned lay -> k ∉ owned lay'
}.

(** ** Accounting for storage

    What is in use after a member function ran on an object whose layout
    went from [lay] to [lay']: no new object; no array but the table's own
    and those that were in use and not the table's; no node but the
    table's own and those that were in use and not the table's.  So what
    the table gave up was released, and nothing was allocated that the
    table does not own. *)
Record accounted (s s' : Ptr.Store) (lay lay' : layout) : Prop := mk_accounted {
  acc_objects : forall k, is_Some (Ptr.objects s' !! k) -> is_Some (Ptr.objects s !! k);
  acc_arrays : forall b, is_Some (Ptr.arrays s' !! b) ->
      b = lay_array lay' \/ (is_Some (Ptr.arrays s !! b) /\ b <> lay_array lay);
  acc_nodes : forall k, is_Some (Ptr.nodes s' !! k) ->
      k ∈ owned lay' \/ (is_Some (Ptr.nodes s !! k) /\ k ∉ owned lay)
}.

(** The store [s'] is the store [s] and, on storage that was not in use in
    [s], one more object [this] with the array and the nodes of [lay]. *)
Record adds_table (s s' : Ptr.Store) (this : positive) (lay : layout) : Prop :=
  mk_adds_table {
  adds_object : Ptr.objects s !! this = None;
  adds_objects : forall k, k <> this -> Ptr.objects s' !! k = Ptr.objects s !! k;
  adds_array : Ptr.arrays s !! lay_array lay = None;
  adds_arrays : forall b, b <> lay_array lay -> Ptr.arrays s' !! b = Ptr.arrays s !! b;
  adds_node : forall k, k ∈ owned lay -> Ptr.nodes s !! k = None;
  adds_nodes : forall k, k ∉ owned lay -> Ptr.nodes s' !! k = Ptr.nodes s !! k
}.

(** ** What a program sees of a table

    The object [a] in store [s1] and the object [b] in store [s2] give the
    same answers: capacity, counters and the count of every word. *)
Record same_answers {hasher : StdHash} (s1 : Ptr.Store) (a : positive)
    (s2 : Ptr.Store) (b : positive) : Prop := mk_same_answers {
  same_capacity : exists c,
      Ptr.getCapacity a s1 = Ok (c, s1) /\ Ptr.getCapacity b s2 = Ok (c, s2);
  same_unique : exists u,
      Ptr.getUniqueWordCount a s1 = Ok (u, s1) /\
      Ptr.getUniqueWordCount b s2 = Ok (u, s2);
  same_total : exists n,
      Ptr.getTotalWordCount a s1 = Ok (n, s1) /\
      Ptr.getTotalWordCount b s2 = Ok (n, s2);
  same_counts : forall w, exists n,
      Ptr.getWordCount a w s1 = Ok (n, s1) /\ Ptr.getWordCount b w s2 = Ok (n, s2)
}.

(** The objects [a] and [b] hold the same chains, bucket by bucket and in
    the same order, on storage they do not share. *)
Definition deep_copy (s : Ptr.Store) (a b : positive) (t : WordCounter) : Prop :=
  exists la lb, represents s a t la /\ represents s b t lb /\ separate a la b lb.

(** Calls on [a] run to their end and do not change the answers of [b]. *)
Definition unaffected_by {hasher : StdHash} (s : Ptr.Store) (b a : positive)
    (calls : list call) : Prop :=
  exists s', Ptr.run a calls s = Ok (tt, s') /\ same_answers s b s' b.

(** [cp] in [s'] is a copy of [src], made in [s], of the table [t]. *)
Record copied {hasher : StdHash} (s s' : Ptr.Store) (src cp : positive)
    (t : WordCounter) : Prop := mk_copied {
  copied_source : same_answers s src s' src;
  copied_answers : same_answers s' src s' cp;
  copied_deep : deep_copy s' src cp t;
  copied_independent : forall calls,
      totalWordCount t + Z.of_nat (length calls) <= INT_MAX ->
      unaffected_by s' src cp calls /\ unaffected_by s' cp src calls
}.

(** A store with two tables for closed examples: the object at address 2
    holds "cat" twice and "dog" once, the object at address 3 is new, with
    the capacity for a request of 20. *)
Definition two_tables : Ptr.M (positive * positive) :=
  src ← Ptr.WordCounter_new;
  @Ptr.run length_hash src cat_dog_calls;;
  dst ← Ptr.WordCounter_new_capacity 20;
  mret (src, dst).

Definition two_tables_store : Ptr.Store :=
  match two_tables Ptr.empty_store with
  | Ok (_, s) => s
  | Fault _ => Ptr.empty_store
  end.

(** * The text functions of the test driver ([word_counter_test.cpp])

    [std::string] members as used there.  [string_find]: the position of
    the first occurrence of a character, [None] for [npos].
    [string_substr s pos len]: the characters from [pos] on, at most
    [len] of them, all of them when [len] is [None] ([npos]).
    [string_erase s pos n]: [s] without the [n] characters from [pos] on.
    Both throw [std::out_of_range] for a [pos] beyond the length, which
    nothing in the driver catches: the run ends with [OutOfBounds]. *)
Definition space : ascii := " "%char.

Fixpoint string_find (c : ascii) (s : string) : option nat :=
  match s with
  | EmptyString => None
  | String a rest => if Ascii.eqb a c then Some 0%nat else S <$> string_find c rest
  end.

Definition string_substr (s : string) (pos : nat) (len : option nat) : res string :=
  if (String.length s <? pos)%nat then Fault OutOfBounds
  else match len with
       | Some n => Ok (substring pos n s)
       | None => Ok (substring pos (String.length s) s)
       end.

Definition string_erase (s : string) (pos n : nat) : res string :=
  if (String.length s <? pos)%nat then Fault OutOfBounds
  else Ok (substring 0 pos s ++ substring (pos + n) (String.length s) s)%string.

(** The loop of [trimLeadingSpaces]:
    [while (line.find(' ') == 0) line.erase(0, 1)]. *)
Fixpoint trim_loop (steps : nat) (line : string) : res string :=
  match steps with
  | O => Fault Diverges
  | S steps =>
      if decide (string_find space line = Some 0%nat)
      then line ← string_erase line 0 1; trim_loop steps line
      else Ok line
  end.

Definition trimLeadingSpaces (line : string) : res string :=
  trim_loop (S (String.length line)) line.

(** [getWordFromLine(string &line)]: the word returned and the line left
    in the reference parameter. *)
Definition getWordFromLine (line : string) : res (string * string) :=
  line ← trimLeadingSpaces line;
  if negb (String.eqb line EmptyString) then
    word ← string_substr line 0 (string_find space line);
    line ← match string_find space line with
           | Some p => string_substr line p (Some (String.length line))
           | None => mret EmptyString
           end;
    mret (word, line)
  else mret (EmptyString, line).

(** [displayWordCounts]: what it prints after the heading, a line with a
    word and its count for every pass of the loop. *)
Fixpoint display_loop {hasher : StdHash} (steps : nat) (wordsToAnalyze : string)
    (wordCounter : WordCounter) : res (list (string * Z)) :=
  match steps with
  | O => Fault Diverges
  | S steps =>
      if (String.length wordsToAnalyze =? 0)%nat then mret []
      else
        '(word, wordsToAnalyze) ← getWordFromLine wordsToAnalyze;
        count ← getWordCount wordCounter word;
        printed ← display_loop steps wordsToAnalyze wordCounter;
        mret ((word, count) :: printed)
  end.

Definition displayWordCounts {hasher : StdHash} (wordsToAnalyze : string)
    (wordCounter : WordCounter) : res (list (string * Z)) :=
  display_loop (S (String.length wordsToAnalyze)) wordsToAnalyze wordCounter.

(** [removeCommonWords]: [English::commonWords()] is not part of these
    sources, so the vector it returns is an argument.  The loop counter is
    an [int], converted to [size_t] for the comparison with the size of the
    vector; [commonWords[i]] is an unchecked access. *)
Fixpoint common_loop {hasher : StdHash} (steps : nat) (commonWords : list string)
    (i : Z) (wordCounter : WordCounter) : res WordCounter :=
  match steps with
  | O => Fault Diverges
  | S steps =>
      if size_t_of_int i <? Z.of_nat (length commonWords) then
        w ← array_get commonWords i;
        wordCounter ← removeWord wordCounter w;
        i ← int_of (i + 1);
        common_loop steps commonWords i wordCounter
      else mret wordCounter
  end.

Definition removeCommonWords {hasher : StdHash} (commonWords : list string)
    (wordCounter : WordCounter) : res WordCounter :=
  common_loop (S (length commonWords)) commonWords 0 wordCounter.

(** ** Words of a line, for the statements *)

(** A string of [n] spaces. *)
Fixpoint spaces (n : nat) : string :=
  match n with
  | O => EmptyString
  | S n => String space (spaces n)
  end.

(** The fields of a line between its spaces; two spaces in a row, a
    space in front and a space at the end give an empty field. *)
Fixpoint fields (s : string) : list string :=
  match s with
  | EmptyString => [EmptyString]
  | String c rest =>
      if Ascii.eqb c space then EmptyString :: fields rest
      else match fields rest with
           | w :: ws => String c w :: ws
           | [] => [String c EmptyString]
           end
  end.

(** The words [displayWordCounts] looks up: the fields that are not
    empty, and the empty word once more when the line ends in a space. *)
Definition looked_up (line : string) : list string :=
  filter (fun w => w <> EmptyString) (fields line) ++
  (if decide (line <> EmptyString /\ last (fields line) = Some EmptyString)
   then [EmptyString] else []).

(** * Facts *)

Section BasicFacts.

Lemma int_of_ok z : INT_MIN <= z <= INT_MAX -> int_of z = Ok z.
Proof.
  intros [Hlo Hhi]. unfold int_of.
  apply Z.leb_le in Hlo, Hhi. by rewrite Hlo, Hhi.
Qed.

Lemma int_of_inv z r : int_of z = Ok r -> r = z /\ INT_MIN <= z <= INT_MAX.
Proof.
  unfold int_of. destruct (INT_MIN <=? z) eqn:Hlo, (z <=? INT_MAX) eqn:Hhi;
    simpl; intros Heq; try discriminate.
  inversion Heq. apply Z.leb_le in Hlo, Hhi. lia.
Qed.

Lemma int_of_fault z : ~ (INT_MIN <= z <= INT_MAX) -> int_of z = Fault SignedOverflow.
Proof.
  intros Hn. unfold int_of.
  destruct (INT_MIN <=? z) eqn:Hlo, (z <=? INT_MAX) eqn:Hhi; simpl; try done.
  apply Z.leb_le in Hlo, Hhi. lia.
Qed.

Lemma array_get_ok {X} (a : list X) (i : nat) x :
  a !! i = Some x -> array_get a (Z.of_nat i) = Ok x.
Proof.
  intros Hx. unfold array_get.
  destruct (Z.of_nat i <? 0) eqn:Hneg; [apply Z.ltb_lt in Hneg; lia|].
  by rewrite Nat2Z.id, Hx.
Qed.

Lemma array_get_inv {X} (a : list X) i x :
  array_get a i = Ok x -> 0 <= i /\ a !! Z.to_nat i = Some x.
Proof.
  unfold array_get. destruct (i <? 0) eqn:Hneg; [done|].
  apply Z.ltb_ge in Hneg.
  destruct (a !! Z.to_nat i) eqn:Hl; [|done]. intros [= ->]. done.
Qed.

Lemma array_set_ok {X} (a : list X) (i : nat) x :
  (i < length a)%nat -> array_set a (Z.of_nat i) x = Ok (<[i := x]> a).
Proof.
  intros Hi. unfold array_set.
  destruct (Z.of_nat i <? 0) eqn:Hneg; [apply Z.ltb_lt in Hneg; lia|].
  rewrite Nat2Z.id. apply Nat.ltb_lt in Hi. by rewrite Hi.
Qed.

Lemma array_set_inv {X} (a : list X) i x a' :
  array_set a i x = Ok a' ->
  0 <= i /\ (Z.to_nat i < length a)%nat /\ a' = <[Z.to_nat i := x]> a.
Proof.
  unfold array_set. destruct (i <? 0) eqn:Hneg; [done|].
  apply Z.ltb_ge in Hneg.
  destruct (Z.to_nat i <? length a)%nat eqn:Hlt; [|done].
  apply Nat.ltb_lt in Hlt. intros [= <-]. done.
Qed.

End BasicFacts.

Section ListFacts.

Lemma concat_lookup_perm {X} (tbl : list (list X)) (i : nat) (ch : list X) :
  tbl !! i = Some ch ->
  concat tbl ≡ₚ ch ++ (concat (take i tbl) ++ concat (drop (S i) tbl)).
Proof.
  intros Hi. rewrite <- (take_drop_middle tbl i ch Hi) at 1.
  rewrite concat_app. simpl.
  rewrite (Permutation_app_comm (concat (take i tbl))).
  rewrite <- !app_assoc. apply Permutation_app_head.
  apply Permutation_app_comm.
Qed.

Lemma concat_insert_perm {X} (tbl : list (list X)) (i : nat) (ch : list X) :
  (i < length tbl)%nat ->
  concat (<[i := ch]> tbl) ≡ₚ ch ++ (concat (take i tbl) ++ concat (drop (S i) tbl)).
Proof.
  intros Hi.
  rewrite (concat_lookup_perm (<[i := ch]> tbl) i ch)
    by (by apply list_lookup_insert_eq).
  rewrite take_insert_ge by lia. rewrite drop_insert_lt by lia. done.
Qed.

Lemma elem_of_concat_lookup {X} (tbl : list (list X)) (x : X) :
  x ∈ concat tbl <-> exists i ch, tbl !! i = Some ch /\ x ∈ ch.
Proof.
  induction tbl as [|c tbl IH]; simpl.
  - split; [intros Hx; by apply elem_of_nil in Hx|].
    intros (i & ch & Hl & _). by rewrite lookup_nil in Hl.
  - rewrite elem_of_app, IH. split.
    + intros [Hx | (i & ch & Hl & Hx)].
      * exists 0%nat, c. done.
      * exists (S i), ch. done.
    + intros (i & ch & Hl & Hx). destruct i as [|i]; simpl in Hl.
      * left. by inversion Hl.
      * right. eauto.
Qed.

Lemma sum_counts_app l1 l2 : sum_counts (l1 ++ l2) = sum_counts l1 + sum_counts l2.
Proof. induction l1 as [|n l1 IH]; simpl; lia. Qed.

Lemma sum_counts_perm l1 l2 : l1 ≡ₚ l2 -> sum_counts l1 = sum_counts l2.
Proof. induction 1; simpl; lia. Qed.

Lemma sum_counts_lower l :
  (forall n, n ∈ l -> 1 <= wordCount n) -> Z.of_nat (length l) <= sum_counts l.
Proof.
  induction l as [|n l IH]; intros Hpos; simpl; [lia|].
  assert (1 <= wordCount n) by (apply Hpos; left).
  assert (Z.of_nat (length l) <= sum_counts l)
    by (apply IH; intros m Hm; apply Hpos; by right).
  lia.
Qed.

Lemma sum_counts_elem l n :
  (forall m, m ∈ l -> 1 <= wordCount m) -> n ∈ l -> wordCount n <= sum_counts l.
Proof.
  induction l as [|m l IH]; intros Hpos Hn; [by apply elem_of_nil in Hn|].
  simpl. apply elem_of_cons in Hn as [-> | Hn].
  - assert (0 <= sum_counts l); [|lia].
    pose proof (sum_counts_lower l) as Hl.
    assert (Z.of_nat (length l) <= sum_counts l); [|lia].
    apply Hl. intros k Hk. apply Hpos. by right.
  - assert (1 <= wordCount m) by (apply Hpos; left).
    assert (wordCount n <= sum_counts l); [|lia].
    apply IH; [|done]. intros k Hk. apply Hpos. by right.
Qed.

Lemma chain_count_absent w l : w ∉ (word <$> l) -> chain_count w l = 0.
Proof.
  induction l as [|n l IH]; simpl; [done|].
  intros Hw. apply not_elem_of_cons in Hw as [Hne Hw].
  destruct (String.eqb_spec (word n) w); [congruence|]. by apply IH.
Qed.

Lemma chain_count_elem l n :
  NoDup (word <$> l) -> n ∈ l -> chain_count (word n) l = wordCount n.
Proof.
  induction l as [|m l IH]; simpl; intros Hnd Hn; [by apply elem_of_nil in Hn|].
  apply NoDup_cons in Hnd as [Hm Hnd].
  apply elem_of_cons in Hn as [-> | Hn].
  - by rewrite String.eqb_refl.
  - destruct (String.eqb_spec (word m) (word n)) as [Heq|]; [|by apply IH].
    exfalso. apply Hm. rewrite Heq. by apply list_elem_of_fmap_2.
Qed.

Lemma chain_count_perm w l1 l2 :
  NoDup (word <$> l1) -> l1 ≡ₚ l2 -> chain_count w l1 = chain_count w l2.
Proof.
  intros Hnd Hp.
  assert (Hnd2 : NoDup (word <$> l2)) by (by rewrite <- Hp).
  destruct (decide (w ∈ word <$> l1)) as [Hin | Hout].
  - apply list_elem_of_fmap in Hin as (n & -> & Hn).
    rewrite chain_count_elem by done.
    rewrite chain_count_elem; [done|done|by rewrite <- Hp].
  - rewrite chain_count_absent by done.
    rewrite chain_count_absent; [done|by rewrite <- Hp].
Qed.

Lemma chain_count_app w l1 l2 :
  chain_count w (l1 ++ l2) =
  if decide (w ∈ word <$> l1) then chain_count w l1 else chain_count w l2.
Proof.
  induction l1 as [|n l1 IH]; [done|].
  rewrite fmap_cons. cbn [app chain_count].
  - destruct (String.eqb_spec (word n) w) as [Heq|Hne].
    + rewrite decide_True; [done|]. rewrite <- Heq. left.
    + rewrite IH. destruct (decide (w ∈ word <$> l1)) as [Hin|Hout].
      * rewrite decide_True; [done|by right].
      * rewrite decide_False; [done|].
        intros Hc. apply elem_of_cons in Hc as [?|?]; congruence.
Qed.

Lemma find_node_count w l pos :
  match find_node w l pos with
  | Some p => (exists n, l !! Nat.sub p pos = Some n /\ word n = w /\
                         chain_count w l = wordCount n /\ (pos <= p)%nat)
  | None => (w ∉ word <$> l) /\ chain_count w l = 0
  end.
Proof.
  revert pos. induction l as [|m l IH]; intros pos; simpl.
  - split; [apply not_elem_of_nil|done].
  - destruct (String.eqb_spec (word m) w) as [Heq|Hne].
    + exists m. rewrite Nat.sub_diag. done.
    + specialize (IH (S pos)). destruct (find_node w l (S pos)) as [p|].
      * destruct IH as (n & Hl & Hw & Hc & Hle). exists n.
        replace (p - pos)%nat with (S (p - S pos)) by lia. simpl.
        repeat split; try done. lia.
      * destruct IH as [Hout Hc]. split; [|done].
        apply not_elem_of_cons. split; [congruence|done].
Qed.

End ListFacts.

Section CapacityFacts.

Lemma ascending_from_lower lo ps p :
  ascending_from lo ps = true -> p ∈ ps -> lo < p.
Proof.
  revert lo. induction ps as [|q ps IH]; intros lo Hasc Hp;
    [by apply elem_of_nil in Hp|].
  simpl in Hasc. apply andb_true_iff in Hasc as [Hlt Hasc].
  apply Z.ltb_lt in Hlt.
  apply elem_of_cons in Hp as [-> | Hp]; [done|].
  specialize (IH q Hasc Hp). lia.
Qed.

Lemma primes_ascending : ascending_from 10 primes = true.
Proof. vm_compute. reflexivity. Qed.

Lemma primes_bounded c : c ∈ primes -> MIN_CAPACITY <= c <= MAX_CAPACITY.
Proof.
  intros Hc. assert (Hall : Forall (fun p => MIN_CAPACITY <= p <= MAX_CAPACITY) primes).
  { apply Forall_forall. intros p Hp.
    assert (Hb : forallb (fun p => (MIN_CAPACITY <=? p) && (p <=? MAX_CAPACITY)) primes = true)
      by (vm_compute; reflexivity).
    rewrite forallb_forall in Hb. specialize (Hb p).
    rewrite <- list_elem_of_In in Hb. specialize (Hb Hp).
    apply andb_true_iff in Hb as [H1 H2].
    apply Z.leb_le in H1, H2. done. }
  rewrite Forall_forall in Hall. by apply Hall.
Qed.

Lemma MAX_CAPACITY_prime : MAX_CAPACITY ∈ primes.
Proof. apply list_elem_of_In. vm_compute. intuition. Qed.

Lemma MIN_CAPACITY_prime : MIN_CAPACITY ∈ primes.
Proof. left. Qed.

Lemma first_at_least_elem n ps :
  first_at_least n ps ∈ ps \/ first_at_least n ps = MAX_CAPACITY.
Proof.
  induction ps as [|p ps IH]; simpl; [by right|].
  destruct (n <=? p); [left; left|].
  destruct IH as [IH | IH]; [left; by right | by right].
Qed.

Lemma first_at_least_found n ps :
  (exists p, p ∈ ps /\ n <= p) ->
  n <= first_at_least n ps /\ first_at_least n ps ∈ ps.
Proof.
  induction ps as [|p ps IH]; intros (q & Hq & Hle).
  - by apply elem_of_nil in Hq.
  - simpl. destruct (n <=? p) eqn:Hnp.
    + apply Z.leb_le in Hnp. split; [done|left].
    + apply Z.leb_gt in Hnp.
      apply elem_of_cons in Hq as [-> | Hq]; [lia|].
      destruct IH as [H1 H2]; [by exists q|]. split; [done|by right].
Qed.

Lemma first_at_least_least n lo ps p :
  ascending_from lo ps = true -> p ∈ ps -> n <= p -> first_at_least n ps <= p.
Proof.
  revert lo. induction ps as [|q ps IH]; intros lo Hasc Hp Hle;
    [by apply elem_of_nil in Hp|].
  simpl in Hasc. apply andb_true_iff in Hasc as [_ Hasc].
  simpl. destruct (n <=? q) eqn:Hnq.
  - apply elem_of_cons in Hp as [-> | Hp]; [lia|].
    pose proof (ascending_from_lower q ps p Hasc Hp). lia.
  - apply Z.leb_gt in Hnq.
    apply elem_of_cons in Hp as [-> | Hp]; [lia|]. by eapply IH.
Qed.

Lemma first_at_least_none n ps :
  (forall p, p ∈ ps -> p < n) -> first_at_least n ps = MAX_CAPACITY.
Proof.
  induction ps as [|p ps IH]; intros Hall; simpl; [done|].
  assert (p < n) by (apply Hall; left).
  destruct (n <=? p) eqn:Hnp; [apply Z.leb_le in Hnp; lia|].
  apply IH. intros q Hq. apply Hall. by right.
Qed.

Lemma getValidCapacity_prime n : getValidCapacity n ∈ primes.
Proof.
  unfold getValidCapacity.
  destruct (first_at_least_elem n primes) as [Hin | ->]; [done|].
  apply MAX_CAPACITY_prime.
Qed.

Lemma getValidCapacity_ge n : n <= MAX_CAPACITY -> n <= getValidCapacity n.
Proof.
  intros Hn. unfold getValidCapacity.
  apply first_at_least_found. exists MAX_CAPACITY.
  split; [apply MAX_CAPACITY_prime|done].
Qed.

Lemma getValidCapacity_least n p : p ∈ primes -> n <= p -> getValidCapacity n <= p.
Proof.
  intros Hp Hle. unfold getValidCapacity.
  eapply first_at_least_least; [apply primes_ascending|done|done].
Qed.

Lemma getValidCapacity_above n : MAX_CAPACITY < n -> getValidCapacity n = MAX_CAPACITY.
Proof.
  intros Hn. unfold getValidCapacity. apply first_at_least_none.
  intros p Hp. apply primes_bounded in Hp. lia.
Qed.

Lemma getValidCapacity_bounded n :
  MIN_CAPACITY <= getValidCapacity n <= MAX_CAPACITY.
Proof. apply primes_bounded, getValidCapacity_prime. Qed.

Lemma getValidCapacity_fixed p : p ∈ primes -> getValidCapacity p = p.
Proof.
  intros Hp. apply Z.le_antisymm.
  - by apply getValidCapacity_least.
  - apply getValidCapacity_ge. by apply primes_bounded.
Qed.

End CapacityFacts.

Section TableFacts.
Context {hasher : StdHash}.

Lemma capacity_constants :
  MIN_CAPACITY = 11 /\ MAX_CAPACITY = 993815743 /\
  INT_MAX = 2147483647 /\ INT_MIN = -2147483648 /\
  SIZE_MODULUS = 18446744073709551616.
Proof. repeat split; reflexivity. Qed.

Lemma bucket_of_range w c : 0 < c -> 0 <= bucket_of w c < c.
Proof. intros Hc. unfold bucket_of. apply Z.mod_pos_bound. done. Qed.

Lemma getBucket_ok w c :
  0 < c <= INT_MAX -> getBucket w c = Ok (bucket_of w c).
Proof.
  intros Hc. pose proof (bucket_of_range w c) as Hb.
  destruct capacity_constants as (_ & _ & HM & _ & HS).
  unfold getBucket, size_t_of_int, bucket_of in *.
  rewrite (Z.mod_small c) by lia.
  destruct (c =? 0) eqn:Hz; [apply Z.eqb_eq in Hz; lia|].
  f_equal. unfold int_of_size_t.
  set (b := (std_hash w mod SIZE_MODULUS) mod c) in *.
  rewrite Z.mod_small; lia.
Qed.

Lemma getBucket_inv w c b :
  getBucket w c = Ok b -> 0 < c <= INT_MAX -> b = bucket_of w c /\ 0 <= b < c.
Proof.
  intros Hb Hc. rewrite getBucket_ok in Hb by done. inversion Hb; subst.
  split; [done|]. apply bucket_of_range. lia.
Qed.

Lemma inv_capacity_range t :
  table_inv t -> MIN_CAPACITY <= capacity t <= MAX_CAPACITY.
Proof. intros Hinv. apply primes_bounded, Hinv. Qed.

Lemma inv_capacity_int t : table_inv t -> 0 < capacity t <= INT_MAX.
Proof.
  intros Hinv. pose proof (inv_capacity_range t Hinv).
  destruct capacity_constants as (? & ? & ? & _). lia.
Qed.

Lemma prime_int c : c ∈ primes -> 0 < c <= INT_MAX.
Proof.
  intros Hc. apply primes_bounded in Hc.
  destruct capacity_constants as (? & ? & ? & _). lia.
Qed.

(** *** The chain of a word's bucket *)

Lemma bucket_chain (tbl : list chain) c w :
  0 < c -> length tbl = Z.to_nat c ->
  exists ch, tbl !! Z.to_nat (bucket_of w c) = Some ch.
Proof.
  intros Hc Hlen. pose proof (bucket_of_range w c Hc).
  apply lookup_lt_is_Some. lia.
Qed.

Lemma rest_elsewhere {X} (tbl : list (list X)) (i : nat) (x : X) :
  x ∈ concat (take i tbl) ++ concat (drop (S i) tbl) ->
  exists j ch, j <> i /\ tbl !! j = Some ch /\ x ∈ ch.
Proof.
  rewrite elem_of_app, !elem_of_concat_lookup.
  intros [(j & ch & Hl & Hx) | (j & ch & Hl & Hx)].
  - apply lookup_take_Some in Hl as [Hl Hlt]. exists j, ch.
    split; [lia|done].
  - rewrite lookup_drop in Hl. exists (S i + j)%nat, ch.
    split; [lia|done].
Qed.

Lemma other_buckets_absent (tbl : list chain) c w (i : nat) :
  buckets_ok c tbl -> bucket_of w c = Z.of_nat i ->
  w ∉ word <$> (concat (take i tbl) ++ concat (drop (S i) tbl)).
Proof.
  intros Hok Hb Hin. apply list_elem_of_fmap in Hin as (n & -> & Hn).
  apply rest_elsewhere in Hn as (j & ch & Hne & Hl & Hn).
  specialize (Hok j ch n Hl Hn). lia.
Qed.

Lemma stored_in_bucket t w ch :
  table_inv t ->
  wordTable t !! Z.to_nat (bucket_of w (capacity t)) = Some ch ->
  stored t w = chain_count w ch.
Proof.
  intros Hinv Hl. set (i := Z.to_nat (bucket_of w (capacity t))) in *.
  pose proof (inv_capacity_int t Hinv) as Hc.
  pose proof (bucket_of_range w (capacity t) (proj1 Hc)) as Hb.
  unfold stored.
  rewrite (chain_count_perm w _ _ (inv_nodup t Hinv)
             (concat_lookup_perm (wordTable t) i ch Hl)).
  rewrite chain_count_app. case_decide as Hin; [done|].
  rewrite (chain_count_absent w ch) by done.
  apply chain_count_absent.
  apply (other_buckets_absent _ (capacity t)); [apply Hinv|].
  unfold i. lia.
Qed.

Lemma getWordNode_ok t w :
  table_inv t ->
  exists ch, wordTable t !! Z.to_nat (bucket_of w (capacity t)) = Some ch /\
    getWordNode t w =
      Ok (option_map (fun pos => (bucket_of w (capacity t), pos)) (find_node w ch 0)).
Proof.
  intros Hinv. pose proof (inv_capacity_int t Hinv) as Hc.
  pose proof (bucket_of_range w (capacity t) (proj1 Hc)) as Hb.
  destruct (bucket_chain (wordTable t) (capacity t) w (proj1 Hc) (inv_length t Hinv))
    as [ch Hch].
  exists ch. split; [done|]. unfold getWordNode.
  rewrite getBucket_ok by done. simpl.
  rewrite <- (Z2Nat.id (bucket_of w (capacity t))) at 1 by lia.
  rewrite (array_get_ok _ _ ch Hch). done.
Qed.

(** [getWordCount] never faults on a table satisfying the invariant, and
    returns the count stored for the word. *)
Lemma getWordCount_stored t w : table_inv t -> getWordCount t w = Ok (stored t w).
Proof.
  intros Hinv. destruct (getWordNode_ok t w Hinv) as (ch & Hch & Hget).
  pose proof (inv_capacity_int t Hinv) as Hc.
  pose proof (bucket_of_range w (capacity t) (proj1 Hc)) as Hb.
  unfold getWordCount. rewrite Hget. simpl.
  rewrite (stored_in_bucket t w ch Hinv Hch).
  pose proof (find_node_count w ch 0) as Hf.
  destruct (find_node w ch 0) as [pos|]; simpl.
  - destruct Hf as (n & Hn & _ & Hcount & _). rewrite Nat.sub_0_r in Hn.
    unfold node_at. simpl.
    rewrite <- (Z2Nat.id (bucket_of w (capacity t))) by lia.
    rewrite (array_get_ok _ _ ch Hch). simpl. rewrite Hn. simpl. by rewrite Hcount.
  - by destruct Hf as [_ ->].
Qed.

End TableFacts.

Section ResizeFacts.
Context {hasher : StdHash}.

Lemma concat_replicate_nil {X} n : concat (replicate n (@nil X)) = [].
Proof. induction n as [|n IH]; simpl; [done|by rewrite IH]. Qed.

Lemma buckets_ok_replicate c n : buckets_ok c (replicate n []).
Proof.
  intros b ch m Hl Hm. apply lookup_replicate in Hl as [-> _].
  by apply elem_of_nil in Hm.
Qed.

Lemma buckets_ok_insert c (tbl : list chain) (b : nat) ch' :
  buckets_ok c tbl ->
  (forall n, n ∈ ch' -> bucket_of (word n) c = Z.of_nat b) ->
  buckets_ok c (<[b := ch']> tbl).
Proof.
  intros Hok Hch j ch n Hl Hn.
  destruct (decide (b = j)) as [<- | Hne].
  - apply list_lookup_insert_Some in Hl as [(_ & <- & _) | (Hne & _)]; [|done].
    by apply Hch.
  - rewrite list_lookup_insert_ne in Hl by done. by eapply Hok.
Qed.

(** Replacing the chain of one bucket replaces its nodes among the entries. *)
Lemma concat_replace_chain (tbl : list chain) (b : nat) ch ch' :
  tbl !! b = Some ch ->
  exists others,
    concat tbl ≡ₚ ch ++ others /\ concat (<[b := ch']> tbl) ≡ₚ ch' ++ others /\
    others = concat (take b tbl) ++ concat (drop (S b) tbl).
Proof.
  intros Hl. eexists. split; [by apply concat_lookup_perm|].
  split; [|done]. apply concat_insert_perm. by eapply lookup_lt_Some.
Qed.

Lemma node_eta n : mkNode (word n) (wordCount n) = n.
Proof. by destruct n. Qed.

Lemma rehash_chain_ok ch c' (new : list chain) :
  0 < c' <= INT_MAX -> length new = Z.to_nat c' -> buckets_ok c' new ->
  exists new', rehash_chain ch c' new = Ok new' /\
    length new' = Z.to_nat c' /\ buckets_ok c' new' /\
    concat new' ≡ₚ ch ++ concat new.
Proof.
  intros Hc. revert new. induction ch as [|n next IH]; intros new Hlen Hok.
  - exists new. done.
  - pose proof (bucket_of_range (word n) c' (proj1 Hc)) as Hb.
    destruct (bucket_chain new c' (word n) (proj1 Hc) Hlen) as [head Hhead].
    set (b := Z.to_nat (bucket_of (word n) c')) in *.
    assert (Hbz : bucket_of (word n) c' = Z.of_nat b) by (unfold b; lia).
    destruct (IH (<[b := n :: head]> new)) as (new' & Hrun & Hlen' & Hok' & Hperm).
    + by rewrite length_insert.
    + apply buckets_ok_insert; [done|]. intros m Hm.
      apply elem_of_cons in Hm as [-> | Hm]; [done|].
      by apply (Hok b head).
    + exists new'. split; [|split; [done|split; [done|]]].
      * cbn [rehash_chain]. rewrite getBucket_ok by done. simpl.
        rewrite Hbz, (array_get_ok _ _ _ Hhead). simpl.
        rewrite array_set_ok by (by eapply lookup_lt_Some). simpl.
        by rewrite node_eta.
      * rewrite Hperm.
        destruct (concat_replace_chain new b head (n :: head) Hhead)
          as (others & Hold & Hnew & _).
        rewrite Hnew, Hold. simpl. symmetry. apply Permutation_middle.
Qed.

Lemma rehash_buckets_ok (old : list chain) (i k : nat) c' (new : list chain) :
  (i + k <= length old)%nat ->
  0 < c' <= INT_MAX -> length new = Z.to_nat c' -> buckets_ok c' new ->
  exists new', rehash_buckets old (seq i k) c' new = Ok new' /\
    length new' = Z.to_nat c' /\ buckets_ok c' new' /\
    concat new' ≡ₚ concat (take k (drop i old)) ++ concat new.
Proof.
  intros Hik Hc. revert i new Hik.
  induction k as [|k IH]; intros i new Hik Hlen Hok.
  - exists new. done.
  - destruct (lookup_lt_is_Some_2 old i) as [ch Hch]; [lia|].
    destruct (rehash_chain_ok ch c' new Hc Hlen Hok)
      as (new1 & Hrun1 & Hlen1 & Hok1 & Hperm1).
    destruct (IH (S i) new1) as (new' & Hrun & Hlen' & Hok' & Hperm);
      [lia|done|done|].
    exists new'. split; [|split; [done|split; [done|]]].
    + cbn [seq rehash_buckets]. rewrite (array_get_ok _ _ _ Hch). simpl.
      rewrite Hrun1. simpl. done.
    + rewrite Hperm, Hperm1. rewrite (drop_S old ch i Hch). simpl.
      rewrite <- !app_assoc. apply Permutation_app_swap_app.
Qed.

Lemma resize_ok t requested :
  0 <= capacity t -> length (wordTable t) = Z.to_nat (capacity t) ->
  exists t', resize t requested = Ok t' /\
    capacity t' = getValidCapacity requested /\
    length (wordTable t') = Z.to_nat (capacity t') /\
    buckets_ok (capacity t') (wordTable t') /\
    entries t' ≡ₚ entries t /\
    totalWordCount t' = totalWordCount t /\
    uniqueWordCount t' = uniqueWordCount t.
Proof.
  intros Hc Hlen.
  destruct (rehash_buckets_ok (wordTable t) 0 (Z.to_nat (capacity t))
              (getValidCapacity requested)
              (replicate (Z.to_nat (getValidCapacity requested)) []))
    as (new' & Hrun & Hlen' & Hok' & Hperm).
  - lia.
  - apply prime_int, getValidCapacity_prime.
  - by rewrite length_replicate.
  - apply buckets_ok_replicate.
  - eexists. unfold resize. rewrite Hrun. simpl. split; [done|]. simpl.
    repeat split; try done.
    unfold entries. simpl. rewrite Hperm, concat_replicate_nil, app_nil_r.
    rewrite drop_0, take_ge by lia. done.
Qed.

End ResizeFacts.

Section LoadFacts.

Lemma Qle_quotient_l (u c a : Z) (b : positive) :
  0 < c -> (inject_Z u / inject_Z c <= a # b)%Q <-> u * Zpos b <= a * c.
Proof.
  intros Hc. destruct c as [|p|p]; try lia.
  unfold Qle, Qdiv, Qmult, Qinv, inject_Z. simpl. lia.
Qed.

Lemma Qle_quotient_r (u c a : Z) (b : positive) :
  0 < c -> (a # b <= inject_Z u / inject_Z c)%Q <-> a * c <= u * Zpos b.
Proof.
  intros Hc. destruct c as [|p|p]; try lia.
  unfold Qle, Qdiv, Qmult, Qinv, inject_Z. simpl. lia.
Qed.

Lemma Qltb_lt a b : Qltb a b = true <-> (a < b)%Q.
Proof.
  unfold Qltb. rewrite negb_true_iff, <- not_true_iff_false, Qle_bool_iff.
  split; [apply Qnot_le_lt | apply Qlt_not_le].
Qed.

Lemma load_above_max t :
  0 < capacity t ->
  Qltb MAX_LOAD_FACTOR (getLoadFactor t) = (3 * capacity t <? 4 * uniqueWordCount t).
Proof.
  intros Hc. apply eq_true_iff_eq.
  rewrite Qltb_lt, Z.ltb_lt. unfold getLoadFactor, MAX_LOAD_FACTOR. split.
  - intros Hlt. apply Qlt_not_le in Hlt. rewrite Qle_quotient_l in Hlt by done. lia.
  - intros Hlt. apply Qnot_le_lt. rewrite Qle_quotient_l by done. lia.
Qed.

Lemma load_below_min t :
  0 < capacity t ->
  Qltb (getLoadFactor t) MIN_LOAD_FACTOR = (10 * uniqueWordCount t <? 3 * capacity t).
Proof.
  intros Hc. apply eq_true_iff_eq.
  rewrite Qltb_lt, Z.ltb_lt. unfold getLoadFactor, MIN_LOAD_FACTOR. split.
  - intros Hlt. apply Qlt_not_le in Hlt. rewrite Qle_quotient_r in Hlt by done. lia.
  - intros Hlt. apply Qnot_le_lt. rewrite Qle_quotient_r by done. lia.
Qed.

Lemma load_within_iff t :
  0 < capacity t ->
  load_within t <->
  3 * capacity t <= 10 * uniqueWordCount t /\ 4 * uniqueWordCount t <= 3 * capacity t.
Proof.
  intros Hc. unfold load_within, getLoadFactor, MIN_LOAD_FACTOR, MAX_LOAD_FACTOR.
  rewrite Qle_quotient_l, Qle_quotient_r by done. lia.
Qed.

Lemma load_clamped_iff t :
  0 < capacity t ->
  load_clamped t <->
  (capacity t = MIN_CAPACITY /\ 10 * uniqueWordCount t < 3 * capacity t) \/
  (capacity t = MAX_CAPACITY /\ 3 * capacity t < 4 * uniqueWordCount t).
Proof.
  intros Hc. unfold load_clamped.
  rewrite <- !Qltb_lt, load_above_max, load_below_min, !Z.ltb_lt by done. done.
Qed.

End LoadFacts.

Section InvariantFacts.
Context {hasher : StdHash}.

Lemma table_inv_intro t l :
  capacity t ∈ primes ->
  length (wordTable t) = Z.to_nat (capacity t) ->
  buckets_ok (capacity t) (wordTable t) ->
  entries t ≡ₚ l ->
  NoDup (word <$> l) ->
  (forall n, n ∈ l -> 1 <= wordCount n) ->
  uniqueWordCount t = Z.of_nat (length l) ->
  totalWordCount t = sum_counts l ->
  totalWordCount t <= INT_MAX ->
  table_inv t.
Proof.
  intros Hcap Hlen Hok Hperm Hnd Hpos Hu Ht Hr.
  split; try done.
  - by rewrite Hperm.
  - intros n Hn. apply Hpos. by rewrite <- Hperm.
  - by rewrite Hperm.
  - by rewrite (sum_counts_perm _ _ Hperm).
Qed.

Lemma stored_perm t l k :
  entries t ≡ₚ l -> NoDup (word <$> l) -> stored t k = chain_count k l.
Proof.
  intros Hperm Hnd. unfold stored. symmetry. by apply chain_count_perm.
Qed.

Lemma chain_count_positive w l :
  (forall n, n ∈ l -> 1 <= wordCount n) -> w ∈ word <$> l -> 1 <= chain_count w l.
Proof.
  induction l as [|n l IH]; intros Hpos Hin; [by apply elem_of_nil in Hin|].
  rewrite fmap_cons in Hin. cbn [chain_count].
  destruct (String.eqb_spec (word n) w) as [Heq|Hne].
  - apply Hpos. left.
  - apply elem_of_cons in Hin as [?|Hin]; [congruence|].
    apply IH; [|done]. intros m Hm. apply Hpos. by right.
Qed.

Lemma stored_zero_absent t w :
  table_inv t -> stored t w = 0 -> w ∉ word <$> entries t.
Proof.
  intros Hinv Hz Hin.
  pose proof (chain_count_positive w (entries t) (inv_positive t Hinv) Hin).
  unfold stored in Hz. lia.
Qed.

Lemma stored_nonneg t w : table_inv t -> 0 <= stored t w.
Proof.
  intros Hinv. destruct (decide (w ∈ word <$> entries t)) as [Hin|Hout].
  - pose proof (chain_count_positive w (entries t) (inv_positive t Hinv) Hin).
    unfold stored. lia.
  - unfold stored. rewrite chain_count_absent by done. lia.
Qed.

Lemma unique_le_total t : table_inv t -> uniqueWordCount t <= totalWordCount t.
Proof.
  intros Hinv. rewrite (inv_unique t Hinv), (inv_total t Hinv).
  apply sum_counts_lower, Hinv.
Qed.

Lemma unique_nonneg t : table_inv t -> 0 <= uniqueWordCount t.
Proof. intros Hinv. rewrite (inv_unique t Hinv). lia. Qed.

Lemma unlink_found w l :
  w ∈ word <$> l ->
  exists n l', unlink w l = Some (wordCount n, l') /\ word n = w /\
               n ∈ l /\ l ≡ₚ n :: l'.
Proof.
  induction l as [|m l IH]; intros Hin; [by apply elem_of_nil in Hin|].
  rewrite fmap_cons in Hin. cbn [unlink].
  destruct (String.eqb_spec (word m) w) as [Heq|Hne].
  - exists m, l. repeat split; try done. left.
  - apply elem_of_cons in Hin as [?|Hin]; [congruence|].
    destruct (IH Hin) as (n & l' & -> & Hw & Hn & Hperm).
    exists n, (m :: l'). repeat split; try done; [by right|].
    rewrite Hperm. apply Permutation_swap.
Qed.

(** The entries after one node was taken out, replaced or put in. *)
Lemma entries_without l n r :
  NoDup (word <$> l) -> l ≡ₚ n :: r ->
  NoDup (word <$> r) /\ (word n ∉ word <$> r) /\
  (forall k, chain_count k r = if String.eqb k (word n) then 0 else chain_count k l) /\
  Z.of_nat (length l) = Z.of_nat (length r) + 1 /\
  sum_counts l = sum_counts r + wordCount n /\
  chain_count (word n) l = wordCount n.
Proof.
  intros Hnd Hperm.
  assert (Hnd' : NoDup (word <$> n :: r)) by (by rewrite <- Hperm).
  rewrite fmap_cons in Hnd'. apply NoDup_cons in Hnd' as [Hout Hndr].
  split; [done|]. split; [done|]. split; [|split; [|split]].
  - intros k. rewrite (chain_count_perm k l (n :: r) Hnd Hperm). cbn [chain_count].
    destruct (String.eqb_spec k (word n)) as [->|Hne].
    + by apply chain_count_absent.
    + destruct (String.eqb_spec (word n) k); [congruence|done].
  - rewrite (Permutation_length Hperm). simpl. lia.
  - rewrite (sum_counts_perm _ _ Hperm). simpl. lia.
  - rewrite (chain_count_perm _ l (n :: r) Hnd Hperm). cbn [chain_count].
    by rewrite String.eqb_refl.
Qed.

Lemma chain_count_cons_new k n l :
  chain_count k (n :: l) =
  if String.eqb k (word n) then wordCount n else chain_count k l.
Proof.
  cbn [chain_count]. rewrite (String.eqb_sym k). done.
Qed.

End InvariantFacts.

Section AddFacts.
Context {hasher : StdHash}.

(** The resize step at the end of the new-word branch of [addWord]. *)
Lemma grow_step_ok t :
  capacity t ∈ primes -> length (wordTable t) = Z.to_nat (capacity t) ->
  buckets_ok (capacity t) (wordTable t) ->
  exists t',
    (if Qltb MAX_LOAD_FACTOR (getLoadFactor t) && (capacity t <? MAX_CAPACITY)
     then doubled ← int_of (capacity t * 2); resize t doubled
     else mret t) = Ok t' /\
    capacity t' =
      (if (3 * capacity t <? 4 * uniqueWordCount t) && (capacity t <? MAX_CAPACITY)
       then getValidCapacity (capacity t * 2) else capacity t) /\
    capacity t' ∈ primes /\
    length (wordTable t') = Z.to_nat (capacity t') /\
    buckets_ok (capacity t') (wordTable t') /\
    entries t' ≡ₚ entries t /\
    totalWordCount t' = totalWordCount t /\
    uniqueWordCount t' = uniqueWordCount t.
Proof.
  intros Hcap Hlen Hok. pose proof (prime_int _ Hcap) as Hc.
  rewrite load_above_max by lia.
  destruct ((3 * capacity t <? 4 * uniqueWordCount t) && (capacity t <? MAX_CAPACITY))
    eqn:Hgrow.
  - apply andb_true_iff in Hgrow as [_ Hlt]. apply Z.ltb_lt in Hlt.
    destruct capacity_constants as (_ & HM & HI & HI' & _).
    rewrite int_of_ok by lia. simpl.
    destruct (resize_ok t (capacity t * 2)) as (t' & Hrun & Hc' & Hl' & Hok' & Hp & Ht & Hu);
      [lia|done|].
    exists t'. repeat split; try done.
    rewrite Hc'. apply getValidCapacity_prime.
  - exists t. done.
Qed.

Lemma insert_replace_perm {X} (l : list X) (i : nat) (x y : X) :
  l !! i = Some x ->
  l ≡ₚ x :: delete i l /\ <[i := y]> l ≡ₚ y :: delete i l.
Proof.
  intros Hl. split; [by apply delete_Permutation|].
  rewrite (delete_Permutation (<[i := y]> l) i y)
    by (apply list_lookup_insert_eq; by eapply lookup_lt_Some).
  rewrite !delete_take_drop, take_insert_ge, drop_insert_lt by lia. done.
Qed.

Lemma addWord_spec t w :
  table_inv t ->
  match addWord t w with
  | Ok (n, t') => totalWordCount t < INT_MAX /\ add_post t w n t'
  | Fault f => f = SignedOverflow /\ totalWordCount t = INT_MAX
  end.
Proof.
  intros Hinv. destruct (getWordNode_ok t w Hinv) as (ch & Hch & Hget).
  pose proof (inv_capacity_int t Hinv) as Hc.
  pose proof (bucket_of_range w (capacity t) (proj1 Hc)) as Hb.
  pose proof (stored_in_bucket t w ch Hinv Hch) as Hst.
  pose proof (unique_le_total t Hinv) as Hut.
  pose proof (unique_nonneg t Hinv) as Hu0.
  pose proof (inv_range t Hinv) as Hr.
  destruct capacity_constants as (_ & HM & HI & HI' & _).
  set (b := Z.to_nat (bucket_of w (capacity t))) in *.
  assert (Hbz : bucket_of w (capacity t) = Z.of_nat b) by (unfold b; lia).
  assert (Hblt : (b < length (wordTable t))%nat) by (by eapply lookup_lt_Some).
  unfold addWord. rewrite Hget. simpl.
  pose proof (find_node_count w ch 0) as Hf.
  destruct (find_node w ch 0) as [pos|]; simpl.
  - (* the word is stored *)
    destruct Hf as (n & Hn & Hw & Hcount & _). rewrite Nat.sub_0_r in Hn.
    rewrite Hcount in Hst.
    assert (Hnode : node_at t (bucket_of w (capacity t), pos) = Ok n).
    { unfold node_at. simpl. rewrite Hbz, (array_get_ok _ _ _ Hch). simpl.
      by rewrite Hn. }
    rewrite Hnode. simpl.
    assert (Hn_in : n ∈ entries t).
    { apply elem_of_concat_lookup. exists b, ch. split; [done|].
      by eapply list_elem_of_lookup_2. }
    pose proof (sum_counts_elem (entries t) n (inv_positive t Hinv) Hn_in) as Hle.
    rewrite <- (inv_total t Hinv) in Hle.
    pose proof (inv_positive t Hinv n Hn_in) as Hpos.
    destruct (decide (wordCount n + 1 <= INT_MAX)) as [Hfit|Hover];
      [|rewrite (int_of_fault (wordCount n + 1)) by lia; simpl; split; [done|lia]].
    rewrite (int_of_ok (wordCount n + 1)) by lia. simpl.
    set (n' := mkNode (word n) (wordCount n + 1)).
    set (t1 := set_wordTable t (<[b := <[pos := n']> ch]> (wordTable t))).
    assert (Hset : set_node_at t (bucket_of w (capacity t), pos) n' = Ok t1).
    { unfold set_node_at. simpl. rewrite Hbz, (array_get_ok _ _ _ Hch). simpl.
      apply lookup_lt_Some in Hn as Hlt. apply Nat.ltb_lt in Hlt. rewrite Hlt.
      rewrite array_set_ok by done. done. }
    rewrite Hset. simpl.
    assert (Hnode' : node_at t1 (bucket_of w (capacity t), pos) = Ok n').
    { unfold node_at. simpl.
      rewrite Hbz, (array_get_ok _ b (<[pos := n']> ch))
        by (by apply list_lookup_insert_eq).
      simpl. rewrite list_lookup_insert_eq by (by eapply lookup_lt_Some). done. }
    rewrite Hnode'. simpl.
    destruct (decide (totalWordCount t + 1 <= INT_MAX)) as [Hfit'|Hover];
      [|rewrite (int_of_fault (totalWordCount t + 1)) by lia; simpl; split; [done|lia]].
    rewrite (int_of_ok (totalWordCount t + 1)) by lia. simpl.
    destruct (concat_replace_chain (wordTable t) b ch (<[pos := n']> ch) Hch)
      as (others & Hold & Hnew & _).
    destruct (insert_replace_perm ch pos n n' Hn) as [Hch_old Hch_new].
    set (r := delete pos ch ++ others).
    assert (Hent0 : entries t ≡ₚ n :: r).
    { unfold entries, r. rewrite Hold.
      apply (Permutation_app_tail others Hch_old). }
    assert (Hent : entries (set_totalWordCount t1 (totalWordCount t + 1)) ≡ₚ n' :: r).
    { unfold entries, r. simpl. rewrite Hnew.
      apply (Permutation_app_tail others Hch_new). }
    destruct (entries_without (entries t) n r (inv_nodup t Hinv) Hent0)
      as (Hndr & Houtr & Hcr & Hlr & Hsr & _).
    assert (Hnd : NoDup (word <$> (n' :: r))).
    { rewrite fmap_cons. apply NoDup_cons. done. }
    assert (Hne : (stored t w =? 0) = false) by (apply Z.eqb_neq; lia).
    split; [lia|]. split.
    + apply (table_inv_intro _ (n' :: r)); simpl; try done; try apply Hinv.
      * rewrite length_insert. apply Hinv.
      * apply buckets_ok_insert; [apply Hinv|].
        intros m Hm. apply list_elem_of_lookup_1 in Hm as [j Hm].
        apply list_lookup_insert_Some in Hm as [(_ & <- & _) | (_ & Hm)].
        -- simpl. rewrite Hw. done.
        -- apply (inv_bucket t Hinv b ch); [done|]. by eapply list_elem_of_lookup_2.
      * intros m Hm. apply elem_of_cons in Hm as [-> | Hm]; [simpl; lia|].
        apply (inv_positive t Hinv). rewrite Hent0. by right.
      * rewrite (inv_unique t Hinv). lia.
      * rewrite (inv_total t Hinv). lia.
    + lia.
    + rewrite Hent. unfold n'. rewrite Hw. left.
    + intros k. rewrite (stored_perm _ _ k Hent Hnd), chain_count_cons_new.
      simpl. rewrite Hcr. rewrite Hw.
      destruct (String.eqb_spec k w) as [->|]; [lia|done].
    + done.
    + simpl. rewrite Hne. lia.
    + simpl. unfold capacity_after_add. rewrite Hne. done.
  - (* a new word *)
    destruct Hf as [Hout Hzero]. rewrite Hzero in Hst.
    rewrite getBucket_ok by done. simpl.
    rewrite Hbz, (array_get_ok _ _ _ Hch). simpl.
    rewrite array_set_ok by done. simpl.
    destruct (decide (uniqueWordCount t + 1 <= INT_MAX)) as [Hfit|Hover];
      [|rewrite (int_of_fault (uniqueWordCount t + 1)) by lia; simpl; split; [done|lia]].
    rewrite (int_of_ok (uniqueWordCount t + 1)) by lia. simpl.
    set (new := mkNode w NEW_WORD_COUNT).
    match goal with |- context [node_at ?x _] => set (t1 := x) end.
    assert (Hnode : node_at t1 (Z.of_nat b, 0%nat) = Ok new).
    { unfold node_at. simpl.
      rewrite (array_get_ok _ b (new :: ch)) by (by apply list_lookup_insert_eq).
      done. }
    rewrite Hnode. simpl.
    destruct (concat_replace_chain (wordTable t) b ch (new :: ch) Hch)
      as (others & Hold & Hnew & _).
    assert (Hent1 : entries t1 ≡ₚ new :: entries t).
    { unfold entries. simpl. rewrite Hnew, Hold. done. }
    destruct (grow_step_ok t1)
      as (t2 & Hrun & Hcap2 & Hpr2 & Hlen2 & Hok2 & Hperm2 & Htot2 & Huniq2).
    { apply Hinv. }
    { simpl. rewrite length_insert. apply Hinv. }
    { simpl. apply buckets_ok_insert; [apply Hinv|].
      intros m Hm. apply elem_of_cons in Hm as [-> | Hm]; [done|].
      by apply (inv_bucket t Hinv b ch). }
    change (capacity t1) with (capacity t) in Hrun.
    rewrite Hrun. simpl. rewrite Htot2. simpl.
    destruct (decide (totalWordCount t + 1 <= INT_MAX)) as [Hfit'|Hover];
      [|rewrite (int_of_fault (totalWordCount t + 1)) by lia; simpl; split; [done|lia]].
    rewrite (int_of_ok (totalWordCount t + 1)) by lia. simpl.
    assert (Hnd : NoDup (word <$> (new :: entries t))).
    { rewrite fmap_cons. apply NoDup_cons. split; [|apply Hinv].
      apply stored_zero_absent; done. }
    assert (Hent : entries (set_totalWordCount t2 (totalWordCount t + 1))
                   ≡ₚ new :: entries t) by (by rewrite <- Hent1, <- Hperm2).
    split; [lia|]. split.
    + apply (table_inv_intro _ (new :: entries t)); simpl; try done.
      * intros m Hm. apply elem_of_cons in Hm as [-> | Hm]; [done|].
        by apply (inv_positive t Hinv).
      * rewrite Huniq2. simpl. rewrite (inv_unique t Hinv). lia.
      * rewrite (inv_total t Hinv). unfold NEW_WORD_COUNT. lia.
    + rewrite Hst. done.
    + rewrite Hent. left.
    + intros k. rewrite (stored_perm _ _ k Hent Hnd), chain_count_cons_new.
      simpl. destruct (String.eqb_spec k w) as [->|]; [by rewrite Hst|done].
    + done.
    + simpl. rewrite Huniq2, Hst. done.
    + simpl. rewrite Hcap2. unfold capacity_after_add. rewrite Hst. done.
Qed.

End AddFacts.

Section RemoveFacts.
Context {hasher : StdHash}.

(** The resize step at the end of [removeWord]. *)
Lemma shrink_step_ok t :
  capacity t ∈ primes -> length (wordTable t) = Z.to_nat (capacity t) ->
  buckets_ok (capacity t) (wordTable t) ->
  exists t',
    (if Qltb (getLoadFactor t) MIN_LOAD_FACTOR && (MIN_CAPACITY <? capacity t)
     then resize t (capacity t ÷ 2)
     else mret t) = Ok t' /\
    capacity t' =
      (if (10 * uniqueWordCount t <? 3 * capacity t) && (MIN_CAPACITY <? capacity t)
       then getValidCapacity (capacity t ÷ 2) else capacity t) /\
    capacity t' ∈ primes /\
    length (wordTable t') = Z.to_nat (capacity t') /\
    buckets_ok (capacity t') (wordTable t') /\
    entries t' ≡ₚ entries t /\
    totalWordCount t' = totalWordCount t /\
    uniqueWordCount t' = uniqueWordCount t.
Proof.
  intros Hcap Hlen Hok. pose proof (prime_int _ Hcap) as Hc.
  rewrite load_below_min by lia.
  destruct ((10 * uniqueWordCount t <? 3 * capacity t) && (MIN_CAPACITY <? capacity t))
    eqn:Hshrink.
  - destruct (resize_ok t (capacity t ÷ 2))
      as (t' & Hrun & Hc' & Hl' & Hok' & Hp & Ht & Hu); [lia|done|].
    exists t'. repeat split; try done.
    rewrite Hc'. apply getValidCapacity_prime.
  - exists t. done.
Qed.

(** What is left to show once the node of [w] is unlinked and the counts
    are updated ([t1]), and the resize step has run ([t']). *)
Lemma remove_finish t w n r t1 t' :
  table_inv t -> entries t ≡ₚ n :: r -> word n = w ->
  capacity t1 = capacity t ->
  totalWordCount t1 = totalWordCount t - wordCount n ->
  uniqueWordCount t1 = uniqueWordCount t - 1 ->
  entries t1 ≡ₚ r ->
  capacity t' =
    (if (10 * uniqueWordCount t1 <? 3 * capacity t1) && (MIN_CAPACITY <? capacity t1)
     then getValidCapacity (capacity t1 ÷ 2) else capacity t1) ->
  capacity t' ∈ primes ->
  length (wordTable t') = Z.to_nat (capacity t') ->
  buckets_ok (capacity t') (wordTable t') ->
  entries t' ≡ₚ entries t1 ->
  totalWordCount t' = totalWordCount t1 ->
  uniqueWordCount t' = uniqueWordCount t1 ->
  remove_post t w t'.
Proof.
  intros Hinv Hent Hw Hc1 Ht1 Hu1 He1 Hc' Hpr' Hlen' Hok' He' Ht' Hu'.
  destruct (entries_without (entries t) n r (inv_nodup t Hinv) Hent)
    as (Hndr & Houtr & Hcr & Hlr & Hsr & Hcn).
  assert (Hn_in : n ∈ entries t) by (rewrite Hent; left).
  pose proof (inv_positive t Hinv n Hn_in) as Hpos.
  assert (Hst : stored t w = wordCount n) by (by rewrite <- Hw).
  assert (Hne : (stored t w =? 0) = false) by (apply Z.eqb_neq; lia).
  assert (Hentr : entries t' ≡ₚ r) by (by rewrite He', He1).
  assert (Hposr : forall m, m ∈ r -> 1 <= wordCount m).
  { intros m Hm. apply (inv_positive t Hinv). rewrite Hent. by right. }
  pose proof (inv_range t Hinv) as Hr.
  split.
  - apply (table_inv_intro _ r); try done.
    + rewrite Hu', Hu1, (inv_unique t Hinv). lia.
    + rewrite Ht', Ht1, (inv_total t Hinv). lia.
    + rewrite Ht', Ht1. lia.
  - intros k. rewrite (stored_perm _ _ k Hentr Hndr), Hcr, Hw. done.
  - rewrite Ht', Ht1. lia.
  - rewrite Hu', Hu1, Hne. done.
  - rewrite Hc'. unfold capacity_after_remove. rewrite Hne, Hu1, Hc1. done.
  - lia.
Qed.

Lemma removeWord_spec t w :
  table_inv t -> exists t', removeWord t w = Ok t' /\ remove_post t w t'.
Proof.
  intros Hinv. destruct (getWordNode_ok t w Hinv) as (ch & Hch & Hget).
  pose proof (inv_capacity_int t Hinv) as Hc.
  pose proof (bucket_of_range w (capacity t) (proj1 Hc)) as Hb.
  pose proof (stored_in_bucket t w ch Hinv Hch) as Hst.
  pose proof (unique_le_total t Hinv) as Hut.
  pose proof (inv_range t Hinv) as Hr.
  destruct capacity_constants as (_ & HM & HI & HI' & _).
  set (b := Z.to_nat (bucket_of w (capacity t))) in *.
  assert (Hbz : bucket_of w (capacity t) = Z.of_nat b) by (unfold b; lia).
  assert (Hblt : (b < length (wordTable t))%nat) by (by eapply lookup_lt_Some).
  unfold removeWord. rewrite Hget. simpl.
  pose proof (find_node_count w ch 0) as Hf.
  destruct (find_node w ch 0) as [pos|]; simpl.
  - destruct Hf as (n & Hn & Hw & Hcount & _). rewrite Nat.sub_0_r in Hn.
    rewrite getBucket_ok by done. simpl.
    rewrite Hbz, (array_get_ok _ _ _ Hch). simpl.
    (* the node unlinked from the chain, and the chain without it *)
    assert (Hstage : exists n0 ch',
      word n0 = w /\ ch ≡ₚ n0 :: ch' /\ (forall m, m ∈ ch' -> m ∈ ch) /\
      match ch with
      | [] => Fault NullDereference
      | first :: rest =>
          (if String.eqb (word first) w then
             t0 ← updateWordCountsPostRemoval t (wordCount first);
             tbl ← array_set (wordTable t0) (Z.of_nat b) rest;
             mret (set_wordTable t0 tbl)
           else
             match unlink w rest with
             | Some (toSubtract, rest') =>
                 t0 ← updateWordCountsPostRemoval t toSubtract;
                 tbl ← array_set (wordTable t0) (Z.of_nat b) (first :: rest');
                 mret (set_wordTable t0 tbl)
             | None => mret t
             end)
      end = Ok (mkWordCounter (capacity t) (totalWordCount t - wordCount n0)
                  (uniqueWordCount t - 1) (<[b := ch']> (wordTable t)))).
    { assert (Hfacts : forall m, m ∈ ch ->
        int_of (totalWordCount t - wordCount m) = Ok (totalWordCount t - wordCount m) /\
        int_of (uniqueWordCount t - 1) = Ok (uniqueWordCount t - 1)).
      { intros m Hm.
        assert (Hm_in : m ∈ entries t).
        { apply elem_of_concat_lookup. exists b, ch. done. }
        pose proof (sum_counts_elem (entries t) m (inv_positive t Hinv) Hm_in) as Hle.
        rewrite <- (inv_total t Hinv) in Hle.
        pose proof (inv_positive t Hinv m Hm_in) as Hpos.
        assert (1 <= uniqueWordCount t).
        { rewrite (inv_unique t Hinv). destruct (entries t); [|simpl; lia].
          by apply elem_of_nil in Hm_in. }
        split; apply int_of_ok; lia. }
      destruct ch as [|first rest]; [by rewrite lookup_nil in Hn|].
      destruct (String.eqb_spec (word first) w) as [Heq|Hne].
      - exists first, rest. split; [done|]. split; [done|].
        split; [intros m Hm; by right|].
        destruct (Hfacts first) as [Hi1 Hi2]; [left|].
        unfold updateWordCountsPostRemoval. rewrite Hi1. simpl. rewrite Hi2. simpl.
        rewrite array_set_ok by done. done.
      - assert (Hin : w ∈ word <$> rest).
        { destruct pos as [|pos]; simpl in Hn; [congruence|].
          rewrite <- Hw. apply list_elem_of_fmap_2. by eapply list_elem_of_lookup_2. }
        destruct (unlink_found w rest Hin) as (n0 & rest' & Hun & Hw0 & Hin0 & Hperm0).
        exists n0, (first :: rest'). split; [done|].
        split; [rewrite Hperm0; apply Permutation_swap|].
        split.
        { intros m Hm. apply elem_of_cons in Hm as [-> | Hm]; [left|right].
          rewrite Hperm0. by right. }
        rewrite Hun.
        destruct (Hfacts n0) as [Hi1 Hi2]; [by right|].
        unfold updateWordCountsPostRemoval. rewrite Hi1. simpl. rewrite Hi2. simpl.
        rewrite array_set_ok by done. done. }
    destruct Hstage as (n0 & ch' & Hw0 & Hperm & Hsub & Hrun1).
    destruct ch as [|first rest]; [done|].
    rewrite Hrun1. cbn [mbind res_bind].
    match goal with |- context [resize ?x _] => set (t1 := x) end.
    destruct (shrink_step_ok t1)
      as (t' & Hrun & Hcap' & Hpr' & Hlen' & Hok' & Hperm' & Htot' & Huniq').
    { apply Hinv. }
    { simpl. rewrite length_insert. apply Hinv. }
    { simpl. apply buckets_ok_insert; [apply Hinv|].
      intros m Hm. apply (inv_bucket t Hinv b (first :: rest)); [done|]. by apply Hsub. }
    exists t'. split; [exact Hrun|].
    destruct (concat_replace_chain (wordTable t) b (first :: rest) ch' Hch)
      as (others' & Hold' & Hnew' & _).
    apply (remove_finish t w n0 (ch' ++ others') t1 t'); try done.
    + unfold entries. rewrite Hold'. apply (Permutation_app_tail others' Hperm).
  - destruct Hf as [Hout Hzero]. rewrite Hzero in Hst.
    exists t. split; [done|]. split; try done.
    + intros k. destruct (String.eqb_spec k w) as [->|]; done.
    + lia.
    + rewrite Hst. simpl. lia.
    + unfold capacity_after_remove. rewrite Hst. done.
Qed.

End RemoveFacts.

Section RunFacts.
Context {hasher : StdHash}.

Lemma initialize_inv c : c ∈ primes -> table_inv (initialize c).
Proof.
  intros Hc. pose proof (prime_int c Hc) as Hint.
  assert (Hent : entries (initialize c) = []) by apply concat_replicate_nil.
  split; simpl; rewrite ?Hent; try done.
  - by rewrite length_replicate.
  - apply buckets_ok_replicate.
  - constructor.
  - intros n Hn. by apply elem_of_nil in Hn.
Qed.

Lemma fresh_inv t : fresh t -> table_inv t.
Proof.
  intros [|requested]; apply initialize_inv;
    [apply MIN_CAPACITY_prime | apply getValidCapacity_prime].
Qed.

Lemma fresh_stored t k : fresh t -> stored t k = 0.
Proof.
  intros Hf. unfold stored.
  replace (entries t) with (@nil Node); [done|].
  destruct Hf; symmetry; apply concat_replicate_nil.
Qed.

Lemma fresh_counts t : fresh t -> totalWordCount t = 0 /\ uniqueWordCount t = 0.
Proof. by intros []. Qed.

Lemma addWord_ok t w :
  table_inv t -> totalWordCount t < INT_MAX ->
  exists n t', addWord t w = Ok (n, t') /\ add_post t w n t'.
Proof.
  intros Hinv Hlt. pose proof (addWord_spec t w Hinv) as Hs.
  destruct (addWord t w) as [[n t']|f].
  - exists n, t'. split; [done|apply Hs].
  - destruct Hs as [_ Heq]. lia.
Qed.

Lemma addWord_post t w n t' :
  table_inv t -> addWord t w = Ok (n, t') ->
  totalWordCount t < INT_MAX /\ add_post t w n t'.
Proof.
  intros Hinv Hrun. pose proof (addWord_spec t w Hinv) as Hs.
  by rewrite Hrun in Hs.
Qed.

Lemma removeWord_post t w t' :
  table_inv t -> removeWord t w = Ok t' -> remove_post t w t'.
Proof.
  intros Hinv Hrun. destruct (removeWord_spec t w Hinv) as (t'' & Hrun' & Hpost).
  rewrite Hrun in Hrun'. by inversion Hrun'.
Qed.

Lemma reachable_inv t : reachable t -> table_inv t.
Proof.
  induction 1 as [t Hf | t w n t' _ IH Hrun | t w t' _ IH Hrun].
  - by apply fresh_inv.
  - apply (addWord_post t w n t' IH Hrun).
  - apply (removeWord_post t w t' IH Hrun).
Qed.

Lemma step_inv t c t' :
  table_inv t -> step t c = Ok t' ->
  table_inv t' /\
  (forall k, stored t' k = added_since_removal k (stored t k) [c]) /\
  totalWordCount t' <= totalWordCount t + 1.
Proof.
  intros Hinv Hstep. destruct c as [w|w]; simpl in Hstep.
  - destruct (addWord t w) as [[n t'']|f] eqn:Hrun; simpl in Hstep; [|done].
    inversion Hstep; subst t''.
    destruct (addWord_post t w n t' Hinv Hrun) as [_ Hpost].
    split; [apply Hpost|]. split.
    + intros k. simpl. rewrite (add_stored _ _ _ _ Hpost), (String.eqb_sym w k). done.
    + rewrite (add_total _ _ _ _ Hpost). lia.
  - pose proof (removeWord_post t w t' Hinv Hstep) as Hpost.
    split; [apply Hpost|]. split.
    + intros k. simpl. rewrite (remove_stored _ _ _ Hpost), (String.eqb_sym w k). done.
    + rewrite (remove_total _ _ _ Hpost). pose proof (stored_nonneg t w Hinv). lia.
Qed.

Lemma step_ok t c :
  table_inv t -> totalWordCount t < INT_MAX -> exists t', step t c = Ok t'.
Proof.
  intros Hinv Hlt. destruct c as [w|w]; simpl.
  - destruct (addWord_ok t w Hinv Hlt) as (n & t' & -> & _). by exists t'.
  - destruct (removeWord_spec t w Hinv) as (t' & -> & _). by exists t'.
Qed.

Lemma added_since_removal_app k before calls1 calls2 :
  added_since_removal k before (calls1 ++ calls2) =
  added_since_removal k (added_since_removal k before calls1) calls2.
Proof.
  revert before. induction calls1 as [|[w|w] calls1 IH]; intros before; simpl; done.
Qed.

Lemma run_inv t calls t' :
  table_inv t -> run t calls = Ok t' ->
  table_inv t' /\
  (forall k, stored t' k = added_since_removal k (stored t k) calls) /\
  totalWordCount t' <= totalWordCount t + Z.of_nat (length calls).
Proof.
  revert t. induction calls as [|c calls IH]; intros t Hinv Hrun.
  - inversion Hrun; subst. split; [done|]. split; [done|]. simpl. lia.
  - cbn [run] in Hrun. destruct (step t c) as [t1|f] eqn:Hstep; [|done].
    simpl in Hrun. destruct (step_inv t c t1 Hinv Hstep) as (Hinv1 & Hst1 & Htot1).
    destruct (IH t1 Hinv1 Hrun) as (Hinv' & Hst' & Htot').
    split; [done|]. split.
    + intros k. rewrite Hst', Hst1.
      by rewrite <- (added_since_removal_app k (stored t k) [c] calls).
    + simpl length. lia.
Qed.

Lemma run_ok t calls :
  table_inv t -> totalWordCount t + Z.of_nat (length calls) <= INT_MAX ->
  exists t', run t calls = Ok t'.
Proof.
  revert t. induction calls as [|c calls IH]; intros t Hinv Hlen.
  - by exists t.
  - simpl length in Hlen.
    destruct (step_ok t c Hinv) as [t1 Hstep]; [lia|].
    destruct (step_inv t c t1 Hinv Hstep) as (Hinv1 & _ & Htot1).
    destruct (IH t1 Hinv1) as [t' Hrun]; [lia|].
    exists t'. cbn [run]. rewrite Hstep. done.
Qed.

Lemma run_reachable t calls t' :
  reachable t -> run t calls = Ok t' -> reachable t'.
Proof.
  revert t. induction calls as [|c calls IH]; intros t Hreach Hrun.
  - by inversion Hrun; subst.
  - cbn [run] in Hrun. destruct (step t c) as [t1|f] eqn:Hstep; [|done].
    apply (IH t1); [|done]. destruct c as [w|w]; simpl in Hstep.
    + destruct (addWord t w) as [[n t'']|f] eqn:Hadd; simpl in Hstep; [|done].
      inversion Hstep; subst. by eapply reach_add.
    + by eapply reach_remove.
Qed.

End RunFacts.

Section ThresholdFacts.

Lemma grow_checked :
  forallb (fun c => (MAX_CAPACITY <=? c) || grow_check c) primes = true.
Proof. vm_compute. reflexivity. Qed.

Lemma shrink_checked :
  forallb (fun c => (c <=? MIN_CAPACITY) || shrink_check c) primes = true.
Proof. vm_compute. reflexivity. Qed.

Lemma grow_keeps_load c :
  c ∈ primes -> c < MAX_CAPACITY ->
  3 * getValidCapacity (c * 2) <= 10 * (3 * c / 4 + 1) /\
  4 * (3 * c / 4 + 1) <= 3 * getValidCapacity (c * 2).
Proof.
  intros Hc Hlt. pose proof grow_checked as Hall.
  rewrite forallb_forall in Hall. specialize (Hall c).
  rewrite <- list_elem_of_In in Hall. specialize (Hall Hc).
  apply orb_true_iff in Hall as [Hmax | Hcheck]; [apply Z.leb_le in Hmax; lia|].
  unfold grow_check in Hcheck. apply andb_true_iff in Hcheck as [H1 H2].
  apply Z.leb_le in H1, H2. done.
Qed.

Lemma shrink_keeps_load c :
  c ∈ primes -> MIN_CAPACITY < c ->
  (3 * getValidCapacity (c ÷ 2) <= 10 * ((3 * c - 1) / 10) \/
   getValidCapacity (c ÷ 2) = MIN_CAPACITY) /\
  4 * ((3 * c - 1) / 10) <= 3 * getValidCapacity (c ÷ 2) /\
  getValidCapacity (c ÷ 2) < c.
Proof.
  intros Hc Hlt. pose proof shrink_checked as Hall.
  rewrite forallb_forall in Hall. specialize (Hall c).
  rewrite <- list_elem_of_In in Hall. specialize (Hall Hc).
  apply orb_true_iff in Hall as [Hmin | Hcheck]; [apply Z.leb_le in Hmin; lia|].
  unfold shrink_check in Hcheck.
  apply andb_true_iff in Hcheck as [Hcheck H3].
  apply andb_true_iff in Hcheck as [H1 H2].
  apply Z.leb_le in H2. apply Z.ltb_lt in H3.
  apply orb_true_iff in H1 as [H1 | H1];
    [apply Z.leb_le in H1 | apply Z.eqb_eq in H1]; auto.
Qed.

End ThresholdFacts.

Section EntryFacts.
Context {hasher : StdHash}.

Lemma chain_count_node k l :
  chain_count k l <> 0 -> mkNode k (chain_count k l) ∈ l.
Proof.
  induction l as [|n l IH]; cbn [chain_count]; [done|].
  destruct (String.eqb_spec (word n) k) as [<-|Hne].
  - intros _. rewrite node_eta. left.
  - intros Hnz. right. by apply IH.
Qed.

(** The nodes of a table are exactly the pairs of a word and its nonzero
    stored count. *)
Lemma entries_stored t n :
  table_inv t ->
  n ∈ entries t <-> stored t (word n) = wordCount n /\ wordCount n <> 0.
Proof.
  intros Hinv. split.
  - intros Hn. pose proof (inv_positive t Hinv n Hn).
    split; [|lia]. apply chain_count_elem; [apply Hinv|done].
  - intros [Hst Hnz]. rewrite <- (node_eta n), <- Hst. apply chain_count_node.
    fold (stored t (word n)). congruence.
Qed.

Lemma run_app t calls1 calls2 :
  run t (calls1 ++ calls2) = t1 ← run t calls1; run t1 calls2.
Proof.
  revert t. induction calls1 as [|c calls1 IH]; intros t; [done|].
  cbn [app run]. destruct (step t c) as [t1|f]; [|done]. apply IH.
Qed.

(** Adding words that are not stored, as long as the load factor stays at
    most [MAX_LOAD_FACTOR]: no resize happens. *)
Lemma add_new_words ks t :
  table_inv t -> NoDup ks -> (forall k, k ∈ ks -> stored t k = 0) ->
  4 * (uniqueWordCount t + Z.of_nat (length ks)) <= 3 * capacity t ->
  totalWordCount t + Z.of_nat (length ks) <= INT_MAX ->
  exists t', run t (AddWord <$> ks) = Ok t' /\ table_inv t' /\
    capacity t' = capacity t /\
    uniqueWordCount t' = uniqueWordCount t + Z.of_nat (length ks) /\
    totalWordCount t' = totalWordCount t + Z.of_nat (length ks) /\
    forall k, stored t' k = if decide (k ∈ ks) then 1 else stored t k.
Proof.
  revert t. induction ks as [|k0 ks IH]; intros t Hinv Hnd Hnew Hload Htot.
  - exists t. simpl. split; [done|]. split; [done|]. split; [done|].
    split; [lia|]. split; [lia|done].
  - apply NoDup_cons in Hnd as [Hk0 Hnd]. simpl length in *.
    destruct (addWord_ok t k0 Hinv) as (n & t1 & Hrun1 & Hp1); [lia|].
    pose proof (add_inv _ _ _ _ Hp1) as Hinv1.
    pose proof (add_unique _ _ _ _ Hp1) as Hu1.
    pose proof (add_total _ _ _ _ Hp1) as Ht1.
    pose proof (add_capacity _ _ _ _ Hp1) as Hc1.
    assert (Hz : stored t k0 = 0) by (apply Hnew; left).
    rewrite Hz in Hu1. simpl in Hu1.
    unfold capacity_after_add in Hc1. rewrite Hz in Hc1. simpl in Hc1.
    destruct (3 * capacity t <? 4 * (uniqueWordCount t + 1)) eqn:Hover;
      [apply Z.ltb_lt in Hover; lia|]. simpl in Hc1.
    destruct (IH t1) as (t' & Hrun & Hinv' & Hc' & Hu' & Ht' & Hst'); try done; try lia.
    { intros k Hk. rewrite (add_stored _ _ _ _ Hp1).
      destruct (String.eqb_spec k k0) as [->|_]; [done|]. apply Hnew. by right. }
    exists t'. split.
    { rewrite fmap_cons. cbn [run step]. rewrite Hrun1. exact Hrun. }
    split; [done|]. split; [lia|]. split; [lia|]. split; [lia|].
    intros k. rewrite Hst', (add_stored _ _ _ _ Hp1).
    destruct (String.eqb_spec k k0) as [->|Hne].
    + rewrite (decide_False (P := k0 ∈ ks)) by done.
      rewrite decide_True by left. lia.
    + destruct (decide (k ∈ ks)) as [Hin|Hout].
      * rewrite decide_True by (by right). done.
      * rewrite decide_False; [done|].
        intros Hc. apply elem_of_cons in Hc as [?|?]; done.
Qed.

(** The growth step of [addWord], from the conditions the code tests. *)
Lemma addWord_growth (t : WordCounter) (w : string) :
  table_inv t -> stored t w = 0 ->
  3 * capacity t < 4 * (uniqueWordCount t + 1) ->
  capacity t < MAX_CAPACITY -> totalWordCount t < INT_MAX ->
  exists n t', addWord t w = Ok (n, t') /\ add_post t w n t' /\
    capacity t' = getValidCapacity (capacity t * 2) /\
    capacity t < capacity t'.
Proof.
  intros Hinv Hz Hover Hbelow Htot.
  pose proof (inv_capacity_int t Hinv) as Hc.
  destruct (addWord_ok t w Hinv Htot) as (n & t' & Hrun & Hpost).
  pose proof (add_capacity _ _ _ _ Hpost) as Hcap.
  unfold capacity_after_add in Hcap. rewrite Hz in Hcap.
  apply Z.ltb_lt in Hover, Hbelow. rewrite Hover, Hbelow in Hcap. simpl in Hcap.
  apply Z.ltb_lt in Hbelow.
  exists n, t'. split; [done|]. split; [done|]. split; [done|]. rewrite Hcap.
  destruct (decide (capacity t * 2 <= MAX_CAPACITY)) as [Hle|Hgt].
  - pose proof (getValidCapacity_ge _ Hle). lia.
  - rewrite getValidCapacity_above by lia. done.
Qed.

End EntryFacts.

(** * Facts about the store embedding *)

Section StoreFacts.

Lemma max_key_bound {X} (m : gmap positive X) k :
  is_Some (m !! k) ->
  (k <= map_fold (fun k _ acc => Pos.max k acc) 1 m)%positive.
Proof.
  revert k. apply (map_fold_weak_ind
    (fun acc (m : gmap positive X) =>
       forall k, is_Some (m !! k) -> (k <= acc)%positive)).
  - intros k [x Hx]. by rewrite lookup_empty in Hx.
  - intros i x m' r Hi IH k Hk.
    destruct (decide (i = k)) as [->|Hne]; [lia|].
    rewrite lookup_insert_ne in Hk by done. specialize (IH k Hk). lia.
Qed.

Lemma fresh_addr_fresh {X} (m : gmap positive X) : m !! Ptr.fresh_addr m = None.
Proof.
  destruct (m !! Ptr.fresh_addr m) as [x|] eqn:Hx; [|done].
  pose proof (max_key_bound m (Ptr.fresh_addr m) (mk_is_Some _ _ Hx)) as Hle.
  unfold Ptr.fresh_addr in Hle. lia.
Qed.

Lemma bind_ok {A B} (m : Ptr.M A) (f : A -> Ptr.M B) s a s' :
  m s = Ok (a, s') -> (m ≫= f) s = f a s'.
Proof. intros Hm. unfold mbind, Ptr.M_bind. by rewrite Hm. Qed.

Lemma bind_fault {A B} (m : Ptr.M A) (f : A -> Ptr.M B) s e :
  m s = Fault e -> (m ≫= f) s = Fault e.
Proof. intros Hm. unfold mbind, Ptr.M_bind. by rewrite Hm. Qed.

Lemma bind_assoc {A B C} (m : Ptr.M A) (f : A -> Ptr.M B) (g : B -> Ptr.M C) s :
  ((m ≫= f) ≫= g) s = (m ≫= (fun a => f a ≫= g)) s.
Proof. unfold mbind, Ptr.M_bind. by destruct (m s) as [[a s']|e]. Qed.

Lemma ret_bind {A B} (a : A) (f : A -> Ptr.M B) s : (mret a ≫= f) s = f a s.
Proof. done. Qed.

Lemma bind_run_eq {A B} (m m' : Ptr.M A) (g : A -> Ptr.M B) s s' :
  m s = m' s' -> (m ≫= g) s = (m' ≫= g) s'.
Proof. unfold mbind, Ptr.M_bind. by intros ->. Qed.

Lemma lift_ok {A} (r : res A) a s : r = Ok a -> Ptr.lift r s = Ok (a, s).
Proof. by intros ->. Qed.

Lemma set_arrays_id s : Ptr.set_arrays s (Ptr.arrays s) = s.
Proof. by destruct s. Qed.

Lemma set_nodes_id s : Ptr.set_nodes s (Ptr.nodes s) = s.
Proof. by destruct s. Qed.

Lemma load_object_ok s this o :
  Ptr.objects s !! this = Some o -> Ptr.load_object this s = Ok (o, s).
Proof. intros Ho. unfold Ptr.load_object. by rewrite Ho. Qed.

Lemma store_object_ok s this o0 o :
  Ptr.objects s !! this = Some o0 ->
  Ptr.store_object this o s =
  Ok (tt, Ptr.set_objects s (<[this := o]> (Ptr.objects s))).
Proof. intros Ho. unfold Ptr.store_object. by rewrite Ho. Qed.

Lemma load_node_ok s a n :
  Ptr.nodes s !! a = Some n -> Ptr.load_node (Some a) s = Ok (n, s).
Proof. intros Hn. unfold Ptr.load_node. by rewrite Hn. Qed.

Lemma store_node_ok s a n0 n :
  Ptr.nodes s !! a = Some n0 ->
  Ptr.store_node (Some a) n s = Ok (tt, Ptr.set_nodes s (<[a := n]> (Ptr.nodes s))).
Proof. intros Hn. unfold Ptr.store_node. by rewrite Hn. Qed.

Lemma delete_node_ok s a n0 :
  Ptr.nodes s !! a = Some n0 ->
  Ptr.delete_node (Some a) s = Ok (tt, Ptr.set_nodes s (delete a (Ptr.nodes s))).
Proof. intros Hn. unfold Ptr.delete_node. by rewrite Hn. Qed.

Lemma array_get_nat {X} (l : list X) i x :
  0 <= i -> l !! Z.to_nat i = Some x -> array_get l i = Ok x.
Proof.
  intros Hi Hx. rewrite <- (Z2Nat.id i) by done. by apply array_get_ok.
Qed.

Lemma array_set_nat {X} (l : list X) i x :
  0 <= i -> (Z.to_nat i < length l)%nat ->
  array_set l i x = Ok (<[Z.to_nat i := x]> l).
Proof.
  intros Hi Hx. rewrite <- (Z2Nat.id i) at 1 by done. by apply array_set_ok.
Qed.

Lemma array_load_ok s a cells i p :
  Ptr.arrays s !! a = Some cells -> 0 <= i -> cells !! Z.to_nat i = Some p ->
  Ptr.array_load (Some a) i s = Ok (p, s).
Proof.
  intros Ha Hi Hp. unfold Ptr.array_load. rewrite Ha.
  by rewrite (array_get_nat cells i p Hi Hp).
Qed.

Lemma array_store_ok s a cells i p :
  Ptr.arrays s !! a = Some cells -> 0 <= i -> (Z.to_nat i < length cells)%nat ->
  Ptr.array_store (Some a) i p s =
  Ok (tt, Ptr.set_arrays s (<[a := <[Z.to_nat i := p]> cells]> (Ptr.arrays s))).
Proof.
  intros Ha Hi Hlt. unfold Ptr.array_store. rewrite Ha.
  by rewrite (array_set_nat cells i p Hi Hlt).
Qed.

Lemma delete_array_ok s a cells :
  Ptr.arrays s !! a = Some cells ->
  Ptr.delete_array (Some a) s =
  Ok (tt, Ptr.set_arrays s (delete a (Ptr.arrays s))).
Proof. intros Ha. unfold Ptr.delete_array. by rewrite Ha. Qed.

(** A list of different addresses in use is no longer than the store. *)
Lemma owned_size {X} (m : gmap positive X) (l : list positive) :
  NoDup l -> (forall a, a ∈ l -> is_Some (m !! a)) -> (length l <= size m)%nat.
Proof.
  intros Hnd Hin.
  rewrite <- (size_list_to_set (C := gset positive) l Hnd), <- (size_dom m).
  apply subseteq_size. intros a Ha.
  apply elem_of_list_to_set in Ha. apply elem_of_dom. by apply Hin.
Qed.

End StoreFacts.

Section ChainFacts.

Lemma chain_at_length m p addrs l : chain_at m p addrs l -> length addrs = length l.
Proof.
  revert p l. induction addrs as [|a addrs IH]; intros p [|n l] Hc; simpl in Hc;
    try done.
  destruct Hc as (_ & nx & _ & Hc). simpl. f_equal. by eapply IH.
Qed.

Lemma chain_at_nil_inv m p l : chain_at m p [] l -> p = None /\ l = [].
Proof. destruct l; simpl; [done|tauto]. Qed.

Lemma chain_at_none_inv m addrs l : chain_at m None addrs l -> addrs = [] /\ l = [].
Proof.
  destruct addrs as [|a addrs], l as [|n l]; simpl; try done.
  by intros ([=] & _).
Qed.

Lemma chain_at_some_inv m a0 addrs l :
  chain_at m (Some a0) addrs l ->
  exists addrs' n l' nx,
    addrs = a0 :: addrs' /\ l = n :: l' /\
    m !! a0 = Some (Ptr.mkNode (word n) nx (wordCount n)) /\
    chain_at m nx addrs' l'.
Proof.
  destruct addrs as [|a addrs], l as [|n l]; simpl; try done.
  intros ([= ->] & nx & Ha & Hc). by exists addrs, n, l, nx.
Qed.

Lemma chain_at_in_use m p addrs l a :
  chain_at m p addrs l -> a ∈ addrs -> is_Some (m !! a).
Proof.
  revert p l. induction addrs as [|a0 addrs IH]; intros p [|n l] Hc Ha;
    simpl in Hc; try done; [by apply elem_of_nil in Ha|].
  destruct Hc as (_ & nx & Ha0 & Hc).
  apply elem_of_cons in Ha as [->|Ha]; [by eexists|by eapply IH].
Qed.

(** A chain only depends on the nodes at its own addresses. *)
Lemma chain_at_frame m m' p addrs l :
  chain_at m p addrs l ->
  (forall a x, a ∈ addrs -> m !! a = Some x -> m' !! a = Some x) ->
  chain_at m' p addrs l.
Proof.
  revert p l. induction addrs as [|a0 addrs IH]; intros p [|n l] Hc Hsame;
    simpl in Hc |- *; try done.
  destruct Hc as (-> & nx & Ha0 & Hc). split; [done|]. exists nx. split.
  - apply Hsame; [left|done].
  - apply IH; [done|]. intros a x Ha. apply Hsame. by right.
Qed.

Lemma chain_at_lookup m p addrs l (i : nat) a :
  chain_at m p addrs l -> addrs !! i = Some a ->
  exists n nx, l !! i = Some n /\
               m !! a = Some (Ptr.mkNode (word n) nx (wordCount n)).
Proof.
  revert p l i. induction addrs as [|a0 addrs IH]; intros p [|n l] i Hc Hi;
    simpl in Hc; try done.
  destruct Hc as (_ & nx & Ha0 & Hc). destruct i as [|i]; simpl in Hi.
  - inversion Hi; subst. by exists n, nx.
  - destruct (IH _ _ _ Hc Hi) as (n' & nx' & Hn' & Ha'). by exists n', nx'.
Qed.

(** Writing a new count into the node at position [pos]. *)
Lemma chain_at_set_count m p addrs l (pos : nat) a n nx c :
  NoDup addrs -> chain_at m p addrs l ->
  addrs !! pos = Some a -> l !! pos = Some n ->
  m !! a = Some (Ptr.mkNode (word n) nx (wordCount n)) ->
  chain_at (<[a := Ptr.mkNode (word n) nx c]> m) p addrs
           (<[pos := mkNode (word n) c]> l).
Proof.
  revert p l pos. induction addrs as [|a0 addrs IH]; intros p [|n0 l] pos Hnd Hc Ha Hn Hm;
    simpl in Hc; try done.
  apply NoDup_cons in Hnd as [Ha0 Hnd].
  destruct Hc as (-> & nx0 & Hm0 & Hc). destruct pos as [|pos]; simpl in Ha, Hn.
  - inversion Ha; inversion Hn; subst. simpl. split; [done|].
    rewrite Hm in Hm0. inversion Hm0; subst nx0. exists nx.
    split; [by rewrite lookup_insert_eq|].
    apply (chain_at_frame m); [done|].
    intros a' x Ha' Hx. rewrite lookup_insert_ne; [done|]. by intros ->.
  - simpl. split; [done|]. exists nx0. split.
    + rewrite lookup_insert_ne; [done|].
      intros ->. apply Ha0. by eapply list_elem_of_lookup_2.
    + by apply IH.
Qed.

End ChainFacts.

Section TableAtFacts.

Lemma elem_of_rest {X} (tbl : list (list X)) (i j : nat) (y : list X) (x : X) :
  i <> j -> tbl !! j = Some y -> x ∈ y ->
  x ∈ concat (take i tbl) ++ concat (drop (S i) tbl).
Proof.
  intros Hne Hj Hx. apply elem_of_app.
  destruct (decide (j < i)%nat) as [Hlt|Hge].
  - left. apply elem_of_concat_lookup. exists j, y.
    split; [by rewrite lookup_take_lt|done].
  - right. apply elem_of_concat_lookup. exists (j - S i)%nat, y.
    split; [|done]. rewrite lookup_drop. rewrite <- Hj. f_equal. lia.
Qed.

Lemma concat_nodup_chain {X} (sh : list (list X)) (i : nat) x :
  NoDup (concat sh) -> sh !! i = Some x -> NoDup x.
Proof.
  intros Hnd Hi. rewrite (concat_lookup_perm sh i x Hi) in Hnd.
  by apply NoDup_app in Hnd as (? & _).
Qed.

Lemma concat_nodup_apart {X} (sh : list (list X)) (i j : nat) x y a :
  NoDup (concat sh) -> i <> j -> sh !! i = Some x -> sh !! j = Some y ->
  a ∈ x -> a ∉ y.
Proof.
  intros Hnd Hne Hi Hj Ha Hay.
  rewrite (concat_lookup_perm sh i x Hi) in Hnd.
  apply NoDup_app in Hnd as (_ & Hdisj & _).
  apply (Hdisj a Ha). by eapply elem_of_rest.
Qed.

Lemma table_at_bucket s lay tbl (i : nat) ch :
  table_at s lay tbl -> tbl !! i = Some ch ->
  exists h addrs, lay_heads lay !! i = Some h /\ lay_shape lay !! i = Some addrs /\
                  chain_at (Ptr.nodes s) h addrs ch /\ NoDup addrs.
Proof.
  intros Hat Hch. pose proof (lookup_lt_Some _ _ _ Hch) as Hlt.
  destruct (lookup_lt_is_Some_2 (lay_heads lay) i) as [h Hh];
    [by rewrite (at_heads _ _ _ Hat)|].
  destruct (lookup_lt_is_Some_2 (lay_shape lay) i) as [addrs Ha];
    [by rewrite (at_shape _ _ _ Hat)|].
  exists h, addrs. split; [done|]. split; [done|].
  split; [by eapply (at_chains _ _ _ Hat)|].
  by eapply concat_nodup_chain; [apply (at_nodup _ _ _ Hat)|].
Qed.

Lemma table_at_in_use s lay tbl k :
  table_at s lay tbl -> k ∈ owned lay -> is_Some (Ptr.nodes s !! k).
Proof.
  intros Hat Hk. apply elem_of_concat_lookup in Hk as (i & addrs & Hi & Hk).
  pose proof (lookup_lt_Some _ _ _ Hi) as Hlt.
  destruct (lookup_lt_is_Some_2 tbl i) as [ch Hch];
    [by rewrite <- (at_shape _ _ _ Hat)|].
  destruct (table_at_bucket s lay tbl i ch Hat Hch) as (h & addrs' & Hh & Ha & Hc & _).
  rewrite Hi in Ha. inversion Ha; subst addrs'.
  by eapply chain_at_in_use.
Qed.

(** No chain is longer than the number of nodes in the store. *)
Lemma table_at_walk_bound s lay tbl (i : nat) addrs :
  table_at s lay tbl -> lay_shape lay !! i = Some addrs ->
  (length addrs < S (size (Ptr.nodes s)))%nat.
Proof.
  intros Hat Hi. apply Nat.lt_succ_r, owned_size.
  - by eapply concat_nodup_chain; [apply (at_nodup _ _ _ Hat)|].
  - intros a Ha. apply (table_at_in_use s lay tbl); [done|].
    apply elem_of_concat_lookup. by exists i, addrs.
Qed.

Lemma table_at_frame s s' lay tbl :
  table_at s lay tbl ->
  Ptr.arrays s' !! lay_array lay = Some (lay_heads lay) ->
  (forall k x, k ∈ owned lay -> Ptr.nodes s !! k = Some x -> Ptr.nodes s' !! k = Some x) ->
  table_at s' lay tbl.
Proof.
  intros Hat Harr Hnodes. split; try apply Hat; [done|].
  intros i h addrs ch Hh Ha Hch.
  apply (chain_at_frame (Ptr.nodes s)); [by eapply (at_chains _ _ _ Hat)|].
  intros a x Hin. apply Hnodes. apply elem_of_concat_lookup. by exists i, addrs.
Qed.

Lemma represents_frame s s' this t lay other lay' :
  represents s other t lay' -> frame s s' this lay -> separate this lay other lay' ->
  represents s' other t lay'.
Proof.
  intros [Hobj Htab] Hfr Hsep. split.
  - apply (frame_objects _ _ _ _ Hfr); [|done]. intros ->. by apply Hsep.
  - apply (table_at_frame s); [done| |].
    + apply (frame_arrays _ _ _ _ Hfr); [|apply Htab].
      intros Heq. by apply (sep_arrays _ _ _ _ Hsep).
    + intros k x Hk. apply (frame_nodes _ _ _ _ Hfr).
      intros Hk'. by apply (sep_nodes _ _ _ _ Hsep k).
Qed.

End TableAtFacts.

Section LookupSim.
Context {hasher : StdHash}.

Lemma find_node_shift w l k :
  find_node w l k = (fun i => (i + k)%nat) <$> find_node w l 0.
Proof.
  revert k. induction l as [|n l IH]; intros k; simpl; [done|].
  destruct (String.eqb (word n) w); [done|].
  rewrite (IH (S k)), (IH 1%nat). destruct (find_node w l 0); simpl; [|done].
  f_equal. lia.
Qed.

(** The loop of [getWordNode] finds the address of the node [find_node]
    finds the position of. *)
Lemma find_loop_ok s p addrs l w steps :
  chain_at (Ptr.nodes s) p addrs l -> (length addrs < steps)%nat ->
  Ptr.find_loop steps p w s =
  Ok (match find_node w l 0 with Some pos => addrs !! pos | None => None end, s).
Proof.
  revert p l steps. induction addrs as [|a addrs IH]; intros p l steps Hc Hlen.
  - apply chain_at_nil_inv in Hc as [-> ->].
    destruct steps; [simpl in Hlen; lia|]. done.
  - destruct l as [|n l]; simpl in Hc; [done|].
    destruct Hc as (-> & nx & Ha & Hc).
    destruct steps as [|steps]; [simpl in Hlen; lia|].
    cbn [Ptr.find_loop]. rewrite (bind_ok _ _ _ _ _ (load_node_ok _ _ _ Ha)).
    cbn [Ptr.word Ptr.next find_node].
    destruct (String.eqb (word n) w); [done|].
    rewrite (IH nx l steps Hc) by (simpl in Hlen; lia).
    rewrite (find_node_shift w l 1). destruct (find_node w l 0) as [pos|]; simpl; [|done].
    by rewrite Nat.add_1_r.
Qed.

Lemma getWordNode_sim s this t lay w r :
  represents s this t lay -> getWordNode t w = Ok r ->
  exists bucket ch h addrs,
    getBucket w (capacity t) = Ok bucket /\ 0 <= bucket /\
    wordTable t !! Z.to_nat bucket = Some ch /\
    lay_heads lay !! Z.to_nat bucket = Some h /\
    lay_shape lay !! Z.to_nat bucket = Some addrs /\
    chain_at (Ptr.nodes s) h addrs ch /\ NoDup addrs /\
    r = (fun pos => (bucket, pos)) <$> find_node w ch 0 /\
    Ptr.getWordNode this w s =
    Ok (match find_node w ch 0 with Some pos => addrs !! pos | None => None end, s).
Proof.
  intros [Hobj Htab] Hget. unfold getWordNode in Hget.
  destruct (getBucket w (capacity t)) as [bucket|f] eqn:Hb; [|done]. simpl in Hget.
  destruct (array_get (wordTable t) bucket) as [ch|f] eqn:Hch; [|done]. simpl in Hget.
  apply array_get_inv in Hch as [Hb0 Hch].
  destruct (table_at_bucket s lay _ _ ch Htab Hch) as (h & addrs & Hh & Ha & Hc & Hnd).
  exists bucket, ch, h, addrs. repeat (split; [done|]).
  split; [by inversion Hget|].
  unfold Ptr.getWordNode.
  rewrite (bind_ok _ _ _ _ _ (load_object_ok _ _ _ Hobj)). cbn [Ptr.capacity Ptr.wordTable].
  rewrite (bind_ok _ _ _ _ _ (lift_ok _ _ _ Hb)).
  rewrite (bind_ok _ _ _ _ _ (array_load_ok _ _ _ _ _ (at_array _ _ _ Htab) Hb0 Hh)).
  unfold Ptr.walk_bound at 1. unfold mbind at 1, Ptr.M_bind at 1.
  apply find_loop_ok; [done|]. by eapply table_at_walk_bound.
Qed.

(** [getWordCount] on the store returns what it returns on the table, and
    leaves the store as it is. *)
Lemma getWordCount_sim s this t lay w n :
  represents s this t lay -> getWordCount t w = Ok n ->
  Ptr.getWordCount this w s = Ok (n, s).
Proof.
  intros Hrep Hcount. unfold getWordCount in Hcount.
  destruct (getWordNode t w) as [r|f] eqn:Hget; [|done]. simpl in Hcount.
  destruct (getWordNode_sim s this t lay w r Hrep Hget)
    as (bucket & ch & h & addrs & Hb & Hb0 & Hch & Hh & Ha & Hc & Hnd & -> & Hrun).
  unfold Ptr.getWordCount. rewrite (bind_ok _ _ _ _ _ Hrun).
  destruct (find_node w ch 0) as [pos|] eqn:Hfind; simpl in Hcount.
  - unfold node_at in Hcount. simpl in Hcount.
    rewrite (array_get_nat _ _ _ Hb0 Hch) in Hcount. simpl in Hcount.
    destruct (ch !! pos) as [m|] eqn:Hm; [|done]. inversion Hcount; subst n.
    destruct (lookup_lt_is_Some_2 addrs pos) as [a Hpos].
    { rewrite (chain_at_length _ _ _ _ Hc). by eapply lookup_lt_Some. }
    rewrite Hpos.
    destruct (chain_at_lookup _ _ _ _ _ _ Hc Hpos) as (m' & nx & Hm' & Hnode).
    rewrite Hm in Hm'. inversion Hm'; subst m'.
    rewrite (bind_ok _ _ _ _ _ (load_node_ok _ _ _ Hnode)). done.
  - by inversion Hcount.
Qed.

End LookupSim.

Section ReplaceFacts.

(** Putting another chain into bucket [b]: its addresses must be different
    from each other and from those of the other buckets, whose nodes must
    not have changed. *)
Lemma table_at_replace s s' lay tbl (b : nat) p addrs ch :
  table_at s lay tbl -> (b < length tbl)%nat ->
  Ptr.arrays s' !! lay_array lay = Some (<[b := p]> (lay_heads lay)) ->
  chain_at (Ptr.nodes s') p addrs ch -> NoDup addrs ->
  (forall k, k ∈ addrs ->
     k ∉ concat (take b (lay_shape lay)) ++ concat (drop (S b) (lay_shape lay))) ->
  (forall k x,
     k ∈ concat (take b (lay_shape lay)) ++ concat (drop (S b) (lay_shape lay)) ->
     Ptr.nodes s !! k = Some x -> Ptr.nodes s' !! k = Some x) ->
  table_at s' (mkLayout (lay_array lay) (<[b := p]> (lay_heads lay))
                 (<[b := addrs]> (lay_shape lay)))
           (<[b := ch]> tbl).
Proof.
  intros Hat Hb Harr Hchain Hnd Hapart Hkeep.
  pose proof (at_heads _ _ _ Hat) as Hlh. pose proof (at_shape _ _ _ Hat) as Hls.
  split; cbn [lay_array lay_heads lay_shape].
  - done.
  - by rewrite !length_insert.
  - by rewrite !length_insert.
  - intros i h ad c Hh Ha Hc. destruct (decide (i = b)) as [->|Hne].
    + rewrite list_lookup_insert_eq in Hh by lia.
      rewrite list_lookup_insert_eq in Ha by lia.
      rewrite list_lookup_insert_eq in Hc by lia.
      inversion Hh; inversion Ha; inversion Hc; subst. done.
    + rewrite list_lookup_insert_ne in Hh by done.
      rewrite list_lookup_insert_ne in Ha by done.
      rewrite list_lookup_insert_ne in Hc by done.
      apply (chain_at_frame (Ptr.nodes s)); [by eapply (at_chains _ _ _ Hat)|].
      intros a x Hin. apply Hkeep. by eapply (elem_of_rest _ b i).
  - unfold owned. cbn [lay_shape].
    rewrite concat_insert_perm by lia. apply NoDup_app. split; [done|].
    split; [done|].
    destruct (lookup_lt_is_Some_2 (lay_shape lay) b) as [old Hold]; [lia|].
    pose proof (at_nodup _ _ _ Hat) as Hnd0. unfold owned in Hnd0.
    rewrite (concat_lookup_perm _ b old Hold) in Hnd0.
    by apply NoDup_app in Hnd0 as (_ & _ & ?).
Qed.

Lemma others_owned lay (b : nat) k :
  k ∈ concat (take b (lay_shape lay)) ++ concat (drop (S b) (lay_shape lay)) ->
  k ∈ owned lay.
Proof.
  intros Hk. apply rest_elsewhere in Hk as (j & ad & _ & Hj & Hk).
  apply elem_of_concat_lookup. by exists j, ad.
Qed.

Lemma owned_bucket lay (b : nat) addrs k :
  lay_shape lay !! b = Some addrs -> k ∈ addrs -> k ∈ owned lay.
Proof. intros Hb Hk. apply elem_of_concat_lookup. by exists b, addrs. Qed.

Lemma owned_replace lay (b : nat) addrs k :
  (b < length (lay_shape lay))%nat ->
  k ∈ owned (mkLayout (lay_array lay) (lay_heads lay) (<[b := addrs]> (lay_shape lay))) ->
  k ∈ addrs \/
  k ∈ concat (take b (lay_shape lay)) ++ concat (drop (S b) (lay_shape lay)).
Proof.
  intros Hb Hk. unfold owned in Hk. cbn [lay_shape] in Hk.
  rewrite concat_insert_perm in Hk by done. by apply elem_of_app in Hk.
Qed.

Lemma owned_replace_2 lay (b : nat) addrs k :
  (b < length (lay_shape lay))%nat ->
  k ∈ addrs \/
  k ∈ concat (take b (lay_shape lay)) ++ concat (drop (S b) (lay_shape lay)) ->
  k ∈ owned (mkLayout (lay_array lay) (lay_heads lay) (<[b := addrs]> (lay_shape lay))).
Proof.
  intros Hb Hk. unfold owned. cbn [lay_shape].
  rewrite concat_insert_perm by done. by apply elem_of_app.
Qed.

Lemma owned_split lay (b : nat) addrs k :
  lay_shape lay !! b = Some addrs -> k ∈ owned lay ->
  k ∈ addrs \/
  k ∈ concat (take b (lay_shape lay)) ++ concat (drop (S b) (lay_shape lay)).
Proof.
  intros Hb Hk. unfold owned in Hk.
  rewrite (concat_lookup_perm _ b addrs Hb) in Hk. by apply elem_of_app in Hk.
Qed.

(** A new node in front of the chain of bucket [b]. *)
Lemma table_at_push s lay tbl (b : nat) h addrs ch a w c :
  table_at s lay tbl ->
  lay_heads lay !! b = Some h -> lay_shape lay !! b = Some addrs ->
  tbl !! b = Some ch -> Ptr.nodes s !! a = None ->
  table_at
    (Ptr.set_arrays (Ptr.set_nodes s (<[a := Ptr.mkNode w h c]> (Ptr.nodes s)))
       (<[lay_array lay := <[b := Some a]> (lay_heads lay)]> (Ptr.arrays s)))
    (mkLayout (lay_array lay) (<[b := Some a]> (lay_heads lay))
       (<[b := a :: addrs]> (lay_shape lay)))
    (<[b := mkNode w c :: ch]> tbl).
Proof.
  intros Hat Hh Ha Hch Hfresh.
  assert (Hnew : forall k, k ∈ owned lay -> k <> a).
  { intros k Hk ->. destruct (table_at_in_use s lay tbl a Hat Hk) as [x Hx]. congruence. }
  assert (Hkeep : forall k x, k <> a -> Ptr.nodes s !! k = Some x ->
            <[a := Ptr.mkNode w h c]> (Ptr.nodes s) !! k = Some x).
  { intros k x Hk Hx. by rewrite lookup_insert_ne. }
  apply (table_at_replace s); cbn [Ptr.arrays Ptr.nodes Ptr.set_arrays Ptr.set_nodes].
  - done.
  - by eapply lookup_lt_Some.
  - by rewrite lookup_insert_eq.
  - simpl. split; [done|]. exists h. split; [by rewrite lookup_insert_eq|].
    apply (chain_at_frame (Ptr.nodes s)); [by eapply (at_chains _ _ _ Hat)|].
    intros k x Hk. apply Hkeep, Hnew. by eapply owned_bucket.
  - apply NoDup_cons. split.
    + intros Hin. by apply (Hnew a (owned_bucket lay b addrs a Ha Hin)).
    + by eapply concat_nodup_chain; [apply (at_nodup _ _ _ Hat)|].
  - intros k Hk Hother. apply elem_of_cons in Hk as [->|Hk].
    + by apply (Hnew a (others_owned lay b a Hother)).
    + apply rest_elsewhere in Hother as (j & ad & Hne & Hj & Hkj).
      by apply (concat_nodup_apart (lay_shape lay) b j addrs ad k (at_nodup _ _ _ Hat)).
  - intros k x Hk. apply Hkeep, Hnew. by eapply others_owned.
Qed.

End ReplaceFacts.

Section ResizeSim.
Context {hasher : StdHash}.

Lemma owned_push lay (b : nat) a addrs k :
  lay_shape lay !! b = Some addrs ->
  k ∈ owned (mkLayout (lay_array lay) (<[b := Some a]> (lay_heads lay))
               (<[b := a :: addrs]> (lay_shape lay))) ->
  k = a \/ k ∈ owned lay.
Proof.
  intros Hb Hk. unfold owned in Hk. cbn [lay_shape] in Hk.
  rewrite concat_insert_perm in Hk by (by eapply lookup_lt_Some).
  apply elem_of_app in Hk as [Hk|Hk].
  - apply elem_of_cons in Hk as [->|Hk]; [by left|right].
    by eapply owned_bucket.
  - right. by eapply others_owned.
Qed.

Lemma owned_push_2 lay (b : nat) a addrs heads k :
  lay_shape lay !! b = Some addrs -> k = a \/ k ∈ owned lay ->
  k ∈ owned (mkLayout (lay_array lay) heads (<[b := a :: addrs]> (lay_shape lay))).
Proof.
  intros Hb Hk.
  apply (owned_replace_2 (mkLayout (lay_array lay) heads (lay_shape lay)) b (a :: addrs) k);
    [by eapply lookup_lt_Some|].
  cbn [lay_shape]. destruct Hk as [->|Hk]; [left; apply elem_of_cons; by left|].
  apply (owned_split lay b addrs k Hb) in Hk as [Hk|Hk]; [|by right].
  left. apply elem_of_cons. by right.
Qed.

(** The inner loop of [resize] does on the store what [rehash_chain] does
    on the table under construction; it only reads the old chain. *)
Lemma rehash_loop_ok c' addrs : forall l p s lay tbl steps tbl',
  rehash_chain l c' tbl = Ok tbl' ->
  chain_at (Ptr.nodes s) p addrs l -> (length addrs < steps)%nat ->
  table_at s lay tbl -> (forall k, k ∈ addrs -> k ∉ owned lay) ->
  exists s' lay',
    Ptr.rehash_loop steps p c' (Some (lay_array lay)) s = Ok (tt, s') /\
    table_at s' lay' tbl' /\ lay_array lay' = lay_array lay /\
    Ptr.objects s' = Ptr.objects s /\
    (forall b, b <> lay_array lay -> Ptr.arrays s' !! b = Ptr.arrays s !! b) /\
    (forall k x, Ptr.nodes s !! k = Some x -> Ptr.nodes s' !! k = Some x) /\
    (forall k, k ∈ owned lay' -> k ∈ owned lay \/ Ptr.nodes s !! k = None) /\
    (forall k, k ∈ owned lay -> k ∈ owned lay') /\
    (forall k, is_Some (Ptr.nodes s' !! k) ->
               k ∈ owned lay' \/ is_Some (Ptr.nodes s !! k)).
Proof.
  induction addrs as [|a addrs IH]; intros l p s lay tbl steps tbl' Hrun Hc Hlen Hat Hapart.
  - apply chain_at_nil_inv in Hc as [-> ->]. simpl in Hrun. inversion Hrun; subst tbl'.
    destruct steps; [simpl in Hlen; lia|].
    exists s, lay. split; [done|]. split; [done|]. split; [done|]. split; [done|].
    split; [done|]. split; [done|]. split; [intros k Hk; by left|].
    split; [done|]. intros k Hk. by right.
  - destruct l as [|n l]; simpl in Hc; [done|].
    destruct Hc as (-> & nx & Ha & Hc).
    destruct steps as [|steps]; [simpl in Hlen; lia|].
    cbn [rehash_chain] in Hrun.
    destruct (getBucket (word n) c') as [nb|f] eqn:Hnb; [|done]. simpl in Hrun.
    destruct (array_get tbl nb) as [head|f] eqn:Hhead; [|done]. simpl in Hrun.
    destruct (array_set tbl nb (mkNode (word n) (wordCount n) :: head))
      as [tbl1|f] eqn:Hset; [|done]. simpl in Hrun.
    apply array_get_inv in Hhead as [Hnb0 Hhead].
    apply array_set_inv in Hset as (_ & Hnblt & ->).
    destruct (table_at_bucket s lay tbl _ head Hat Hhead) as (h & ad & Hh & Had & _ & _).
    set (anew := Ptr.fresh_addr (Ptr.nodes s)).
    pose proof (fresh_addr_fresh (Ptr.nodes s)) as Hfresh. fold anew in Hfresh.
    pose proof (table_at_push s lay tbl (Z.to_nat nb) h ad head anew
                  (word n) (wordCount n) Hat Hh Had Hhead Hfresh) as Hat1.
    match type of Hat1 with table_at ?x ?y _ => set (s1 := x) in *; set (lay1 := y) in * end.
    destruct (IH l nx s1 lay1 _ steps tbl' Hrun)
      as (s' & lay' & Hloop & Hat' & Harr' & Hobj' & Harrs' & Hnodes' & Hown'
          & Hmono' & Hacc').
    + apply (chain_at_frame (Ptr.nodes s)); [done|].
      intros k x Hk Hx. unfold s1. cbn [Ptr.nodes Ptr.set_arrays Ptr.set_nodes].
      rewrite lookup_insert_ne; [done|]. intros <-. congruence.
    + simpl in Hlen. lia.
    + done.
    + intros k Hk Hown. apply (owned_push lay _ _ _ _ Had) in Hown as [->|Hown].
      * destruct (chain_at_in_use _ _ _ _ _ Hc Hk) as [x Hx]. congruence.
      * apply (Hapart k); [by right|done].
    + exists s', lay'. split.
      { cbn [Ptr.rehash_loop].
        rewrite (bind_ok _ _ _ _ _ (load_node_ok _ _ _ Ha)). cbn [Ptr.word Ptr.wordCount Ptr.next].
        rewrite (bind_ok _ _ _ _ _ (lift_ok _ _ _ Hnb)).
        rewrite (bind_ok _ _ _ _ _ (array_load_ok _ _ _ _ _ (at_array _ _ _ Hat) Hnb0 Hh)).
        unfold Ptr.new_node at 1. unfold mbind at 1, Ptr.M_bind at 1. fold anew.
        assert (Hin : (Z.to_nat nb < length (lay_heads lay))%nat)
          by (by rewrite (at_heads _ _ _ Hat)).
        pose proof (array_store_ok
                      (Ptr.set_nodes s
                         (<[anew := Ptr.mkNode (word n) h (wordCount n)]> (Ptr.nodes s)))
                      (lay_array lay) (lay_heads lay) nb (Some anew)
                      (at_array _ _ _ Hat) Hnb0 Hin) as Hstore.
        rewrite (bind_ok _ _ _ _ _ Hstore). exact Hloop. }
      split; [done|]. split; [by rewrite Harr'|]. split; [by rewrite Hobj'|].
      split; [|split; [|split; [|split]]].
      * intros b Hb. rewrite (Harrs' b Hb). unfold s1.
        cbn [Ptr.arrays Ptr.set_arrays Ptr.set_nodes]. by rewrite lookup_insert_ne.
      * intros k x Hx. apply Hnodes'. unfold s1.
        cbn [Ptr.nodes Ptr.set_arrays Ptr.set_nodes].
        rewrite lookup_insert_ne; [done|]. intros <-. congruence.
      * intros k Hk. destruct (Hown' k Hk) as [Hk1|Hk1].
        -- apply (owned_push lay _ _ _ _ Had) in Hk1 as [->|Hk1]; [by right|by left].
        -- unfold s1 in Hk1. cbn [Ptr.nodes Ptr.set_arrays Ptr.set_nodes] in Hk1.
           right. apply lookup_insert_None in Hk1. tauto.
      * intros k Hk. apply Hmono'. apply (owned_push_2 lay _ anew ad _ k Had). by right.
      * intros k Hk. destruct (Hacc' k Hk) as [Hk1|Hk1]; [by left|].
        unfold s1 in Hk1. cbn [Ptr.nodes Ptr.set_arrays Ptr.set_nodes] in Hk1.
        destruct (decide (k = anew)) as [->|Hne].
        -- left. apply Hmono'. apply (owned_push_2 lay _ anew ad _ anew Had). by left.
        -- right. by rewrite lookup_insert_ne in Hk1.
Qed.

(** Assigning nullptr to cells that hold nullptr changes nothing. *)
Lemma null_loop_ok s a (n : nat) : forall (k i : nat),
  Ptr.arrays s !! a = Some (replicate n None) -> (i + k <= n)%nat ->
  Ptr.for_each (seq i k) (fun bucket => Ptr.array_store (Some a) bucket None) s
  = Ok (tt, s).
Proof.
  induction k as [|k IH]; intros i Harr Hle; [done|].
  cbn [seq Ptr.for_each].
  assert (Hstep : Ptr.array_store (Some a) (Z.of_nat i) None s = Ok (tt, s)).
  { rewrite (array_store_ok s a (replicate n None)); [|done|lia|].
    - rewrite Nat2Z.id, list_insert_id by (apply lookup_replicate_2; lia).
      rewrite insert_id by done. by rewrite set_arrays_id.
    - rewrite Nat2Z.id, length_replicate. lia. }
  rewrite (bind_ok _ _ _ _ _ Hstep). apply IH; [done|lia].
Qed.

(** The outer loop of [resize] does what [rehash_buckets] does, and leaves
    the old table in place. *)
Lemma rehash_outer_ok c' old_lay old_tbl : forall (k i : nat) s lay tbl tbl',
  rehash_buckets old_tbl (seq i k) c' tbl = Ok tbl' ->
  table_at s old_lay old_tbl -> table_at s lay tbl ->
  lay_array lay <> lay_array old_lay ->
  (forall x, x ∈ owned old_lay -> x ∉ owned lay) ->
  exists s' lay',
    Ptr.for_each (seq i k)
      (fun bucket =>
         originalNode ← Ptr.array_load (Some (lay_array old_lay)) bucket;
         steps ← Ptr.walk_bound;
         Ptr.rehash_loop steps originalNode c' (Some (lay_array lay))) s
    = Ok (tt, s') /\
    table_at s' lay' tbl' /\ lay_array lay' = lay_array lay /\
    table_at s' old_lay old_tbl /\
    Ptr.objects s' = Ptr.objects s /\
    (forall b, b <> lay_array lay -> Ptr.arrays s' !! b = Ptr.arrays s !! b) /\
    (forall x n, Ptr.nodes s !! x = Some n -> Ptr.nodes s' !! x = Some n) /\
    (forall x, x ∈ owned lay' -> x ∈ owned lay \/ Ptr.nodes s !! x = None) /\
    (forall x, x ∈ owned lay -> x ∈ owned lay') /\
    (forall x, is_Some (Ptr.nodes s' !! x) ->
               x ∈ owned lay' \/ is_Some (Ptr.nodes s !! x)).
Proof.
  induction k as [|k IH]; intros i s lay tbl tbl' Hrun Hold Hnew Hne Hapart.
  - simpl in Hrun. inversion Hrun; subst tbl'. exists s, lay.
    repeat (split; [done|]). split; [intros x Hx; by left|].
    split; [done|]. intros x Hx. by right.
  - cbn [seq rehash_buckets] in Hrun.
    destruct (array_get old_tbl (Z.of_nat i)) as [ch|f] eqn:Hch; [|done]. simpl in Hrun.
    destruct (rehash_chain ch c' tbl) as [tbl1|f] eqn:Hchain; [|done]. simpl in Hrun.
    apply array_get_inv in Hch as [Hi0 Hch]. rewrite Nat2Z.id in Hch.
    destruct (table_at_bucket s old_lay old_tbl i ch Hold Hch)
      as (h & addrs & Hh & Ha & Hc & Hnd).
    destruct (rehash_loop_ok c' addrs ch h s lay tbl (S (size (Ptr.nodes s))) tbl1
                Hchain Hc (table_at_walk_bound _ _ _ _ _ Hold Ha) Hnew)
      as (s1 & lay1 & Hloop & Hat1 & Harr1 & Hobj1 & Harrs1 & Hnodes1 & Hown1
          & Hmono1 & Hacc1).
    { intros x Hx. apply Hapart. by eapply owned_bucket. }
    assert (Hold1 : table_at s1 old_lay old_tbl).
    { apply (table_at_frame s); [done| |].
      - rewrite Harrs1 by done. apply Hold.
      - intros x n _. apply Hnodes1. }
    destruct (IH (S i) s1 lay1 tbl1 tbl' Hrun Hold1 Hat1)
      as (s' & lay' & Hrest & Hat' & Harr' & Hold' & Hobj' & Harrs' & Hnodes' & Hown'
          & Hmono' & Hacc').
    { by rewrite Harr1. }
    { intros x Hx Hx1. destruct (Hown1 x Hx1) as [Hx2|Hx2]; [by apply (Hapart x)|].
      destruct (table_at_in_use s old_lay old_tbl x Hold Hx) as [n Hn]. congruence. }
    exists s', lay'. split.
    { cbn [seq Ptr.for_each].
      assert (Hi : lay_heads old_lay !! Z.to_nat (Z.of_nat i) = Some h)
        by (by rewrite Nat2Z.id).
      assert (Hbody :
        (originalNode ← Ptr.array_load (Some (lay_array old_lay)) (Z.of_nat i);
         steps ← Ptr.walk_bound;
         Ptr.rehash_loop steps originalNode c' (Some (lay_array lay))) s = Ok (tt, s1)).
      { rewrite (bind_ok _ _ _ _ _
                   (array_load_ok _ _ _ _ _ (at_array _ _ _ Hold) Hi0 Hi)).
        unfold Ptr.walk_bound at 1. unfold mbind at 1, Ptr.M_bind at 1. exact Hloop. }
      rewrite (bind_ok _ _ _ _ _ Hbody). rewrite <- Harr1. exact Hrest. }
    split; [done|]. split; [by rewrite Harr', Harr1|]. split; [done|].
    split; [by rewrite Hobj', Hobj1|]. split; [|split; [|split; [|split]]].
    + intros b Hb. rewrite Harrs' by (by rewrite Harr1). by apply Harrs1.
    + intros x n Hx. by apply Hnodes', Hnodes1.
    + intros x Hx. destruct (Hown' x Hx) as [Hx1|Hx1].
      * apply Hown1, Hx1.
      * right. destruct (Ptr.nodes s !! x) as [n|] eqn:Hn; [|done].
        by rewrite (Hnodes1 x n Hn) in Hx1.
    + intros x Hx. by apply Hmono', Hmono1.
    + intros x Hx. destruct (Hacc' x Hx) as [Hx1|Hx1]; [by left|].
      destruct (Hacc1 x Hx1) as [Hx2|Hx2]; [left; by apply Hmono'|by right].
Qed.

End ResizeSim.

Section ClearSim.

(** The inner loop of [clear] releases the nodes of one chain and leaves
    nullptr in the bucket. *)
Lemma clear_loop_ok a b : forall addrs l h s heads steps,
  0 <= b -> Ptr.arrays s !! a = Some heads -> heads !! Z.to_nat b = Some h ->
  chain_at (Ptr.nodes s) h addrs l -> NoDup addrs -> (length addrs < steps)%nat ->
  exists s',
    Ptr.clear_loop steps (Some a) b s = Ok (tt, s') /\
    Ptr.objects s' = Ptr.objects s /\
    Ptr.arrays s' = <[a := <[Z.to_nat b := None]> heads]> (Ptr.arrays s) /\
    (forall k, k ∈ addrs -> Ptr.nodes s' !! k = None) /\
    (forall k, k ∉ addrs -> Ptr.nodes s' !! k = Ptr.nodes s !! k).
Proof.
  induction addrs as [|a0 addrs IH]; intros l h s heads steps Hb Harr Hh Hc Hnd Hlen.
  - apply chain_at_nil_inv in Hc as [-> ->].
    destruct steps as [|steps]; [simpl in Hlen; lia|]. exists s.
    split.
    { cbn [Ptr.clear_loop]. by rewrite (bind_ok _ _ _ _ _ (array_load_ok _ _ _ _ _ Harr Hb Hh)). }
    split; [done|]. split.
    { rewrite list_insert_id by done. by rewrite insert_id. }
    split; [|done]. intros k Hk. by apply elem_of_nil in Hk.
  - destruct l as [|n l]; [done|]. destruct Hc as (-> & nx & Ha0 & Hc).
    destruct steps as [|steps]; [simpl in Hlen; lia|].
    apply NoDup_cons in Hnd as [Hnotin Hnd].
    assert (Hlt : (Z.to_nat b < length heads)%nat) by (by eapply lookup_lt_Some).
    pose proof (array_store_ok s a heads b nx Harr Hb Hlt) as Hstore.
    set (s1 := Ptr.set_arrays s (<[a := <[Z.to_nat b := nx]> heads]> (Ptr.arrays s))) in *.
    assert (Hdel : Ptr.delete_node (Some a0) s1 =
                   Ok (tt, Ptr.set_nodes s1 (delete a0 (Ptr.nodes s1))))
      by (by eapply delete_node_ok).
    set (s2 := Ptr.set_nodes s1 (delete a0 (Ptr.nodes s1))) in *.
    destruct (IH l nx s2 (<[Z.to_nat b := nx]> heads) steps Hb)
      as (s' & Hrun & Hobj & Harrs & Hgone & Hkeep).
    { subst s2 s1. simpl. by rewrite lookup_insert_eq. }
    { by rewrite list_lookup_insert_eq. }
    { apply (chain_at_frame (Ptr.nodes s)); [done|].
      intros k x Hk Hx. subst s2 s1. simpl. rewrite lookup_delete_ne; [done|].
      by intros ->. }
    { done. }
    { simpl in Hlen. lia. }
    exists s'. split.
    { cbn [Ptr.clear_loop].
      rewrite (bind_ok _ _ _ _ _ (array_load_ok _ _ _ _ _ Harr Hb Hh)).
      rewrite (bind_ok _ _ _ _ _ (load_node_ok _ _ _ Ha0)). cbn [Ptr.next].
      rewrite (bind_ok _ _ _ _ _ Hstore). rewrite (bind_ok _ _ _ _ _ Hdel).
      exact Hrun. }
    split; [by rewrite Hobj|]. split.
    { rewrite Harrs. subst s2 s1. simpl.
      by rewrite list_insert_insert_eq, insert_insert_eq. }
    split.
    + intros k Hk. apply elem_of_cons in Hk as [->|Hk]; [|by apply Hgone].
      rewrite Hkeep by done. subst s2 s1. simpl. by rewrite lookup_delete_eq.
    + intros k Hk. apply not_elem_of_cons in Hk as [Hne Hk].
      rewrite Hkeep by done. subst s2 s1. simpl. by rewrite lookup_delete_ne.
Qed.

(** The outer loop of [clear] on the buckets [i .. i + k - 1]. *)
Lemma clear_buckets_ok : forall (k i : nat) s lay tbl,
  table_at s lay tbl -> (i + k <= length tbl)%nat ->
  exists s' lay' tbl',
    Ptr.for_each (seq i k)
      (fun bucket => steps ← Ptr.walk_bound;
                     Ptr.clear_loop steps (Some (lay_array lay)) bucket) s
    = Ok (tt, s') /\
    table_at s' lay' tbl' /\ lay_array lay' = lay_array lay /\
    Ptr.objects s' = Ptr.objects s /\
    (forall b, b <> lay_array lay -> Ptr.arrays s' !! b = Ptr.arrays s !! b) /\
    (forall x, x ∉ owned lay -> Ptr.nodes s' !! x = Ptr.nodes s !! x) /\
    (forall x, Ptr.nodes s' !! x = None \/ Ptr.nodes s' !! x = Ptr.nodes s !! x) /\
    (forall (j : nat) addrs x, (i <= j < i + k)%nat ->
       lay_shape lay !! j = Some addrs -> x ∈ addrs -> Ptr.nodes s' !! x = None) /\
    (forall j : nat, (i + k <= j)%nat -> lay_shape lay' !! j = lay_shape lay !! j) /\
    (forall x, x ∈ owned lay' -> x ∈ owned lay).
Proof.
  induction k as [|k IH]; intros i s lay tbl Hat Hle.
  - exists s, lay, tbl. repeat (split; [done|]).
    split; [by right|]. split; [intros; lia|]. done.
  - destruct (lookup_lt_is_Some_2 tbl i) as [ch Hch]; [lia|].
    destruct (table_at_bucket s lay tbl i ch Hat Hch) as (h & addrs & Hh & Ha & Hc & Hnd).
    assert (Hh' : lay_heads lay !! Z.to_nat (Z.of_nat i) = Some h) by (by rewrite Nat2Z.id).
    destruct (clear_loop_ok (lay_array lay) (Z.of_nat i) addrs ch h s (lay_heads lay)
                (S (size (Ptr.nodes s))) ltac:(lia) (at_array _ _ _ Hat) Hh' Hc Hnd
                (table_at_walk_bound _ _ _ _ _ Hat Ha))
      as (s1 & Hrun1 & Hobj1 & Harr1 & Hgone1 & Hkeep1).
    rewrite Nat2Z.id in Harr1.
    assert (Hother : forall x,
              x ∈ concat (take i (lay_shape lay)) ++ concat (drop (S i) (lay_shape lay)) ->
              x ∉ addrs).
    { intros x Hx Hin. apply rest_elsewhere in Hx as (j & ad & Hne & Hj & Hxj).
      by apply (concat_nodup_apart (lay_shape lay) i j addrs ad x (at_nodup _ _ _ Hat)). }
    assert (Hat1 : table_at s1 (mkLayout (lay_array lay) (<[i := None]> (lay_heads lay))
                                  (<[i := []]> (lay_shape lay))) (<[i := []]> tbl)).
    { apply (table_at_replace s); [done|lia| |done|apply NoDup_nil_2| |].
      - by rewrite Harr1, lookup_insert_eq.
      - intros x Hx. by apply elem_of_nil in Hx.
      - intros x n Hx Hn. rewrite Hkeep1 by (by apply Hother). done. }
    destruct (IH (S i) s1 _ _ Hat1) as
      (s' & lay' & tbl' & Hrun & Hat' & Hlay' & Hobj' & Harr' & Hkeep' & Hmono' & Hgone'
       & Hshape' & Hown').
    { rewrite length_insert. lia. }
    cbn [lay_array lay_shape] in *.
    assert (Hown1 : forall x,
              x ∈ owned (mkLayout (lay_array lay) (<[i := None]> (lay_heads lay))
                           (<[i := []]> (lay_shape lay))) -> x ∈ owned lay /\ x ∉ addrs).
    { intros x Hx.
      apply (owned_replace (mkLayout (lay_array lay) (<[i := None]> (lay_heads lay))
                              (lay_shape lay)) i []) in Hx.
      - destruct Hx as [Hx|Hx]; [by apply elem_of_nil in Hx|].
        cbn [lay_shape] in Hx. split; [by eapply others_owned|by apply Hother].
      - cbn [lay_shape]. rewrite (at_shape _ _ _ Hat). lia. }
    exists s', lay', tbl'. split.
    { cbn [seq Ptr.for_each].
      assert (Hbody :
        (steps ← Ptr.walk_bound;
         Ptr.clear_loop steps (Some (lay_array lay)) (Z.of_nat i)) s = Ok (tt, s1)).
      { unfold Ptr.walk_bound at 1. unfold mbind at 1, Ptr.M_bind at 1. exact Hrun1. }
      rewrite (bind_ok _ _ _ _ _ Hbody). exact Hrun. }
    split; [done|]. split; [done|]. split; [by rewrite Hobj'|]. split.
    { intros b Hb. rewrite Harr' by done. rewrite Harr1. by rewrite lookup_insert_ne. }
    split.
    { intros x Hx. rewrite Hkeep'.
      - apply Hkeep1. intros Hin. apply Hx. by eapply owned_bucket.
      - intros Hin. apply Hx. apply (others_owned lay i).
        apply (owned_replace (mkLayout (lay_array lay) (<[i := None]> (lay_heads lay))
                                (lay_shape lay)) i []) in Hin.
        + destruct Hin as [Hin|Hin]; [by apply elem_of_nil in Hin|done].
        + cbn [lay_shape]. rewrite (at_shape _ _ _ Hat). lia. }
    split.
    { intros x. destruct (Hmono' x) as [Hx|Hx]; [by left|].
      destruct (decide (x ∈ addrs)) as [Hin|Hin].
      - left. by rewrite Hx, Hgone1.
      - right. by rewrite Hx, Hkeep1. }
    split.
    { intros j ad x Hj Had Hx. destruct (decide (j = i)) as [->|Hne].
      - assert (ad = addrs) by congruence. subst ad.
        destruct (Hmono' x) as [Hx'|Hx']; [done|]. by rewrite Hx', Hgone1.
      - apply (Hgone' j ad x); [lia| |done]. by rewrite list_lookup_insert_ne. }
    split.
    { intros j Hj. rewrite Hshape' by lia. apply list_lookup_insert_ne. lia. }
    intros x Hx. by apply Hown1, Hown'.
Qed.

(** [clear] releases the bucket array and every node of the table, and
    nothing else. *)
Lemma clear_ok s this o lay tbl :
  Ptr.objects s !! this = Some o -> Ptr.wordTable o = Some (lay_array lay) ->
  table_at s lay tbl -> Z.to_nat (Ptr.capacity o) = length tbl ->
  exists s',
    Ptr.clear this s = Ok (tt, s') /\
    Ptr.objects s' =
      <[this := Ptr.mkObject (Ptr.capacity o) (Ptr.totalWordCount o)
                  (Ptr.uniqueWordCount o) None]> (Ptr.objects s) /\
    Ptr.arrays s' !! lay_array lay = None /\
    (forall b, b <> lay_array lay -> Ptr.arrays s' !! b = Ptr.arrays s !! b) /\
    (forall x, x ∈ owned lay -> Ptr.nodes s' !! x = None) /\
    (forall x, x ∉ owned lay -> Ptr.nodes s' !! x = Ptr.nodes s !! x).
Proof.
  intros Hobj Htbl Hat Hcap.
  destruct (clear_buckets_ok (length tbl) 0 s lay tbl Hat ltac:(lia))
    as (s1 & lay1 & tbl1 & Hrun & Hat1 & Hlay1 & Hobj1 & Harr1 & Hkeep1 & _ & Hgone1 & _ & _).
  pose proof (at_array _ _ _ Hat1) as Ha1. rewrite Hlay1 in Ha1.
  pose proof (delete_array_ok s1 _ _ Ha1) as Hdel.
  set (s2 := Ptr.set_arrays s1 (delete (lay_array lay) (Ptr.arrays s1))) in *.
  assert (Hobj2 : Ptr.objects s2 !! this = Some o) by (subst s2; simpl; by rewrite Hobj1).
  eexists. split.
  { unfold Ptr.clear. rewrite (bind_ok _ _ _ _ _ (load_object_ok _ _ _ Hobj)).
    unfold Ptr.for_buckets. rewrite Hcap, Htbl.
    rewrite (bind_ok _ _ _ _ _ Hrun). rewrite (bind_ok _ _ _ _ _ Hdel).
    rewrite (bind_ok _ _ _ _ _ (load_object_ok _ _ _ Hobj2)).
    apply (store_object_ok _ _ _ _ Hobj2). }
  subst s2. simpl. split; [by rewrite Hobj1|]. split; [by rewrite lookup_delete_eq|].
  split; [intros b Hb; rewrite lookup_delete_ne by done; by apply Harr1|].
  split; [|done]. intros x Hx. apply elem_of_concat_lookup in Hx as (j & ad & Hj & Hx).
  apply (Hgone1 j ad x); [|done|done].
  apply lookup_lt_Some in Hj. rewrite (at_shape _ _ _ Hat) in Hj. lia.
Qed.

End ClearSim.

Section ResizeWhole.
Context {hasher : StdHash}.

Lemma owned_empty a (heads : list (option positive)) (n : nat) :
  owned (mkLayout a heads (replicate n [])) = [].
Proof. unfold owned. cbn [lay_shape]. induction n as [|n IH]; [done|]. simpl. exact IH. Qed.

(** A new array of null heads is a table of empty chains. *)
Lemma table_at_empty s a (n : nat) :
  Ptr.arrays s !! a = Some (replicate n None) ->
  table_at s (mkLayout a (replicate n None) (replicate n [])) (replicate n []).
Proof.
  intros Harr. split; cbn [lay_array lay_heads lay_shape].
  - done.
  - by rewrite !length_replicate.
  - by rewrite !length_replicate.
  - intros i h addrs ch Hh Ha Hc.
    apply lookup_replicate in Hh as [-> _]. apply lookup_replicate in Ha as [-> _].
    apply lookup_replicate in Hc as [-> _]. done.
  - rewrite owned_empty. apply NoDup_nil_2.
Qed.

(** [resize] on the store does what [resize] on tables does; it releases
    the old array and nodes and leaves everything else in place. *)
Lemma resize_sim s this t lay n t' :
  represents s this t lay -> length (wordTable t) = Z.to_nat (capacity t) ->
  resize t n = Ok t' ->
  exists s' lay',
    Ptr.resize this n s = Ok (tt, s') /\ represents s' this t' lay' /\
    frame s s' this lay /\ reuses s lay lay' /\ accounted s s' lay lay'.
Proof.
  intros [Hobj Hat] Hlen Hres. unfold resize in Hres.
  destruct (rehash_buckets _ _ _ _) as [tbl'|f] eqn:Hrehash; [|done].
  simpl in Hres. inversion Hres; subst t'; clear Hres.
  set (c' := getValidCapacity n) in *.
  set (a' := Ptr.fresh_addr (Ptr.arrays s)).
  assert (Hfresh : Ptr.arrays s !! a' = None) by apply fresh_addr_fresh.
  assert (Hne : a' <> lay_array lay).
  { intros He. rewrite He, (at_array _ _ _ Hat) in Hfresh. done. }
  set (s0 := Ptr.set_arrays s (<[a' := replicate (Z.to_nat c') None]> (Ptr.arrays s))).
  assert (Harr0 : Ptr.arrays s0 !! a' = Some (replicate (Z.to_nat c') None))
    by (subst s0; simpl; by rewrite lookup_insert_eq).
  assert (Hold0 : table_at s0 lay (wordTable t)).
  { apply (table_at_frame s); [done| |done].
    subst s0. simpl. rewrite lookup_insert_ne by done. apply Hat. }
  set (lay0 := mkLayout a' (replicate (Z.to_nat c') None) (replicate (Z.to_nat c') [])).
  destruct (rehash_outer_ok c' lay (wordTable t) (Z.to_nat (capacity t)) 0 s0 lay0 _ tbl'
              Hrehash Hold0 (table_at_empty s0 a' _ Harr0))
    as (s1 & lay' & Hrun1 & Hat' & Hlay' & Hold1 & Hobj1 & Harr1 & Hnodes1 & Hown1
        & _ & Hacc1).
  { done. }
  { intros x _. subst lay0. rewrite owned_empty. apply not_elem_of_nil. }
  cbn [lay_array] in *.
  assert (Ho1 : Ptr.objects s1 !! this =
                Some (Ptr.mkObject (capacity t) (totalWordCount t) (uniqueWordCount t)
                        (Some (lay_array lay)))).
  { rewrite Hobj1. subst s0. done. }
  destruct (clear_ok s1 this _ lay (wordTable t) Ho1 eq_refl Hold1)
    as (s2 & Hclear & Hobj2 & Hgone2 & Harr2 & Hdel2 & Hkeep2).
  { simpl. by rewrite Hlen. }
  cbn [Ptr.capacity Ptr.totalWordCount Ptr.uniqueWordCount] in Hobj2.
  assert (Ho2 : Ptr.objects s2 !! this =
                Some (Ptr.mkObject (capacity t) (totalWordCount t) (uniqueWordCount t) None))
    by (by rewrite Hobj2, lookup_insert_eq).
  assert (Hnew : forall k, k ∈ owned lay' -> k ∉ owned lay).
  { intros k Hk Hin. destruct (Hown1 k Hk) as [Hk0|Hk0].
    - subst lay0. rewrite owned_empty in Hk0. by apply elem_of_nil in Hk0.
    - destruct (table_at_in_use s0 lay _ k Hold0 Hin) as [x Hx]. congruence. }
  eexists _, lay'. split.
  { unfold Ptr.resize. fold c'.
    assert (Hnewarr : Ptr.new_array c' s = Ok (Some a', s0)) by done.
    rewrite (bind_ok _ _ _ _ _ Hnewarr).
    unfold Ptr.for_buckets at 1.
    rewrite (bind_ok _ _ _ _ _ (null_loop_ok s0 a' (Z.to_nat c') (Z.to_nat c') 0%nat Harr0 ltac:(lia))).
    assert (Ho0 : Ptr.objects s0 !! this = Some _) by exact Hobj.
    rewrite (bind_ok _ _ _ _ _ (load_object_ok _ _ _ Ho0)).
    cbn [Ptr.capacity Ptr.wordTable]. unfold Ptr.for_buckets.
    rewrite (bind_ok _ _ _ _ _ Hrun1). rewrite (bind_ok _ _ _ _ _ Hclear).
    rewrite (bind_ok _ _ _ _ _ (load_object_ok _ _ _ Ho2)).
    cbn [Ptr.totalWordCount Ptr.uniqueWordCount].
    apply (store_object_ok _ _ _ _ Ho2). }
  split; [|split; [|split]].
  - split; cbn [capacity totalWordCount uniqueWordCount wordTable].
    + simpl. rewrite lookup_insert_eq. by rewrite Hlay'.
    + apply (table_at_frame s1); [done| |].
      * simpl. rewrite Harr2 by (by rewrite Hlay'). apply Hat'.
      * intros k x Hk Hx. simpl. rewrite Hkeep2 by (by apply Hnew). done.
  - split.
    + intros o x Ho Hx. simpl. rewrite lookup_insert_ne by done.
      rewrite Hobj2, lookup_insert_ne by done. by rewrite Hobj1.
    + intros b x Hb Hx. simpl.
      assert (b <> a') by (intros ->; congruence).
      rewrite Harr2, Harr1 by done. subst s0. simpl. by rewrite lookup_insert_ne.
    + intros k x Hk Hx. simpl. rewrite Hkeep2 by done. by apply Hnodes1.
  - split.
    + right. by rewrite Hlay'.
    + intros k Hk. right. destruct (Hown1 k Hk) as [Hk0|Hk0]; [|done].
      subst lay0. rewrite owned_empty in Hk0. by apply elem_of_nil in Hk0.
  - split; simpl.
    + intros k Hk. destruct (decide (k = this)) as [->|Hk'];
        [by rewrite Hobj|].
      rewrite lookup_insert_ne, Hobj2, lookup_insert_ne, Hobj1 in Hk by done.
      exact Hk.
    + intros b Hb. destruct (decide (b = lay_array lay)) as [->|Hb1].
      { rewrite Hgone2 in Hb. by destruct Hb. }
      rewrite Harr2 in Hb by done.
      destruct (decide (b = a')) as [->|Hb2]; [left; by rewrite Hlay'|right].
      rewrite Harr1 in Hb by done. subst s0. simpl in Hb.
      by rewrite lookup_insert_ne in Hb.
    + intros k Hk. destruct (decide (k ∈ owned lay)) as [Hin|Hout].
      { rewrite Hdel2 in Hk by done. by destruct Hk. }
      rewrite Hkeep2 in Hk by done.
      destruct (Hacc1 k Hk) as [?|?]; [by left|by right].
Qed.

End ResizeWhole.

Section CopySim.
Context {hasher : StdHash}.

(** The loop of [copyBucket] hangs a copy of the chain at [cur], made of
    new nodes, behind the node [tl]. *)
Lemma copy_loop_ok : forall addrs l cur s tl tnode steps,
  chain_at (Ptr.nodes s) cur addrs l -> (length addrs < steps)%nat ->
  Ptr.nodes s !! tl = Some tnode -> Ptr.next tnode = None -> tl ∉ addrs ->
  exists s' copied nx,
    Ptr.copy_loop steps cur (Some tl) s = Ok (tt, s') /\
    Ptr.objects s' = Ptr.objects s /\ Ptr.arrays s' = Ptr.arrays s /\
    Ptr.nodes s' !! tl = Some (Ptr.mkNode (Ptr.word tnode) nx (Ptr.wordCount tnode)) /\
    chain_at (Ptr.nodes s') nx copied l /\ NoDup copied /\
    (forall k, k ∈ copied -> Ptr.nodes s !! k = None) /\
    (forall k x, k <> tl -> Ptr.nodes s !! k = Some x -> Ptr.nodes s' !! k = Some x) /\
    (forall k, k <> tl -> k ∉ copied -> Ptr.nodes s' !! k = Ptr.nodes s !! k).
Proof.
  induction addrs as [|a0 addrs IH]; intros l cur s tl tnode steps Hc Hlen Htl Hnx Hnotin.
  - apply chain_at_nil_inv in Hc as [-> ->].
    destruct steps as [|steps]; [simpl in Hlen; lia|].
    exists s, [], None. split; [done|]. split; [done|]. split; [done|].
    split; [destruct tnode; simpl in *; by subst|]. split; [done|].
    split; [apply NoDup_nil_2|]. split; [|done].
    intros k Hk. by apply elem_of_nil in Hk.
  - destruct l as [|n l]; [done|]. destruct Hc as (-> & nx0 & Ha0 & Hc).
    destruct steps as [|steps]; [simpl in Hlen; lia|].
    apply not_elem_of_cons in Hnotin as [Hne0 Hnotin].
    set (p := Ptr.fresh_addr (Ptr.nodes s)).
    assert (Hp : Ptr.nodes s !! p = None) by apply fresh_addr_fresh.
    assert (Hptl : p <> tl) by (intros He; rewrite He in Hp; congruence).
    set (s1 := Ptr.set_nodes s (<[p := Ptr.mkNode (word n) None (wordCount n)]> (Ptr.nodes s))).
    assert (Htl1 : Ptr.nodes s1 !! tl = Some tnode)
      by (subst s1; simpl; by rewrite lookup_insert_ne).
    set (s2 := Ptr.set_nodes s1
                 (<[tl := Ptr.mkNode (Ptr.word tnode) (Some p) (Ptr.wordCount tnode)]>
                    (Ptr.nodes s1))).
    assert (Hin_use : forall k, k ∈ addrs -> k <> p).
    { intros k Hk ->. destruct (chain_at_in_use _ _ _ _ p Hc Hk) as [x Hx]. congruence. }
    destruct (IH l nx0 s2 p (Ptr.mkNode (word n) None (wordCount n)) steps)
      as (s' & copied & nx & Hrun & Hobj & Harr & Hp' & Hc' & Hnd' & Hfresh' & Hkeep'
          & Hexact').
    { apply (chain_at_frame (Ptr.nodes s)); [done|].
      intros k x Hk Hx. subst s2 s1. simpl.
      rewrite lookup_insert_ne by (by intros ->).
      rewrite lookup_insert_ne by (intros He; by apply (Hin_use k)). done. }
    { simpl in Hlen. lia. }
    { subst s2 s1. simpl. rewrite lookup_insert_ne by done. by rewrite lookup_insert_eq. }
    { done. }
    { intros Hin. by apply (Hin_use p). }
    cbn [Ptr.word Ptr.wordCount] in Hp'.
    assert (Hs2 : forall k, k <> p -> k <> tl -> Ptr.nodes s2 !! k = Ptr.nodes s !! k).
    { intros k Hk1 Hk2. subst s2 s1. simpl. by rewrite !lookup_insert_ne. }
    exists s', (p :: copied), (Some p). split.
    { cbn [Ptr.copy_loop].
      rewrite (bind_ok _ _ _ _ _ (load_node_ok _ _ _ Ha0)). cbn [Ptr.word Ptr.wordCount Ptr.next].
      assert (Hnew : Ptr.new_node (Ptr.mkNode (word n) None (wordCount n)) s = Ok (Some p, s1))
        by done.
      rewrite (bind_ok _ _ _ _ _ Hnew).
      rewrite (bind_ok _ _ _ _ _ (load_node_ok _ _ _ Htl1)).
      rewrite (bind_ok _ _ _ _ _ (store_node_ok _ _ _ _ Htl1)). exact Hrun. }
    split; [by rewrite Hobj|]. split; [by rewrite Harr|]. split.
    { apply Hkeep'; [done|]. subst s2. simpl. by rewrite lookup_insert_eq. }
    split; [simpl; split; [done|]; by exists nx|]. split.
    { apply NoDup_cons. split; [|done]. intros Hin.
      specialize (Hfresh' p Hin). subst s2 s1. simpl in Hfresh'.
      rewrite lookup_insert_ne, lookup_insert_eq in Hfresh' by done. done. }
    split.
    + intros k Hk. apply elem_of_cons in Hk as [->|Hk]; [done|].
      specialize (Hfresh' k Hk).
      destruct (decide (k = tl)) as [->|Hk1].
      { subst s2. simpl in Hfresh'. by rewrite lookup_insert_eq in Hfresh'. }
      destruct (decide (k = p)) as [->|Hk2]; [done|].
      by rewrite Hs2 in Hfresh'.
    + split.
      * intros k x Hk Hx. apply Hkeep'; [intros ->; congruence|].
        rewrite Hs2; [done|intros ->; congruence|done].
      * intros k Hk Hout. apply not_elem_of_cons in Hout as [Hkp Hout].
        rewrite Hexact' by done. by apply Hs2.
Qed.

(** [copyBucket] returns a copy of the chain on new nodes; its anchor is
    gone again afterwards. *)
Lemma copyBucket_ok s h addrs l :
  chain_at (Ptr.nodes s) h addrs l -> (length addrs <= size (Ptr.nodes s))%nat ->
  exists s' copied p,
    Ptr.copyBucket h s = Ok (p, s') /\
    Ptr.objects s' = Ptr.objects s /\ Ptr.arrays s' = Ptr.arrays s /\
    chain_at (Ptr.nodes s') p copied l /\ NoDup copied /\
    (forall k, k ∈ copied -> Ptr.nodes s !! k = None) /\
    (forall k x, Ptr.nodes s !! k = Some x -> Ptr.nodes s' !! k = Some x) /\
    (forall k, k ∉ copied -> Ptr.nodes s' !! k = Ptr.nodes s !! k).
Proof.
  intros Hc Hlen.
  set (an := Ptr.fresh_addr (Ptr.nodes s)).
  assert (Han : Ptr.nodes s !! an = None) by apply fresh_addr_fresh.
  set (s1 := Ptr.set_nodes s (<[an := Ptr.mkNode EmptyString None 0]> (Ptr.nodes s))).
  assert (Hin_use : forall k, k ∈ addrs -> k <> an).
  { intros k Hk ->. destruct (chain_at_in_use _ _ _ _ an Hc Hk) as [x Hx]. congruence. }
  assert (Hsize : size (Ptr.nodes s1) = S (size (Ptr.nodes s))).
  { subst s1. simpl. by apply map_size_insert_None. }
  destruct (copy_loop_ok addrs l h s1 an (Ptr.mkNode EmptyString None 0)
              (S (size (Ptr.nodes s1))))
    as (s2 & copied & nx & Hrun & Hobj & Harr & Han2 & Hc2 & Hnd & Hfresh & Hkeep
        & Hexact).
  { apply (chain_at_frame (Ptr.nodes s)); [done|].
    intros k x Hk Hx. subst s1. simpl. rewrite lookup_insert_ne; [done|].
    intros He. by apply (Hin_use k). }
  { lia. }
  { subst s1. simpl. by rewrite lookup_insert_eq. }
  { done. }
  { intros Hin. by apply (Hin_use an). }
  cbn [Ptr.word Ptr.wordCount] in Han2.
  assert (Hcopied : forall k, k ∈ copied -> k <> an).
  { intros k Hk ->. specialize (Hfresh an Hk). subst s1. simpl in Hfresh.
    by rewrite lookup_insert_eq in Hfresh. }
  exists (Ptr.set_nodes s2 (delete an (Ptr.nodes s2))), copied, nx. split.
  { unfold Ptr.copyBucket.
    assert (Hnew : Ptr.new_node (Ptr.mkNode EmptyString None 0) s = Ok (Some an, s1)) by done.
    rewrite (bind_ok _ _ _ _ _ Hnew).
    unfold Ptr.walk_bound at 1. unfold mbind at 1, Ptr.M_bind at 1.
    rewrite (bind_ok _ _ _ _ _ Hrun).
    rewrite (bind_ok _ _ _ _ _ (load_node_ok _ _ _ Han2)).
    rewrite (bind_ok _ _ _ _ _ (delete_node_ok _ _ _ Han2)). done. }
  simpl. split; [by rewrite Hobj|]. split; [by rewrite Harr|]. split.
  { apply (chain_at_frame (Ptr.nodes s2)); [done|].
    intros k x Hk Hx. rewrite lookup_delete_ne; [done|]. intros He. by apply (Hcopied k). }
  split; [done|]. split.
  - intros k Hk. specialize (Hfresh k Hk). subst s1. simpl in Hfresh.
    rewrite lookup_insert_ne in Hfresh; [done|]. intros He. by apply (Hcopied k).
  - split.
    + intros k x Hx. assert (k <> an) by (intros ->; congruence).
      rewrite lookup_delete_ne by done. apply Hkeep; [done|].
      subst s1. simpl. by rewrite lookup_insert_ne.
    + intros k Hk. destruct (decide (k = an)) as [->|Hne];
        [by rewrite lookup_delete_eq|].
      rewrite lookup_delete_ne, Hexact by done.
      subst s1. simpl. by rewrite lookup_insert_ne.
Qed.

(** The loop of [copy] on the buckets [i .. i + k - 1]. *)
Lemma copy_buckets_ok src_lay src_tbl : forall (k i : nat) s lay tbl,
  table_at s src_lay src_tbl -> table_at s lay tbl ->
  length tbl = length src_tbl -> (i + k <= length src_tbl)%nat ->
  lay_array lay <> lay_array src_lay ->
  (forall (j : nat) addrs, (i <= j)%nat -> lay_shape lay !! j = Some addrs -> addrs = []) ->
  exists s' lay' tbl',
    Ptr.for_each (seq i k)
      (fun bucket =>
         head ← Ptr.array_load (Some (lay_array src_lay)) bucket;
         copied ← Ptr.copyBucket head;
         Ptr.array_store (Some (lay_array lay)) bucket copied) s
    = Ok (tt, s') /\
    table_at s' lay' tbl' /\ lay_array lay' = lay_array lay /\
    length tbl' = length tbl /\
    (forall j : nat, (i <= j < i + k)%nat -> tbl' !! j = src_tbl !! j) /\
    (forall j : nat, ~ (i <= j < i + k)%nat -> tbl' !! j = tbl !! j) /\
    Ptr.objects s' = Ptr.objects s /\
    (forall b, b <> lay_array lay -> Ptr.arrays s' !! b = Ptr.arrays s !! b) /\
    (forall x n, Ptr.nodes s !! x = Some n -> Ptr.nodes s' !! x = Some n) /\
    (forall x, x ∈ owned lay' -> x ∈ owned lay \/ Ptr.nodes s !! x = None) /\
    (forall x, x ∈ owned lay -> x ∈ owned lay') /\
    (forall x, x ∉ owned lay' -> Ptr.nodes s' !! x = Ptr.nodes s !! x).
Proof.
  induction k as [|k IH]; intros i s lay tbl Hsrc Hat Hlen Hle Hne Hnil.
  - exists s, lay, tbl. repeat (split; [done|]). split; [intros; lia|].
    repeat (split; [done|]). split; [intros x Hx; by left|]. done.
  - destruct (lookup_lt_is_Some_2 src_tbl i) as [ch Hch]; [lia|].
    destruct (table_at_bucket s src_lay src_tbl i ch Hsrc Hch)
      as (h & addrs & Hh & Ha & Hc & Hnd).
    assert (Hh' : lay_heads src_lay !! Z.to_nat (Z.of_nat i) = Some h) by (by rewrite Nat2Z.id).
    pose proof (table_at_walk_bound _ _ _ _ _ Hsrc Ha) as Hbound.
    destruct (copyBucket_ok s h addrs ch Hc ltac:(lia))
      as (s1 & copied & p & Hcopy & Hobj1 & Harr1 & Hc1 & Hnd1 & Hfresh1 & Hkeep1
          & Hexact1).
    assert (Harr : Ptr.arrays s1 !! lay_array lay = Some (lay_heads lay))
      by (rewrite Harr1; apply Hat).
    assert (Hi : (Z.to_nat (Z.of_nat i) < length (lay_heads lay))%nat)
      by (rewrite Nat2Z.id, (at_heads _ _ _ Hat); lia).
    pose proof (array_store_ok s1 (lay_array lay) (lay_heads lay) (Z.of_nat i) p Harr
                  ltac:(lia) Hi) as Hstore.
    rewrite Nat2Z.id in Hstore.
    set (s2 := Ptr.set_arrays s1 (<[lay_array lay := <[i := p]> (lay_heads lay)]>
                                    (Ptr.arrays s1))) in *.
    assert (Hin_use : forall x, x ∈ owned lay -> x ∉ copied).
    { intros x Hx Hin. destruct (table_at_in_use s lay tbl x Hat Hx) as [n Hn].
      specialize (Hfresh1 x Hin). congruence. }
    assert (Hat2 : table_at s2 (mkLayout (lay_array lay) (<[i := p]> (lay_heads lay))
                                  (<[i := copied]> (lay_shape lay))) (<[i := ch]> tbl)).
    { apply (table_at_replace s); [done|lia| |done|done| |].
      - subst s2. simpl. by rewrite lookup_insert_eq.
      - intros x Hx Hother. by apply (Hin_use x (others_owned lay i x Hother)).
      - intros x n _ Hn. subst s2. simpl. by apply Hkeep1. }
    assert (Hsrc2 : table_at s2 src_lay src_tbl).
    { apply (table_at_frame s); [done| |].
      - subst s2. simpl. rewrite lookup_insert_ne by done. rewrite Harr1. apply Hsrc.
      - intros x n _ Hn. subst s2. simpl. by apply Hkeep1. }
    destruct (IH (S i) s2 _ _ Hsrc2 Hat2)
      as (s' & lay' & tbl' & Hrun & Hat' & Hlay' & Hlen' & Hdone' & Hrest' & Hobj' & Harr'
          & Hkeep' & Hown' & Hmono' & Hexact'); [by rewrite length_insert|lia|done| |].
    { intros j ad Hj Had. cbn [lay_shape] in Had.
      rewrite list_lookup_insert_ne in Had by lia. apply (Hnil j ad); [lia|done]. }
    cbn [lay_array] in *.
    assert (Hshape_i : (i < length (lay_shape lay))%nat)
      by (rewrite (at_shape _ _ _ Hat); lia).
    exists s', lay', tbl'. split.
    { cbn [seq Ptr.for_each].
      assert (Hbody :
        (head ← Ptr.array_load (Some (lay_array src_lay)) (Z.of_nat i);
         copied ← Ptr.copyBucket head;
         Ptr.array_store (Some (lay_array lay)) (Z.of_nat i) copied) s = Ok (tt, s2)).
      { rewrite (bind_ok _ _ _ _ _
                   (array_load_ok s _ _ (Z.of_nat i) _ (at_array _ _ _ Hsrc)
                      (Nat2Z.is_nonneg i) Hh')).
        rewrite (bind_ok _ _ _ _ _ Hcopy). exact Hstore. }
      rewrite (bind_ok _ _ _ _ _ Hbody). exact Hrun. }
    split; [done|]. split; [done|].
    split; [by rewrite Hlen', length_insert|]. split.
    { intros j Hj. destruct (decide (j = i)) as [->|Hji].
      - rewrite Hrest' by lia. rewrite list_lookup_insert_eq by lia. done.
      - apply Hdone'. lia. }
    split.
    { intros j Hj. rewrite Hrest' by lia. apply list_lookup_insert_ne. lia. }
    split; [by rewrite Hobj'|]. split.
    { intros b Hb. rewrite Harr' by done. subst s2. simpl.
      rewrite lookup_insert_ne by done. by rewrite Harr1. }
    split.
    { intros x n Hn. apply Hkeep'. subst s2. simpl. by apply Hkeep1. }
    split; [|split].
    + intros x Hx. destruct (Hown' x Hx) as [Hx1|Hx1].
      * apply (owned_replace (mkLayout (lay_array lay) (<[i := p]> (lay_heads lay))
                                (lay_shape lay)) i copied) in Hx1.
        -- destruct Hx1 as [Hx1|Hx1]; [right; by apply Hfresh1|].
           left. by apply (others_owned lay i).
        -- cbn [lay_shape]. rewrite (at_shape _ _ _ Hat). lia.
      * right. destruct (Ptr.nodes s !! x) as [n|] eqn:Hn; [|done].
        subst s2. simpl in Hx1. by rewrite (Hkeep1 x n Hn) in Hx1.
    + intros x Hx. apply Hmono'.
      destruct (lookup_lt_is_Some_2 (lay_shape lay) i Hshape_i) as [old Hold].
      apply (owned_replace_2 (mkLayout (lay_array lay) (<[i := p]> (lay_heads lay))
                                (lay_shape lay)) i copied x Hshape_i).
      cbn [lay_shape]. destruct (owned_split lay i old x Hold Hx) as [Hx'|Hx']; [|by right].
      assert (Hold_nil : old = []) by (apply (Hnil i old); [lia|done]).
      rewrite Hold_nil in Hx'. by apply elem_of_nil in Hx'.
    + intros x Hx. rewrite Hexact' by done. subst s2. simpl. apply Hexact1.
      intros Hin. apply Hx, Hmono'.
      apply (owned_replace_2 (mkLayout (lay_array lay) (<[i := p]> (lay_heads lay))
                                (lay_shape lay)) i copied x Hshape_i).
      by left.
Qed.

(** [copy] makes [this] a table with the chains of [other], on a new array
    and new nodes, and changes nothing that was in use. *)
Lemma copy_sim s this other o t lay :
  represents s other t lay -> length (wordTable t) = Z.to_nat (capacity t) ->
  Ptr.objects s !! this = Some o -> this <> other ->
  exists s' lay',
    Ptr.copy this other s = Ok (tt, s') /\ represents s' this t lay' /\
    Ptr.arrays s !! lay_array lay' = None /\
    (forall k, k ∈ owned lay' -> Ptr.nodes s !! k = None) /\
    (forall k x, k <> this -> Ptr.objects s !! k = Some x -> Ptr.objects s' !! k = Some x) /\
    (forall b x, Ptr.arrays s !! b = Some x -> Ptr.arrays s' !! b = Some x) /\
    (forall k x, Ptr.nodes s !! k = Some x -> Ptr.nodes s' !! k = Some x) /\
    (forall k, k <> this -> Ptr.objects s' !! k = Ptr.objects s !! k) /\
    (forall b, b <> lay_array lay' -> Ptr.arrays s' !! b = Ptr.arrays s !! b) /\
    (forall k, k ∉ owned lay' -> Ptr.nodes s' !! k = Ptr.nodes s !! k).
Proof.
  intros [Hobj Hat] Hlen Hthis Hne.
  set (a' := Ptr.fresh_addr (Ptr.arrays s)).
  assert (Hfresh : Ptr.arrays s !! a' = None) by apply fresh_addr_fresh.
  assert (Hne' : a' <> lay_array lay).
  { intros He. rewrite He, (at_array _ _ _ Hat) in Hfresh. done. }
  set (n := Z.to_nat (capacity t)) in *.
  set (s0 := Ptr.set_arrays s (<[a' := replicate n None]> (Ptr.arrays s))).
  set (s1 := Ptr.set_objects s0
               (<[this := Ptr.mkObject (capacity t) (totalWordCount t) (uniqueWordCount t)
                            (Some a')]> (Ptr.objects s0))).
  assert (Harr1 : Ptr.arrays s1 !! a' = Some (replicate n None))
    by (subst s1 s0; simpl; by rewrite lookup_insert_eq).
  assert (Hsrc1 : table_at s1 lay (wordTable t)).
  { apply (table_at_frame s); [done| |done].
    subst s1 s0. simpl. rewrite lookup_insert_ne by done. apply Hat. }
  destruct (copy_buckets_ok lay (wordTable t) n 0 s1
              (mkLayout a' (replicate n None) (replicate n [])) (replicate n [])
              Hsrc1 (table_at_empty s1 a' n Harr1))
    as (s' & lay' & tbl' & Hrun & Hat' & Hlay' & Hlen' & Hdone' & _ & Hobj' & Harr'
        & Hkeep' & Hown' & _ & Hexact'); [by rewrite length_replicate|lia|done| |].
  { intros j ad _ Had. cbn [lay_shape] in Had. by apply lookup_replicate in Had as [-> _]. }
  cbn [lay_array] in *. rewrite length_replicate in Hlen'.
  assert (Htbl : tbl' = wordTable t).
  { apply list_eq. intros j. destruct (decide (j < n)%nat) as [Hj|Hj].
    - apply Hdone'. lia.
    - rewrite !lookup_ge_None_2; [done|lia|lia]. }
  subst tbl'.
  exists s', lay'. split.
  { unfold Ptr.copy. rewrite (bind_ok _ _ _ _ _ (load_object_ok _ _ _ Hobj)).
    cbn [Ptr.capacity Ptr.totalWordCount Ptr.uniqueWordCount Ptr.wordTable].
    assert (Hnew : Ptr.new_array (capacity t) s = Ok (Some a', s0)) by done.
    rewrite (bind_ok _ _ _ _ _ Hnew).
    assert (Hthis0 : Ptr.objects s0 !! this = Some o) by done.
    rewrite (bind_ok _ _ _ _ _ (store_object_ok _ _ _ _ Hthis0)).
    unfold Ptr.for_buckets. exact Hrun. }
  split.
  { split; [|done]. rewrite Hobj', Hlay'. subst s1. simpl. by rewrite lookup_insert_eq. }
  split; [by rewrite Hlay'|]. split.
  { intros k Hk. destruct (Hown' k Hk) as [Hk0|Hk0]; [|done].
    rewrite owned_empty in Hk0. by apply elem_of_nil in Hk0. }
  split.
  { intros k x Hk Hx. rewrite Hobj'. subst s1 s0. simpl. by rewrite lookup_insert_ne. }
  split.
  { intros b x Hx. assert (b <> a') by (intros ->; congruence).
    rewrite Harr' by done. subst s1 s0. simpl. by rewrite lookup_insert_ne. }
  split; [intros k x Hx; by apply Hkeep'|]. split; [|split].
  - intros k Hk. rewrite Hobj'. subst s1 s0. simpl. by rewrite lookup_insert_ne.
  - intros b Hb. rewrite Hlay' in Hb. rewrite Harr' by done.
    subst s1 s0. simpl. by rewrite lookup_insert_ne.
  - intros k Hk. by rewrite Hexact'.
Qed.

End CopySim.

Section AddSim.
Context {hasher : StdHash}.

Lemma table_at_objects s lay tbl m :
  table_at s lay tbl -> table_at (Ptr.set_objects s m) lay tbl.
Proof. intros Hat. apply (table_at_frame s); [done|apply Hat|done]. Qed.

Lemma layout_insert_id lay (b : nat) h addrs :
  lay_heads lay !! b = Some h -> lay_shape lay !! b = Some addrs ->
  mkLayout (lay_array lay) (<[b := h]> (lay_heads lay)) (<[b := addrs]> (lay_shape lay))
  = lay.
Proof. intros Hh Ha. destruct lay. simpl in *. by rewrite !list_insert_id. Qed.

Lemma frame_objects_only s this lay o :
  frame s (Ptr.set_objects s (<[this := o]> (Ptr.objects s))) this lay.
Proof. split; simpl; [|done|done]. intros k x Hk Hx. by rewrite lookup_insert_ne. Qed.

Lemma reuses_refl s lay : reuses s lay lay.
Proof. split; [by left|]. intros k Hk. by left. Qed.

(** Writing a new count into the node at position [pos] of bucket [b]. *)
Lemma table_at_set_count s lay tbl (b pos : nat) h addrs ch a n nx c :
  table_at s lay tbl ->
  lay_heads lay !! b = Some h -> lay_shape lay !! b = Some addrs -> tbl !! b = Some ch ->
  addrs !! pos = Some a -> ch !! pos = Some n ->
  Ptr.nodes s !! a = Some (Ptr.mkNode (word n) nx (wordCount n)) ->
  table_at (Ptr.set_nodes s (<[a := Ptr.mkNode (word n) nx c]> (Ptr.nodes s))) lay
           (<[b := <[pos := mkNode (word n) c]> ch]> tbl).
Proof.
  intros Hat Hh Ha Hch Hpos Hn Hnode.
  destruct (table_at_bucket s lay tbl b ch Hat Hch) as (h' & addrs' & Hh' & Ha' & Hc & Hnd).
  assert (h' = h) by congruence. assert (addrs' = addrs) by congruence. subst h' addrs'.
  assert (Hin : a ∈ addrs) by (apply list_elem_of_lookup; by exists pos).
  rewrite <- (layout_insert_id lay b h addrs Hh Ha) at 1.
  apply (table_at_replace s); simpl.
  - done.
  - by eapply lookup_lt_Some.
  - rewrite list_insert_id by done. apply Hat.
  - by apply chain_at_set_count.
  - done.
  - intros k Hk Hother. apply rest_elsewhere in Hother as (j & ad & Hne & Hj & Hkj).
    by apply (concat_nodup_apart (lay_shape lay) b j addrs ad k (at_nodup _ _ _ Hat)).
  - intros k x Hother Hx. rewrite lookup_insert_ne; [done|]. intros <-.
    apply rest_elsewhere in Hother as (j & ad & Hne & Hj & Hkj).
    by apply (concat_nodup_apart (lay_shape lay) b j addrs ad a (at_nodup _ _ _ Hat)).
Qed.

Lemma accounted_trans s s1 s2 lay lay1 lay2 :
  accounted s s1 lay lay1 -> accounted s1 s2 lay1 lay2 -> accounted s s2 lay lay2.
Proof.
  intros H1 H2. split.
  - intros k Hk. by apply (acc_objects _ _ _ _ H1), (acc_objects _ _ _ _ H2).
  - intros b Hb. destruct (acc_arrays _ _ _ _ H2 b Hb) as [?|[Hb1 Hne]]; [by left|].
    destruct (acc_arrays _ _ _ _ H1 b Hb1) as [?|?]; [done|by right].
  - intros k Hk. destruct (acc_nodes _ _ _ _ H2 k Hk) as [?|[Hk1 Hne]]; [by left|].
    destruct (acc_nodes _ _ _ _ H1 k Hk1) as [?|?]; [done|by right].
Qed.

(** Nothing new is in use, and the table owns what it owned. *)
Lemma accounted_same s s' lay :
  (forall k, is_Some (Ptr.objects s' !! k) -> is_Some (Ptr.objects s !! k)) ->
  (forall b, is_Some (Ptr.arrays s' !! b) -> is_Some (Ptr.arrays s !! b)) ->
  (forall k, is_Some (Ptr.nodes s' !! k) -> is_Some (Ptr.nodes s !! k)) ->
  accounted s s' lay lay.
Proof.
  intros Ho Ha Hn. split; [done| |].
  - intros b Hb. destruct (decide (b = lay_array lay)); [by left|right]. by split; [apply Ha|].
  - intros k Hk. destruct (decide (k ∈ owned lay)); [by left|right]. by split; [apply Hn|].
Qed.

Lemma accounted_refl s lay : accounted s s lay lay.
Proof. by apply accounted_same. Qed.

Lemma getLoadFactor_sim s this t lay :
  represents s this t lay -> Ptr.getLoadFactor this s = Ok (getLoadFactor t, s).
Proof.
  intros [Hobj _]. unfold Ptr.getLoadFactor.
  by rewrite (bind_ok _ _ _ _ _ (load_object_ok _ _ _ Hobj)).
Qed.

(** The end of [addWord]: [totalWordCount++] and the return. *)
Lemma count_total_sim s this t lay total (count : Z) :
  represents s this t lay -> int_of (totalWordCount t + 1) = Ok total ->
  exists s',
    (o ← Ptr.load_object this;
     incremented ← Ptr.lift (int_of (Ptr.totalWordCount o + 1));
     Ptr.store_object this
       (Ptr.mkObject (Ptr.capacity o) incremented (Ptr.uniqueWordCount o)
          (Ptr.wordTable o));;
     mret count) s = Ok (count, s') /\
    represents s' this (set_totalWordCount t total) lay /\
    Ptr.arrays s' = Ptr.arrays s /\ Ptr.nodes s' = Ptr.nodes s /\
    (forall k, k <> this -> Ptr.objects s' !! k = Ptr.objects s !! k) /\
    accounted s s' lay lay.
Proof.
  intros [Hobj Hat] Htotal. eexists. split.
  { rewrite (bind_ok _ _ _ _ _ (load_object_ok _ _ _ Hobj)).
    cbn [Ptr.capacity Ptr.totalWordCount Ptr.uniqueWordCount Ptr.wordTable].
    rewrite (bind_ok _ _ _ _ _ (lift_ok _ _ _ Htotal)).
    rewrite (bind_ok _ _ _ _ _ (store_object_ok _ _ _ _ Hobj)). done. }
  split; [|split; [done|split; [done|split]]].
  - split; simpl; [by rewrite lookup_insert_eq|]. by apply table_at_objects.
  - intros k Hk. simpl. by rewrite lookup_insert_ne.
  - apply accounted_same; simpl; [|done|done]. intros k Hk.
    destruct (decide (k = this)) as [->|Hne]; [by rewrite Hobj|].
    by rewrite lookup_insert_ne in Hk.
Qed.

(** [addWord] on the store does what [addWord] on tables does. *)
Lemma addWord_sim s this t lay w n t' :
  represents s this t lay -> length (wordTable t) = Z.to_nat (capacity t) ->
  addWord t w = Ok (n, t') ->
  exists s' lay',
    Ptr.addWord this w s = Ok (n, s') /\ represents s' this t' lay' /\
    frame s s' this lay /\ reuses s lay lay' /\ accounted s s' lay lay'.
Proof.
  intros Hrep Hlen Hadd. unfold addWord in Hadd.
  destruct (getWordNode t w) as [r|f] eqn:Hget; [|done]. simpl in Hadd.
  destruct (getWordNode_sim s this t lay w r Hrep Hget)
    as (bucket & ch & h & addrs & Hb & Hb0 & Hch & Hh & Ha & Hc & Hnd & -> & Hrun).
  destruct Hrep as [Hobj Hat].
  unfold Ptr.addWord. rewrite (bind_ok _ _ _ _ _ Hrun).
  destruct (find_node w ch 0) as [pos|] eqn:Hfind; simpl in Hadd.
  - (* the word is stored: its node is written in place *)
    pose proof (find_node_count w ch 0) as Hf. rewrite Hfind in Hf.
    destruct Hf as (m & Hm & Hw & _). rewrite Nat.sub_0_r in Hm.
    assert (Hnode : node_at t (bucket, pos) = Ok m).
    { unfold node_at. simpl. rewrite (array_get_nat _ _ _ Hb0 Hch). simpl. by rewrite Hm. }
    rewrite Hnode in Hadd. simpl in Hadd.
    destruct (int_of (wordCount m + 1)) as [inc|f] eqn:Hinc; [|done]. simpl in Hadd.
    set (m' := mkNode (word m) inc) in *.
    set (tbl1 := <[Z.to_nat bucket := <[pos := m']> ch]> (wordTable t)).
    assert (Hset : set_node_at t (bucket, pos) m' = Ok (set_wordTable t tbl1)).
    { unfold set_node_at. simpl. rewrite (array_get_nat _ _ _ Hb0 Hch). simpl.
      apply lookup_lt_Some in Hm as Hlt. apply Nat.ltb_lt in Hlt as Hltb. rewrite Hltb.
      rewrite array_set_nat; [done|done|]. by eapply lookup_lt_Some. }
    rewrite Hset in Hadd. simpl in Hadd.
    assert (Hnode' : node_at (set_wordTable t tbl1) (bucket, pos) = Ok m').
    { unfold node_at. simpl. subst tbl1.
      rewrite (array_get_nat _ bucket (<[pos := m']> ch) Hb0)
        by (apply list_lookup_insert_eq; by eapply lookup_lt_Some).
      simpl. rewrite list_lookup_insert_eq by (by eapply lookup_lt_Some). done. }
    rewrite Hnode' in Hadd. simpl in Hadd.
    destruct (int_of (totalWordCount t + 1)) as [total|f] eqn:Htotal; [|done].
    simpl in Hadd. inversion Hadd; subst n t'; clear Hadd.
    destruct (lookup_lt_is_Some_2 addrs pos) as [a Hpos].
    { rewrite (chain_at_length _ _ _ _ Hc). by eapply lookup_lt_Some. }
    rewrite Hpos.
    destruct (chain_at_lookup _ _ _ _ _ _ Hc Hpos) as (m0 & nx & Hm0 & Hnode0).
    rewrite Hm in Hm0. inversion Hm0; subst m0.
    set (s1 := Ptr.set_nodes s (<[a := Ptr.mkNode (word m) nx inc]> (Ptr.nodes s))).
    assert (Hnode1 : Ptr.nodes s1 !! a = Some (Ptr.mkNode (word m) nx inc))
      by (subst s1; simpl; by rewrite lookup_insert_eq).
    assert (Hobj1 : Ptr.objects s1 !! this = Some _) by exact Hobj.
    eexists _, lay. split.
    { rewrite bind_assoc, (bind_ok _ _ _ _ _ (load_node_ok _ _ _ Hnode0)).
      cbn [Ptr.word Ptr.next Ptr.wordCount].
      rewrite bind_assoc, (bind_ok _ _ _ _ _ (lift_ok _ _ _ Hinc)).
      rewrite bind_assoc, (bind_ok _ _ _ _ _ (store_node_ok _ _ _ _ Hnode0)). fold s1.
      rewrite bind_assoc, (bind_ok _ _ _ _ _ (load_node_ok _ _ _ Hnode1)).
      rewrite ret_bind. cbn [Ptr.wordCount].
      rewrite (bind_ok _ _ _ _ _ (load_object_ok _ _ _ Hobj1)).
      cbn [Ptr.capacity Ptr.totalWordCount Ptr.uniqueWordCount Ptr.wordTable].
      rewrite (bind_ok _ _ _ _ _ (lift_ok _ _ _ Htotal)).
      rewrite (bind_ok _ _ _ _ _ (store_object_ok _ _ _ _ Hobj1)). done. }
    split; [|split; [|split]].
    + split; simpl; [by rewrite lookup_insert_eq|].
      apply table_at_objects. subst s1 tbl1 m'.
      by apply (table_at_set_count s lay (wordTable t) _ pos h addrs ch a m nx inc).
    + split; simpl.
      * intros k x Hk Hx. by rewrite lookup_insert_ne.
      * done.
      * intros k x Hk Hx. rewrite lookup_insert_ne; [done|]. intros <-.
        apply Hk. eapply owned_bucket; [done|]. apply list_elem_of_lookup. by exists pos.
    + apply reuses_refl.
    + apply accounted_same; simpl; [|done|].
      * intros k Hk. destruct (decide (k = this)) as [->|Hne]; [by rewrite Hobj|].
        by rewrite lookup_insert_ne in Hk.
      * intros k Hk. destruct (decide (k = a)) as [->|Hne]; [by rewrite Hnode0|].
        by rewrite lookup_insert_ne in Hk.
  - (* a new word: a new node in front of its chain *)
    rewrite Hb in Hadd. simpl in Hadd.
    rewrite (array_get_nat _ _ _ Hb0 Hch) in Hadd. simpl in Hadd.
    assert (Hblt : (Z.to_nat bucket < length (wordTable t))%nat)
      by (by eapply lookup_lt_Some).
    rewrite (array_set_nat _ _ _ Hb0 Hblt) in Hadd. simpl in Hadd.
    destruct (int_of (uniqueWordCount t + 1)) as [unique|f] eqn:Hunique; [|done].
    simpl in Hadd.
    set (tbl1 := <[Z.to_nat bucket := mkNode w NEW_WORD_COUNT :: ch]> (wordTable t)) in *.
    set (t2 := set_uniqueWordCount (set_wordTable t tbl1) unique) in *.
    assert (Hnode2 : node_at t2 (bucket, 0%nat) = Ok (mkNode w NEW_WORD_COUNT)).
    { unfold node_at. simpl. subst tbl1.
      rewrite (array_get_nat _ bucket (mkNode w NEW_WORD_COUNT :: ch) Hb0)
        by (by apply list_lookup_insert_eq).
      done. }
    rewrite Hnode2 in Hadd. simpl in Hadd.
    set (a := Ptr.fresh_addr (Ptr.nodes s)).
    assert (Hfresh : Ptr.nodes s !! a = None) by apply fresh_addr_fresh.
    set (s1 := Ptr.set_nodes s (<[a := Ptr.mkNode w h NEW_WORD_COUNT]> (Ptr.nodes s))).
    set (s2 := Ptr.set_arrays s1
                 (<[lay_array lay := <[Z.to_nat bucket := Some a]> (lay_heads lay)]>
                    (Ptr.arrays s))).
    set (s3 := Ptr.set_objects s2
                 (<[this := Ptr.mkObject (capacity t) (totalWordCount t) unique
                              (Some (lay_array lay))]> (Ptr.objects s))).
    set (lay2 := mkLayout (lay_array lay) (<[Z.to_nat bucket := Some a]> (lay_heads lay))
                   (<[Z.to_nat bucket := a :: addrs]> (lay_shape lay))).
    assert (Hat2 : table_at s2 lay2 tbl1)
      by (by apply (table_at_push s lay (wordTable t) _ h addrs ch a w NEW_WORD_COUNT)).
    assert (Hrep3 : represents s3 this t2 lay2).
    { split; [subst s3; simpl; by rewrite lookup_insert_eq|].
      by apply table_at_objects. }
    assert (Hlen2 : length (wordTable t2) = Z.to_nat (capacity t2)).
    { subst t2 tbl1. simpl. by rewrite length_insert. }
    assert (Hacc3 : accounted s s3 lay lay2).
    { split; subst s3 s2 s1; simpl.
      - intros k Hk. destruct (decide (k = this)) as [->|Hne]; [by rewrite Hobj|].
        by rewrite lookup_insert_ne in Hk.
      - intros b0 Hb1. destruct (decide (b0 = lay_array lay)) as [->|Hne]; [by left|].
        right. by rewrite lookup_insert_ne in Hb1.
      - intros k Hk. destruct (decide (k = a)) as [->|Hne].
        { left. apply (owned_push_2 lay _ a addrs _ a Ha). by left. }
        rewrite lookup_insert_ne in Hk by done.
        destruct (decide (k ∈ owned lay)) as [Hin|Hout]; [|by right].
        left. apply (owned_push_2 lay _ a addrs _ k Ha). by right. }
    assert (Hnew : Ptr.new_node (Ptr.mkNode w h NEW_WORD_COUNT) s = Ok (Some a, s1)) by done.
    assert (Hstore : Ptr.array_store (Some (lay_array lay)) bucket (Some a) s1 = Ok (tt, s2)).
    { rewrite (array_store_ok s1 _ (lay_heads lay)); [done|apply Hat|done|].
      rewrite (at_heads _ _ _ Hat). done. }
    assert (Hobj2 : Ptr.objects s2 !! this = Some _) by exact Hobj.
    assert (Hhead : <[Z.to_nat bucket := Some a]> (lay_heads lay) !! Z.to_nat bucket
                    = Some (Some a)).
    { apply list_lookup_insert_eq. rewrite (at_heads _ _ _ Hat). done. }
    assert (Hnode3 : Ptr.nodes s3 !! a = Some (Ptr.mkNode w h NEW_WORD_COUNT))
      by (subst s3 s2 s1; simpl; by rewrite lookup_insert_eq).
    rewrite bind_assoc, (bind_ok _ _ _ _ _ (load_object_ok _ _ _ Hobj)).
    cbn [Ptr.capacity Ptr.totalWordCount Ptr.uniqueWordCount Ptr.wordTable].
    rewrite bind_assoc, (bind_ok _ _ _ _ _ (lift_ok _ _ _ Hb)).
    rewrite bind_assoc,
      (bind_ok _ _ _ _ _ (array_load_ok _ _ _ _ _ (at_array _ _ _ Hat) Hb0 Hh)).
    rewrite bind_assoc, (bind_ok _ _ _ _ _ Hnew).
    rewrite bind_assoc, (bind_ok _ _ _ _ _ Hstore).
    rewrite bind_assoc, (bind_ok _ _ _ _ _ (lift_ok _ _ _ Hunique)).
    rewrite bind_assoc, (bind_ok _ _ _ _ _ (store_object_ok _ _ _ _ Hobj2)). fold s3.
    rewrite bind_assoc,
      (bind_ok _ _ _ _ _ (array_load_ok s3 _ _ _ _ (at_array _ _ _ Hat2) Hb0 Hhead)).
    rewrite bind_assoc, (bind_ok _ _ _ _ _ (load_node_ok _ _ _ Hnode3)).
    cbn [Ptr.wordCount].
    rewrite bind_assoc, (bind_ok _ _ _ _ _ (getLoadFactor_sim _ _ _ _ Hrep3)).
    rewrite bind_assoc, (bind_ok _ _ _ _ _ (load_object_ok _ _ _ (rep_object _ _ _ _ Hrep3))).
    cbn [Ptr.capacity Ptr.totalWordCount Ptr.uniqueWordCount Ptr.wordTable].
    change (capacity t2) with (capacity t).
    destruct (Qltb MAX_LOAD_FACTOR (getLoadFactor t2) && (capacity t <? MAX_CAPACITY))
      eqn:Hcond.
    + (* the table grows *)
      destruct (int_of (capacity t * 2)) as [doubled|f] eqn:Hdoubled; [|done].
      simpl in Hadd.
      destruct (resize t2 doubled) as [t3|f] eqn:Hres; [|done]. simpl in Hadd.
      destruct (int_of (totalWordCount t3 + 1)) as [total|f] eqn:Htotal; [|done].
      simpl in Hadd. inversion Hadd; subst n t'; clear Hadd.
      destruct (resize_sim s3 this t2 lay2 doubled t3 Hrep3 Hlen2 Hres)
        as (s4 & lay4 & Hrun4 & Hrep4 & Hframe4 & Hreuse4 & Hacc4).
      destruct (count_total_sim s4 this t3 lay4 total NEW_WORD_COUNT Hrep4 Htotal)
        as (s5 & Hrun5 & Hrep5 & Harr5 & Hnodes5 & Hobj5 & Hacc5).
      exists s5, lay4. split.
      { rewrite bind_assoc, bind_assoc.
        rewrite (bind_ok _ _ _ _ _ (lift_ok (Ok doubled) _ _ eq_refl)).
        rewrite (bind_ok _ _ _ _ _ Hrun4). rewrite ret_bind. exact Hrun5. }
      split; [done|].
      split; [|split;
        [|exact (accounted_trans _ _ _ _ _ _ (accounted_trans _ _ _ _ _ _ Hacc3 Hacc4)
                   Hacc5)]].
      * split.
        -- intros k x Hk Hx. rewrite Hobj5 by done.
           apply (frame_objects _ _ _ _ Hframe4); [done|].
           subst s3. simpl. by rewrite lookup_insert_ne.
        -- intros b x Hne Hx. rewrite Harr5.
           apply (frame_arrays _ _ _ _ Hframe4); [done|].
           subst s3 s2. simpl. by rewrite lookup_insert_ne.
        -- intros k x Hk Hx. rewrite Hnodes5.
           assert (k <> a) by (intros ->; congruence).
           apply (frame_nodes _ _ _ _ Hframe4).
           ++ intros Hin. apply (owned_push lay _ a addrs k Ha) in Hin as [?|?]; done.
           ++ subst s3 s2 s1. simpl. by rewrite lookup_insert_ne.
      * split.
        -- destruct (reuses_array _ _ _ Hreuse4) as [He|He]; [by left|right].
           subst s3 s2. simpl in He. by apply lookup_insert_None in He as [? _].
        -- intros k Hk. destruct (reuses_nodes _ _ _ Hreuse4 k Hk) as [Hin|Hnone].
           ++ apply (owned_push lay _ a addrs k Ha) in Hin as [->|?]; [by right|by left].
           ++ right. subst s3 s2 s1. simpl in Hnone.
              by apply lookup_insert_None in Hnone as [? _].
    + (* the capacity stays *)
      simpl in Hadd.
      destruct (int_of (totalWordCount t + 1)) as [total|f] eqn:Htotal; [|done].
      simpl in Hadd. inversion Hadd; subst n t'; clear Hadd.
      destruct (count_total_sim s3 this t2 lay2 total NEW_WORD_COUNT Hrep3 Htotal)
        as (s5 & Hrun5 & Hrep5 & Harr5 & Hnodes5 & Hobj5 & Hacc5).
      exists s5, lay2. split.
      { rewrite bind_assoc, ret_bind, ret_bind. exact Hrun5. }
      split; [done|].
      split; [|split; [|exact (accounted_trans _ _ _ _ _ _ Hacc3 Hacc5)]].
      * split.
        -- intros k x Hk Hx. rewrite Hobj5 by done.
           subst s3. simpl. by rewrite lookup_insert_ne.
        -- intros b x Hne Hx. rewrite Harr5.
           subst s3 s2. simpl. by rewrite lookup_insert_ne.
        -- intros k x Hk Hx. rewrite Hnodes5.
           assert (k <> a) by (intros ->; congruence).
           subst s3 s2 s1. simpl. by rewrite lookup_insert_ne.
      * split; [by left|].
        intros k Hk. apply (owned_push lay _ a addrs k Ha) in Hk as [->|?];
          [by right|by left].
Qed.

End AddSim.

Section RemoveSim.
Context {hasher : StdHash}.

(** Frames compose along layouts that reuse storage. *)
Lemma frame_trans s s1 s2 this lay lay1 :
  frame s s1 this lay -> reuses s lay lay1 -> frame s1 s2 this lay1 ->
  frame s s2 this lay.
Proof.
  intros Hf Hr Hf1. split.
  - intros o x Ho Hx. apply (frame_objects _ _ _ _ Hf1); [done|].
    by apply (frame_objects _ _ _ _ Hf).
  - intros b x Hb Hx. apply (frame_arrays _ _ _ _ Hf1).
    + intros ->. destruct (reuses_array _ _ _ Hr) as [He|He]; congruence.
    + by apply (frame_arrays _ _ _ _ Hf).
  - intros k x Hk Hx. apply (frame_nodes _ _ _ _ Hf1).
    + intros Hin. destruct (reuses_nodes _ _ _ Hr k Hin) as [He|He]; [done|congruence].
    + by apply (frame_nodes _ _ _ _ Hf).
Qed.

Lemma reuses_trans s s1 this lay lay1 lay2 :
  frame s s1 this lay -> reuses s lay lay1 -> reuses s1 lay1 lay2 ->
  reuses s lay lay2.
Proof.
  intros Hf Hr Hr1. split.
  - destruct (reuses_array _ _ _ Hr1) as [He|He].
    + rewrite He. apply Hr.
    + destruct (decide (lay_array lay2 = lay_array lay)) as [?|Hne]; [by left|right].
      destruct (Ptr.arrays s !! lay_array lay2) as [x|] eqn:Hx; [|done].
      rewrite (frame_arrays _ _ _ _ Hf _ x Hne Hx) in He. done.
  - intros k Hk. destruct (reuses_nodes _ _ _ Hr1 k Hk) as [Hin|Hnone].
    + by apply (reuses_nodes _ _ _ Hr).
    + destruct (decide (k ∈ owned lay)) as [?|Hout]; [by left|right].
      destruct (Ptr.nodes s !! k) as [x|] eqn:Hx; [|done].
      rewrite (frame_nodes _ _ _ _ Hf _ x Hout Hx) in Hnone. done.
Qed.

(** The check at the end of [removeWord] and the shrinking it may start. *)
Lemma shrink_sim s this t lay t' :
  represents s this t lay -> length (wordTable t) = Z.to_nat (capacity t) ->
  (if Qltb (getLoadFactor t) MIN_LOAD_FACTOR && (MIN_CAPACITY <? capacity t)
   then resize t (capacity t ÷ 2) else mret t) = Ok t' ->
  exists s' lay',
    (load ← Ptr.getLoadFactor this;
     o ← Ptr.load_object this;
     if Qltb load MIN_LOAD_FACTOR && (MIN_CAPACITY <? Ptr.capacity o)
     then Ptr.resize this (Ptr.capacity o ÷ 2) else mret tt) s = Ok (tt, s') /\
    represents s' this t' lay' /\ frame s s' this lay /\ reuses s lay lay' /\
    accounted s s' lay lay'.
Proof.
  intros Hrep Hlen Hrun.
  rewrite (bind_ok _ _ _ _ _ (getLoadFactor_sim _ _ _ _ Hrep)).
  rewrite (bind_ok _ _ _ _ _ (load_object_ok _ _ _ (rep_object _ _ _ _ Hrep))).
  cbn [Ptr.capacity].
  destruct (Qltb (getLoadFactor t) MIN_LOAD_FACTOR && (MIN_CAPACITY <? capacity t)).
  - exact (resize_sim s this t lay _ t' Hrep Hlen Hrun).
  - inversion Hrun; subst t'. exists s, lay. split; [done|]. split; [done|].
    split; [by split|]. split; [apply reuses_refl|apply accounted_refl].
Qed.

(** [updateWordCountsPostRemoval] on the store. *)
Lemma updateWordCountsPostRemoval_ok s this o toSubtract total unique :
  Ptr.objects s !! this = Some o ->
  int_of (Ptr.totalWordCount o - toSubtract) = Ok total ->
  int_of (Ptr.uniqueWordCount o - 1) = Ok unique ->
  Ptr.updateWordCountsPostRemoval this toSubtract s =
  Ok (tt, Ptr.set_objects s
            (<[this := Ptr.mkObject (Ptr.capacity o) total unique (Ptr.wordTable o)]>
               (Ptr.objects s))).
Proof.
  intros Hobj Htotal Hunique. unfold Ptr.updateWordCountsPostRemoval.
  rewrite (bind_ok _ _ _ _ _ (load_object_ok _ _ _ Hobj)).
  rewrite (bind_ok _ _ _ _ _ (lift_ok _ _ _ Htotal)).
  rewrite (bind_ok _ _ _ _ _ (lift_ok _ _ _ Hunique)).
  by apply (store_object_ok _ _ o).
Qed.

(** The loop of [removeWord] behind the head: it unlinks and releases the
    first node holding [w], as [unlink] does, or changes nothing. *)
Lemma unlink_loop_ok this w o : forall addrs l ap pn cur s steps,
  Ptr.objects s !! this = Some o ->
  Ptr.nodes s !! ap = Some pn -> Ptr.next pn = cur ->
  chain_at (Ptr.nodes s) cur addrs l -> NoDup (ap :: addrs) ->
  (length addrs < steps)%nat ->
  match unlink w l with
  | Some (c, l') =>
      forall total unique,
        int_of (Ptr.totalWordCount o - c) = Ok total ->
        int_of (Ptr.uniqueWordCount o - 1) = Ok unique ->
        exists s' addrs' nx,
          Ptr.unlink_loop steps this (Some ap) cur w s = Ok (tt, s') /\
          Ptr.objects s' =
            <[this := Ptr.mkObject (Ptr.capacity o) total unique (Ptr.wordTable o)]>
              (Ptr.objects s) /\
          Ptr.arrays s' = Ptr.arrays s /\
          Ptr.nodes s' !! ap = Some (Ptr.mkNode (Ptr.word pn) nx (Ptr.wordCount pn)) /\
          chain_at (Ptr.nodes s') nx addrs' l' /\
          (forall k, k ∈ addrs' -> k ∈ addrs) /\ NoDup addrs' /\
          (forall k, k <> ap -> k ∉ addrs -> Ptr.nodes s' !! k = Ptr.nodes s !! k) /\
          (forall k, k ∈ addrs -> k ∉ addrs' -> Ptr.nodes s' !! k = None) /\
          (forall k, is_Some (Ptr.nodes s' !! k) -> is_Some (Ptr.nodes s !! k))
  | None => Ptr.unlink_loop steps this (Some ap) cur w s = Ok (tt, s)
  end.
Proof.
  induction addrs as [|a0 addrs IH]; intros l ap pn cur s steps Hobj Hap Hnx Hc Hnd Hlen.
  - apply chain_at_nil_inv in Hc as [-> ->]. simpl.
    destruct steps as [|steps]; [simpl in Hlen; lia|]. done.
  - destruct l as [|n l]; [done|]. destruct Hc as (-> & nx0 & Ha0 & Hc).
    destruct steps as [|steps]; [simpl in Hlen; lia|].
    apply NoDup_cons in Hnd as [Hap_out Hnd].
    apply not_elem_of_cons in Hap_out as [Hne Hap_out].
    pose proof Hnd as Hnd0. apply NoDup_cons in Hnd0 as [Ha0_out Hnd_rest].
    cbn [unlink Ptr.unlink_loop].
    destruct (String.eqb (word n) w) eqn:Hw.
    + intros total unique Htotal Hunique.
      pose proof (updateWordCountsPostRemoval_ok s this o (wordCount n) total unique
                    Hobj Htotal Hunique) as Hupd.
      set (s1 := Ptr.set_objects s _) in Hupd.
      assert (Hap1 : Ptr.nodes s1 !! ap = Some pn) by done.
      set (s2 := Ptr.set_nodes s1 (<[ap := Ptr.mkNode (Ptr.word pn) nx0 (Ptr.wordCount pn)]>
                                     (Ptr.nodes s1))).
      assert (Ha2 : Ptr.nodes s2 !! a0 = Some (Ptr.mkNode (word n) nx0 (wordCount n))).
      { subst s2 s1. simpl. by rewrite lookup_insert_ne. }
      exists (Ptr.set_nodes s2 (delete a0 (Ptr.nodes s2))), addrs, nx0. split.
      { rewrite (bind_ok _ _ _ _ _ (load_node_ok _ _ _ Ha0)).
        cbn [Ptr.word Ptr.next Ptr.wordCount]. rewrite Hw.
        rewrite (bind_ok _ _ _ _ _ Hupd).
        rewrite (bind_ok _ _ _ _ _ (load_node_ok _ _ _ Hap1)).
        rewrite (bind_ok _ _ _ _ _ (store_node_ok _ _ _ _ Hap1)).
        by apply (delete_node_ok s2 a0 _ Ha2). }
      subst s2 s1. simpl. split; [done|]. split; [done|]. split.
      { rewrite lookup_delete_ne by done. by rewrite lookup_insert_eq. }
      split.
      { apply (chain_at_frame (Ptr.nodes s)); [done|]. intros k x Hk Hx.
        rewrite lookup_delete_ne by (by intros <-).
        rewrite lookup_insert_ne by (by intros <-). done. }
      split; [intros k Hk; by apply elem_of_cons; right|]. split; [done|].
      split; [|split].
      * intros k Hk1 Hk2. apply not_elem_of_cons in Hk2 as [Hk2 _].
        rewrite lookup_delete_ne by done. by rewrite lookup_insert_ne.
      * intros k Hk1 Hk2. apply elem_of_cons in Hk1 as [->|Hk1]; [|done].
        by rewrite lookup_delete_eq.
      * intros k Hk. destruct (decide (k = a0)) as [->|Hk1];
          [by rewrite lookup_delete_eq in Hk; destruct Hk|].
        rewrite lookup_delete_ne in Hk by done.
        destruct (decide (k = ap)) as [->|Hk2]; [by rewrite Hap|].
        by rewrite lookup_insert_ne in Hk.
    + specialize (IH l a0 (Ptr.mkNode (word n) nx0 (wordCount n)) nx0 s steps
                    Hobj Ha0 eq_refl Hc Hnd ltac:(simpl in Hlen; lia)).
      assert (Hstep : Ptr.unlink_loop (S steps) this (Some ap) (Some a0) w s =
                      Ptr.unlink_loop steps this (Some a0) nx0 w s).
      { cbn [Ptr.unlink_loop].
        rewrite (bind_ok _ _ _ _ _ (load_node_ok _ _ _ Ha0)).
        cbn [Ptr.word Ptr.next Ptr.wordCount]. rewrite Hw.
        rewrite (bind_ok _ _ _ _ _ (load_node_ok _ _ _ Hap)). by rewrite Hnx. }
      cbn [Ptr.unlink_loop] in Hstep.
      destruct (unlink w l) as [[c l']|]; [|by rewrite Hstep].
      intros total unique Htotal Hunique.
      destruct (IH total unique Htotal Hunique)
        as (s' & addrs' & nx & Hrun & Hobj' & Harr' & Ha0' & Hc' & Hsub & Hnd' & Hkeep
            & Hfreed & Hused).
      cbn [Ptr.word Ptr.wordCount] in Ha0'.
      exists s', (a0 :: addrs'), (Some a0). split; [by rewrite Hstep|].
      split; [done|]. split; [done|]. split.
      { rewrite Hkeep by done. rewrite Hap. destruct pn; simpl in *. by subst. }
      split; [simpl; split; [done|]; by exists nx|]. split.
      { intros k Hk. apply elem_of_cons in Hk as [->|Hk]; apply elem_of_cons;
          [by left|right; by apply Hsub]. }
      split.
      { apply NoDup_cons. split; [|done]. intros Hin. by apply Ha0_out, Hsub. }
      split; [|split; [|done]].
      * intros k Hk1 Hk2. apply not_elem_of_cons in Hk2 as [Hk2 Hk3]. by apply Hkeep.
      * intros k Hk1 Hk2. apply not_elem_of_cons in Hk2 as [Hk2 Hk3].
        apply elem_of_cons in Hk1 as [->|Hk1]; [done|]. by apply Hfreed.
Qed.

(** The middle of [removeWord]: the node of [w] leaves the chain of its
    bucket, from the head or from behind it. *)
Lemma unlink_sim s this t lay w bucket first rest t1 :
  represents s this t lay -> 0 <= bucket ->
  wordTable t !! Z.to_nat bucket = Some (first :: rest) ->
  (if String.eqb (word first) w then
     t ← updateWordCountsPostRemoval t (wordCount first);
     tbl ← array_set (wordTable t) bucket rest;
     mret (set_wordTable t tbl)
   else
     match unlink w rest with
     | Some (toSubtract, rest') =>
         t ← updateWordCountsPostRemoval t toSubtract;
         tbl ← array_set (wordTable t) bucket (first :: rest');
         mret (set_wordTable t tbl)
     | None => mret t
     end) = Ok t1 ->
  exists a0 nx s1 lay1,
    lay_heads lay !! Z.to_nat bucket = Some (Some a0) /\
    Ptr.nodes s !! a0 = Some (Ptr.mkNode (word first) nx (wordCount first)) /\
    (if String.eqb (word first) w then
       Ptr.updateWordCountsPostRemoval this (wordCount first);;
       Ptr.array_store (Some (lay_array lay)) bucket nx;;
       Ptr.delete_node (Some a0)
     else
       steps ← Ptr.walk_bound;
       Ptr.unlink_loop steps this (Some a0) nx w) s = Ok (tt, s1) /\
    represents s1 this t1 lay1 /\ frame s s1 this lay /\ reuses s lay lay1 /\
    length (wordTable t1) = length (wordTable t) /\ capacity t1 = capacity t /\
    accounted s s1 lay lay1.
Proof.
  intros [Hobj Hat] Hb0 Hch Hblock.
  destruct (table_at_bucket s lay _ _ _ Hat Hch) as (h & addrs & Hh & Ha & Hc & Hnd).
  destruct addrs as [|a0 addrs]; [done|]. destruct Hc as (-> & nx & Ha0 & Hc).
  pose proof Hnd as Hnd0. apply NoDup_cons in Hnd0 as [Ha0_out Hnd_rest].
  set (b := Z.to_nat bucket) in *.
  assert (Hblt : (b < length (wordTable t))%nat) by (by eapply lookup_lt_Some).
  assert (Hother : forall k,
            k ∈ concat (take b (lay_shape lay)) ++ concat (drop (S b) (lay_shape lay)) ->
            k ∉ a0 :: addrs).
  { intros k Hk Hin. apply rest_elsewhere in Hk as (j & ad & Hne & Hj & Hkj).
    by apply (concat_nodup_apart (lay_shape lay) b j (a0 :: addrs) ad k
                (at_nodup _ _ _ Hat)). }
  assert (Hown : forall ad k, (forall x, x ∈ ad -> x ∈ a0 :: addrs) ->
            k ∈ owned (mkLayout (lay_array lay) (lay_heads lay)
                         (<[b := ad]> (lay_shape lay))) -> k ∈ owned lay).
  { intros ad k Hsub Hk. apply owned_replace in Hk as [Hk|Hk].
    - eapply owned_bucket; [exact Ha|]. by apply Hsub.
    - by eapply others_owned.
    - rewrite (at_shape _ _ _ Hat). done. }
  exists a0, nx.
  destruct (String.eqb (word first) w) eqn:Hw.
  - (* the head of the chain *)
    unfold updateWordCountsPostRemoval in Hblock.
    destruct (int_of (totalWordCount t - wordCount first)) as [total|f] eqn:Htotal; [|done].
    destruct (int_of (uniqueWordCount t - 1)) as [unique|f] eqn:Hunique; [|done].
    simpl in Hblock. rewrite (array_set_nat _ _ _ Hb0 Hblt) in Hblock.
    simpl in Hblock. inversion Hblock; subst t1; clear Hblock. fold b.
    pose proof (updateWordCountsPostRemoval_ok s this _ (wordCount first) total unique
                  Hobj Htotal Hunique) as Hupd.
    cbn [Ptr.capacity Ptr.wordTable] in Hupd.
    set (s1 := Ptr.set_objects s _) in Hupd.
    assert (Hstore : Ptr.array_store (Some (lay_array lay)) bucket nx s1 =
                     Ok (tt, Ptr.set_arrays s1
                               (<[lay_array lay := <[b := nx]> (lay_heads lay)]>
                                  (Ptr.arrays s1)))).
    { apply (array_store_ok s1); [apply Hat|done|]. fold b.
      by rewrite (at_heads _ _ _ Hat). }
    set (s2 := Ptr.set_arrays s1 _) in Hstore.
    assert (Ha2 : Ptr.nodes s2 !! a0 = Some (Ptr.mkNode (word first) nx (wordCount first)))
      by done.
    set (s3 := Ptr.set_nodes s2 (delete a0 (Ptr.nodes s2))).
    exists s3, (mkLayout (lay_array lay) (<[b := nx]> (lay_heads lay))
                  (<[b := addrs]> (lay_shape lay))).
    split; [done|]. split; [done|]. split.
    { rewrite (bind_ok _ _ _ _ _ Hupd). rewrite (bind_ok _ _ _ _ _ Hstore).
      by apply (delete_node_ok s2 a0 _ Ha2). }
    split; [|split; [|split; [|split; [|split]]]].
    + split; [subst s3 s2 s1; simpl; by rewrite lookup_insert_eq|]. simpl.
      apply (table_at_replace s); [done|done| | |done| |].
      * subst s3 s2 s1. simpl. by rewrite lookup_insert_eq.
      * apply (chain_at_frame (Ptr.nodes s)); [done|]. intros k x Hk Hx.
        subst s3 s2 s1. simpl. rewrite lookup_delete_ne; [done|]. by intros <-.
      * intros k Hk Hin. apply (Hother k Hin). apply elem_of_cons. by right.
      * intros k x Hk Hx. subst s3 s2 s1. simpl. rewrite lookup_delete_ne; [done|].
        intros <-. apply (Hother a0 Hk). apply elem_of_cons. by left.
    + split; subst s3 s2 s1; simpl.
      * intros k x Hk Hx. by rewrite lookup_insert_ne.
      * intros k x Hk Hx. by rewrite lookup_insert_ne.
      * intros k x Hk Hx. rewrite lookup_delete_ne; [done|]. intros <-.
        apply Hk. eapply owned_bucket; [exact Ha|]. apply elem_of_cons. by left.
    + split; [by left|]. intros k Hk. left.
      apply (Hown addrs k); [intros x Hx; apply elem_of_cons; by right|].
      unfold owned in *. exact Hk.
    + simpl. by rewrite length_insert.
    + done.
    + split; subst s3 s2 s1; simpl.
      * intros k Hk. destruct (decide (k = this)) as [->|Hne]; [by rewrite Hobj|].
        by rewrite lookup_insert_ne in Hk.
      * intros b0 Hb1. destruct (decide (b0 = lay_array lay)) as [->|Hne]; [by left|].
        right. by rewrite lookup_insert_ne in Hb1.
      * intros k Hk. destruct (decide (k = a0)) as [->|Hne];
          [by rewrite lookup_delete_eq in Hk; destruct Hk|].
        rewrite lookup_delete_ne in Hk by done.
        destruct (decide (k ∈ owned lay)) as [Hin|Hout]; [left|by right].
        apply (owned_replace_2 lay b addrs k); [by rewrite (at_shape _ _ _ Hat)|].
        apply (owned_split lay b _ k Ha) in Hin as [Hin|Hin]; [left|by right].
        by apply elem_of_cons in Hin as [?|?].
  - destruct (unlink w rest) as [[c rest']|] eqn:Hunlink.
    + (* a node behind the head *)
      unfold updateWordCountsPostRemoval in Hblock.
      destruct (int_of (totalWordCount t - c)) as [total|f] eqn:Htotal; [|done].
      destruct (int_of (uniqueWordCount t - 1)) as [unique|f] eqn:Hunique; [|done].
      simpl in Hblock. rewrite (array_set_nat _ _ _ Hb0 Hblt) in Hblock.
      simpl in Hblock. inversion Hblock; subst t1; clear Hblock. fold b.
      pose proof (unlink_loop_ok this w _ addrs rest a0 _ nx s (S (size (Ptr.nodes s)))
                    Hobj Ha0 eq_refl Hc Hnd) as Hloop.
      rewrite Hunlink in Hloop.
      destruct (Hloop ltac:(pose proof (table_at_walk_bound _ _ _ _ _ Hat Ha) as Hwb;
                            simpl in Hwb; lia) total unique Htotal Hunique)
        as (s1 & addrs' & nx' & Hrun & Hobj1 & Harr1 & Ha1 & Hc1 & Hsub & Hnd1 & Hkeep
            & Hfreed & Hused).
      cbn [Ptr.capacity Ptr.wordTable Ptr.word Ptr.wordCount] in *.
      exists s1, (mkLayout (lay_array lay) (<[b := Some a0]> (lay_heads lay))
                    (<[b := a0 :: addrs']> (lay_shape lay))).
      split; [done|]. split; [done|]. split.
      { unfold Ptr.walk_bound at 1. unfold mbind at 1, Ptr.M_bind at 1. exact Hrun. }
      assert (Hsub' : forall x, x ∈ a0 :: addrs' -> x ∈ a0 :: addrs).
      { intros x Hx. apply elem_of_cons in Hx as [->|Hx]; apply elem_of_cons;
          [by left|right; by apply Hsub]. }
      split; [|split; [|split; [|split; [|split]]]].
      * split; [simpl; by rewrite Hobj1, lookup_insert_eq|]. simpl.
        apply (table_at_replace s); [done|done| | | | |].
        -- rewrite Harr1, list_insert_id by done. apply Hat.
        -- simpl. split; [done|]. by exists nx'.
        -- apply NoDup_cons. split; [|done]. intros Hin. by apply Ha0_out, Hsub.
        -- intros k Hk Hin. by apply (Hother k Hin), Hsub'.
        -- intros k x Hk Hx. specialize (Hother k Hk).
           apply not_elem_of_cons in Hother as [Hne Hout]. by rewrite Hkeep.
      * split.
        -- intros k x Hk Hx. by rewrite Hobj1, lookup_insert_ne.
        -- intros k x Hk Hx. by rewrite Harr1.
        -- intros k x Hk Hx. rewrite Hkeep; [done| |].
           ++ intros ->. apply Hk. eapply owned_bucket; [exact Ha|].
              apply elem_of_cons. by left.
           ++ intros Hin. apply Hk. eapply owned_bucket; [exact Ha|].
              apply elem_of_cons. by right.
      * split; [by left|]. intros k Hk. left. apply (Hown (a0 :: addrs') k Hsub').
        unfold owned in *. exact Hk.
      * simpl. by rewrite length_insert.
      * done.
      * split; simpl.
        -- intros k Hk. rewrite Hobj1 in Hk.
           destruct (decide (k = this)) as [->|Hne]; [by rewrite Hobj|].
           by rewrite lookup_insert_ne in Hk.
        -- intros b0 Hb1. rewrite Harr1 in Hb1.
           destruct (decide (b0 = lay_array lay)) as [->|Hne]; [by left|by right].
        -- intros k Hk. pose proof (Hused k Hk) as Hk0.
           destruct (decide (k ∈ owned lay)) as [Hin|Hout]; [left|by right].
           apply (owned_replace_2 lay b (a0 :: addrs') k);
             [by rewrite (at_shape _ _ _ Hat)|].
           apply (owned_split lay b _ k Ha) in Hin as [Hin|Hin]; [left|by right].
           apply elem_of_cons in Hin as [->|Hin]; [apply elem_of_cons; by left|].
           destruct (decide (k ∈ addrs')) as [?|Hgone]; [apply elem_of_cons; by right|].
           rewrite (Hfreed k Hin Hgone) in Hk. by destruct Hk.
    + (* no node holds the word *)
      inversion Hblock; subst t1; clear Hblock.
      pose proof (unlink_loop_ok this w _ addrs rest a0 _ nx s (S (size (Ptr.nodes s)))
                    Hobj Ha0 eq_refl Hc Hnd) as Hloop.
      rewrite Hunlink in Hloop.
      exists s, lay. split; [done|]. split; [done|]. split.
      { unfold Ptr.walk_bound at 1. unfold mbind at 1, Ptr.M_bind at 1. apply Hloop.
        pose proof (table_at_walk_bound _ _ _ _ _ Hat Ha) as Hwb. simpl in Hwb. lia. }
      split; [done|]. split; [by split|]. split; [apply reuses_refl|].
      split; [done|]. split; [done|]. apply accounted_refl.
Qed.

(** [removeWord] on the store does what [removeWord] on tables does. *)
Lemma removeWord_sim s this t lay w t' :
  represents s this t lay -> length (wordTable t) = Z.to_nat (capacity t) ->
  removeWord t w = Ok t' ->
  exists s' lay',
    Ptr.removeWord this w s = Ok (tt, s') /\ represents s' this t' lay' /\
    frame s s' this lay /\ reuses s lay lay' /\ accounted s s' lay lay'.
Proof.
  intros Hrep Hlen Hrem. unfold removeWord in Hrem.
  destruct (getWordNode t w) as [r|f] eqn:Hget; [|done]. simpl in Hrem.
  destruct (getWordNode_sim s this t lay w r Hrep Hget)
    as (bucket & ch & h & addrs & Hb & Hb0 & Hch & Hh & Ha & Hc & Hnd & -> & Hrun).
  unfold Ptr.removeWord. rewrite (bind_ok _ _ _ _ _ Hrun).
  destruct (find_node w ch 0) as [pos|] eqn:Hfind; simpl in Hrem.
  - pose proof (find_node_count w ch 0) as Hf. rewrite Hfind in Hf.
    destruct Hf as (m & Hm & _). rewrite Nat.sub_0_r in Hm.
    destruct (lookup_lt_is_Some_2 addrs pos) as [a Hpos].
    { rewrite (chain_at_length _ _ _ _ Hc). by eapply lookup_lt_Some. }
    rewrite Hpos. rewrite Hb in Hrem. simpl in Hrem.
    rewrite (array_get_nat _ _ _ Hb0 Hch) in Hrem. simpl in Hrem.
    destruct ch as [|first rest]; [done|].
    match type of Hrem with (?blk ≫= _) = _ => destruct blk as [t1|f] eqn:Hblock end;
      [|done].
    simpl in Hrem.
    destruct (unlink_sim s this t lay w bucket first rest t1 Hrep Hb0 Hch Hblock)
      as (a0 & nx & s1 & lay1 & Hh1 & Ha0 & Hrun1 & Hrep1 & Hframe1 & Hreuse1 & Hlen1 & Hcap1
          & Hacc1).
    destruct (shrink_sim s1 this t1 lay1 t' Hrep1 ltac:(congruence) Hrem)
      as (s2 & lay2 & Hrun2 & Hrep2 & Hframe2 & Hreuse2 & Hacc2).
    exists s2, lay2. split.
    { destruct Hrep as [Hobj Hat].
      rewrite (bind_ok _ _ _ _ _ (load_object_ok _ _ _ Hobj)).
      cbn [Ptr.capacity Ptr.wordTable].
      rewrite (bind_ok _ _ _ _ _ (lift_ok _ _ _ Hb)).
      rewrite (bind_ok _ _ _ _ _ (array_load_ok _ _ _ _ _ (at_array _ _ _ Hat) Hb0 Hh1)).
      rewrite (bind_ok _ _ _ _ _ (load_node_ok _ _ _ Ha0)).
      cbn [Ptr.word Ptr.next Ptr.wordCount].
      rewrite (bind_ok _ _ _ _ _ Hrun1). exact Hrun2. }
    split; [done|]. split; [|split].
    + by apply (frame_trans s s1 s2 this lay lay1).
    + by apply (reuses_trans s s1 this lay lay1 lay2).
    + by apply (accounted_trans s s1 s2 lay lay1 lay2).
  - inversion Hrem; subst t'. exists s, lay. split; [done|]. split; [done|].
    split; [by split|]. split; [apply reuses_refl|apply accounted_refl].
Qed.

End RemoveSim.

Section RunSim.
Context {hasher : StdHash}.

Lemma step_sim s this t lay c t' :
  represents s this t lay -> length (wordTable t) = Z.to_nat (capacity t) ->
  step t c = Ok t' ->
  exists s' lay',
    Ptr.step this c s = Ok (tt, s') /\ represents s' this t' lay' /\
    frame s s' this lay /\ reuses s lay lay' /\ accounted s s' lay lay'.
Proof.
  intros Hrep Hlen Hstep. destruct c as [w|w]; simpl in Hstep.
  - destruct (addWord t w) as [[n t1]|f] eqn:Hadd; [|done]. simpl in Hstep.
    inversion Hstep; subst t1.
    destruct (addWord_sim s this t lay w n t' Hrep Hlen Hadd)
      as (s' & lay' & Hrun & Hrest).
    exists s', lay'. split; [|done]. unfold Ptr.step.
    by rewrite (bind_ok _ _ _ _ _ Hrun).
  - exact (removeWord_sim s this t lay w t' Hrep Hlen Hstep).
Qed.

(** A sequence of calls on the store does what it does on the table, and
    leaves alone what the object does not own. *)
Lemma run_sim calls : forall s this t lay t',
  represents s this t lay -> table_inv t -> run t calls = Ok t' ->
  exists s' lay',
    Ptr.run this calls s = Ok (tt, s') /\ represents s' this t' lay' /\
    frame s s' this lay /\ reuses s lay lay' /\ accounted s s' lay lay'.
Proof.
  induction calls as [|c calls IH]; intros s this t lay t' Hrep Hinv Hrun.
  - inversion Hrun; subst t'. exists s, lay. split; [done|]. split; [done|].
    split; [by split|]. split; [apply reuses_refl|apply accounted_refl].
  - simpl in Hrun. destruct (step t c) as [t1|f] eqn:Hstep; [|done]. simpl in Hrun.
    destruct (step_sim s this t lay c t1 Hrep (inv_length t Hinv) Hstep)
      as (s1 & lay1 & Hrun1 & Hrep1 & Hframe1 & Hreuse1 & Hacc1).
    destruct (step_inv t c t1 Hinv Hstep) as (Hinv1 & _).
    destruct (IH s1 this t1 lay1 t' Hrep1 Hinv1 Hrun)
      as (s' & lay' & Hrun' & Hrep' & Hframe' & Hreuse' & Hacc').
    exists s', lay'. split.
    { cbn [Ptr.run]. by rewrite (bind_ok _ _ _ _ _ Hrun1). }
    split; [done|]. split; [|split].
    + by apply (frame_trans s s1 s' this lay lay1).
    + by apply (reuses_trans s s1 this lay lay1 lay').
    + by apply (accounted_trans s s1 s' lay lay1 lay').
Qed.

(** What the getters answer on an object that represents [t]. *)
Lemma answers_of s this t lay :
  represents s this t lay -> table_inv t ->
  Ptr.getCapacity this s = Ok (capacity t, s) /\
  Ptr.getUniqueWordCount this s = Ok (uniqueWordCount t, s) /\
  Ptr.getTotalWordCount this s = Ok (totalWordCount t, s) /\
  forall w, Ptr.getWordCount this w s = Ok (stored t w, s).
Proof.
  intros Hrep Hinv. pose proof (rep_object _ _ _ _ Hrep) as Hobj.
  unfold Ptr.getCapacity, Ptr.getUniqueWordCount, Ptr.getTotalWordCount.
  rewrite !(bind_ok _ _ _ _ _ (load_object_ok _ _ _ Hobj)).
  repeat (split; [done|]). intros w.
  apply (getWordCount_sim s this t lay); [done|]. by apply getWordCount_stored.
Qed.

Lemma same_answers_of s1 a la s2 b lb t :
  represents s1 a t la -> represents s2 b t lb -> table_inv t ->
  same_answers s1 a s2 b.
Proof.
  intros Ha Hb Hinv.
  destruct (answers_of s1 a t la Ha Hinv) as (Hc1 & Hu1 & Ht1 & Hw1).
  destruct (answers_of s2 b t lb Hb Hinv) as (Hc2 & Hu2 & Ht2 & Hw2).
  split; [by eexists|by eexists|by eexists|]. intros w. by eexists.
Qed.

Lemma separate_sym a la b lb : separate a la b lb -> separate b lb a la.
Proof.
  intros [Ho Ha Hn]. split; [done|done|]. intros k Hk Hin. by apply (Hn k).
Qed.

(** An object keeps representing its table while its own storage stays. *)
Lemma represents_mono s s' this t lay :
  represents s this t lay ->
  Ptr.objects s' !! this = Ptr.objects s !! this ->
  Ptr.arrays s' !! lay_array lay = Ptr.arrays s !! lay_array lay ->
  (forall k x, k ∈ owned lay -> Ptr.nodes s !! k = Some x -> Ptr.nodes s' !! k = Some x) ->
  represents s' this t lay.
Proof.
  intros [Hobj Hat] Ho Ha Hn. split; [by rewrite Ho|].
  apply (table_at_frame s); [done| |done]. rewrite Ha. apply Hat.
Qed.

(** Calls on one table do not change what another, separate table answers. *)
Lemma calls_leave_other s a ta la b tb lb calls :
  represents s a ta la -> table_inv ta -> represents s b tb lb -> table_inv tb ->
  separate a la b lb ->
  totalWordCount ta + Z.of_nat (length calls) <= INT_MAX ->
  unaffected_by s b a calls.
Proof.
  intros Ha Hinva Hb Hinvb Hsep Hbound.
  destruct (run_ok ta calls Hinva Hbound) as [ta' Hrun].
  destruct (run_sim calls s a ta la ta' Ha Hinva Hrun)
    as (s' & la' & Hrun' & Ha' & Hframe & Hreuse & _).
  exists s'. split; [done|].
  apply (same_answers_of s b lb s' b lb tb); [done| |done].
  by apply (represents_frame s s' a tb la b lb).
Qed.

Lemma copied_intro s s' src cp t la lb :
  represents s src t la -> represents s' src t la -> represents s' cp t lb ->
  separate cp lb src la -> table_inv t -> copied s s' src cp t.
Proof.
  intros Hs Hsrc Hcp Hsep Hinv. split.
  - by apply (same_answers_of s src la s' src la t).
  - by apply (same_answers_of s' src la s' cp lb t).
  - exists la, lb. split; [done|]. split; [done|]. by apply separate_sym.
  - intros calls Hbound. split.
    + by apply (calls_leave_other s' cp t lb src t la calls).
    + apply (calls_leave_other s' src t la cp t lb calls); try done.
      by apply separate_sym.
Qed.

(** Storage that was not in use is apart from the storage of a table. *)
Lemma separate_fresh s this lay' other t lay :
  represents s other t lay -> this <> other ->
  Ptr.arrays s !! lay_array lay' = None ->
  (forall k, k ∈ owned lay' -> Ptr.nodes s !! k = None) ->
  separate this lay' other lay.
Proof.
  intros [Hobj Hat] Hne Harr Hnodes. split; [done| |].
  - intros He. rewrite He, (at_array _ _ _ Hat) in Harr. done.
  - intros k Hk Hin. destruct (table_at_in_use s lay _ k Hat Hin) as [x Hx].
    rewrite (Hnodes k Hk) in Hx. done.
Qed.

(** The copy constructor. *)
Lemma WordCounter_copy_sim s src t lay :
  represents s src t lay -> table_inv t ->
  exists s' cp,
    Ptr.WordCounter_copy src s = Ok (cp, s') /\ copied s s' src cp t /\
    Ptr.objects s !! cp = None.
Proof.
  intros Hrep Hinv.
  set (cp := Ptr.fresh_addr (Ptr.objects s)).
  assert (Hfresh : Ptr.objects s !! cp = None) by apply fresh_addr_fresh.
  assert (Hne : cp <> src).
  { intros He. rewrite He, (rep_object _ _ _ _ Hrep) in Hfresh. done. }
  set (s0 := Ptr.set_objects s (<[cp := Ptr.mkObject 0 0 0 None]> (Ptr.objects s))).
  assert (Hrep0 : represents s0 src t lay).
  { apply (represents_mono s); [done| |done|done].
    subst s0. simpl. by rewrite lookup_insert_ne. }
  destruct (copy_sim s0 cp src (Ptr.mkObject 0 0 0 None) t lay Hrep0 (inv_length t Hinv))
    as (s' & lay' & Hrun & Hcp & Harr & Hnodes & Hobjs & Harrs & Hkeep & _);
    [subst s0; simpl; by rewrite lookup_insert_eq|done|].
  assert (Hsrc : represents s' src t lay).
  { apply (represents_mono s0); [done| | |].
    - rewrite (rep_object _ _ _ _ Hrep0). apply Hobjs; [done|]. apply Hrep0.
    - rewrite (at_array _ _ _ (rep_table _ _ _ _ Hrep0)). apply Harrs. apply Hrep0.
    - intros k x _. apply Hkeep. }
  exists s', cp. split.
  { unfold Ptr.WordCounter_copy.
    assert (Hnew : Ptr.new_object s = Ok (cp, s0)) by done.
    rewrite (bind_ok _ _ _ _ _ Hnew). by rewrite (bind_ok _ _ _ _ _ Hrun). }
  split; [|done].
  apply (copied_intro s s' src cp t lay lay'); try done.
  by apply (separate_fresh s0 cp lay' src t lay).
Qed.

(** Assignment from another table. *)
Lemma assign_sim s dst src t0 lay0 t lay :
  represents s dst t0 lay0 -> length (wordTable t0) = Z.to_nat (capacity t0) ->
  represents s src t lay -> table_inv t -> separate dst lay0 src lay ->
  exists s', Ptr.assign dst src s = Ok (tt, s') /\ copied s s' src dst t.
Proof.
  intros Hdst Hlen0 Hrep Hinv Hsep.
  pose proof (sep_objects _ _ _ _ Hsep) as Hne.
  destruct (clear_ok s dst _ lay0 (wordTable t0) (rep_object _ _ _ _ Hdst) eq_refl
              (rep_table _ _ _ _ Hdst))
    as (s1 & Hclear & Hobj1 & Hgone1 & Harr1 & Hdel1 & Hkeep1); [by rewrite Hlen0|].
  assert (Hrep1 : represents s1 src t lay).
  { apply (represents_mono s); [done| | |].
    - rewrite Hobj1. by rewrite lookup_insert_ne.
    - apply Harr1. intros He. by apply (sep_arrays _ _ _ _ Hsep).
    - intros k x Hk Hx. rewrite Hkeep1; [done|]. intros Hin.
      by apply (sep_nodes _ _ _ _ Hsep k). }
  cbn [Ptr.capacity Ptr.totalWordCount Ptr.uniqueWordCount] in Hobj1.
  destruct (copy_sim s1 dst src
              (Ptr.mkObject (capacity t0) (totalWordCount t0) (uniqueWordCount t0) None)
              t lay Hrep1 (inv_length t Hinv))
    as (s' & lay' & Hrun & Hcp & Harr & Hnodes & Hobjs & Harrs & Hkeep & _);
    [rewrite Hobj1; by rewrite lookup_insert_eq|done|].
  assert (Hsrc : represents s' src t lay).
  { apply (represents_mono s1); [done| | |].
    - rewrite (rep_object _ _ _ _ Hrep1). apply Hobjs; [done|]. apply Hrep1.
    - rewrite (at_array _ _ _ (rep_table _ _ _ _ Hrep1)). apply Harrs. apply Hrep1.
    - intros k x _. apply Hkeep. }
  exists s'. split.
  { unfold Ptr.assign. rewrite decide_False by done.
    by rewrite (bind_ok _ _ _ _ _ Hclear). }
  apply (copied_intro s s' src dst t lay lay'); try done.
  by apply (separate_fresh s1 dst lay' src t lay).
Qed.

End RunSim.

Section ConstructSim.
Context {hasher : StdHash}.

(** [initialize] on an object that exists: a new array of null heads. *)
Lemma initialize_sim s this o c :
  Ptr.objects s !! this = Some o ->
  exists s' lay,
    Ptr.initialize this c s = Ok (tt, s') /\ represents s' this (initialize c) lay /\
    Ptr.arrays s !! lay_array lay = None /\ owned lay = [] /\
    (forall k, k <> this -> Ptr.objects s' !! k = Ptr.objects s !! k) /\
    (forall b x, Ptr.arrays s !! b = Some x -> Ptr.arrays s' !! b = Some x) /\
    Ptr.nodes s' = Ptr.nodes s /\
    (forall b, b <> lay_array lay -> Ptr.arrays s' !! b = Ptr.arrays s !! b).
Proof.
  intros Hobj.
  set (a := Ptr.fresh_addr (Ptr.arrays s)).
  assert (Hfresh : Ptr.arrays s !! a = None) by apply fresh_addr_fresh.
  set (n := Z.to_nat c).
  set (s0 := Ptr.set_arrays s (<[a := replicate n None]> (Ptr.arrays s))).
  set (s1 := Ptr.set_objects s0 (<[this := Ptr.mkObject c 0 0 (Some a)]> (Ptr.objects s0))).
  assert (Harr1 : Ptr.arrays s1 !! a = Some (replicate n None))
    by (subst s1 s0; simpl; by rewrite lookup_insert_eq).
  exists s1, (mkLayout a (replicate n None) (replicate n [])). split.
  { unfold Ptr.initialize.
    assert (Hnew : Ptr.new_array c s = Ok (Some a, s0)) by done.
    rewrite (bind_ok _ _ _ _ _ Hnew).
    assert (Hobj0 : Ptr.objects s0 !! this = Some o) by done.
    rewrite (bind_ok _ _ _ _ _ (store_object_ok _ _ _ _ Hobj0)).
    unfold Ptr.for_buckets. by apply (null_loop_ok s1 a n n 0%nat). }
  split.
  { split; [subst s1; simpl; by rewrite lookup_insert_eq|]. by apply table_at_empty. }
  split; [done|]. split; [apply owned_empty|]. split; [|split; [|split; [done|]]].
  - intros k Hk. subst s1 s0. simpl. by rewrite lookup_insert_ne.
  - intros b x Hx. subst s1 s0. simpl. rewrite lookup_insert_ne; [done|].
    intros <-. congruence.
  - intros b Hb. subst s1 s0. simpl. by rewrite lookup_insert_ne.
Qed.

(** A constructor: a new object, initialised with capacity [c]. *)
Lemma construct_sim s c :
  exists s' lay,
    (this ← Ptr.new_object; Ptr.initialize this c;; mret this) s
    = Ok (Ptr.fresh_addr (Ptr.objects s), s') /\
    represents s' (Ptr.fresh_addr (Ptr.objects s)) (initialize c) lay /\
    Ptr.arrays s !! lay_array lay = None /\ owned lay = [] /\
    (forall k x, Ptr.objects s !! k = Some x -> Ptr.objects s' !! k = Some x) /\
    (forall b x, Ptr.arrays s !! b = Some x -> Ptr.arrays s' !! b = Some x) /\
    Ptr.nodes s' = Ptr.nodes s /\
    adds_table s s' (Ptr.fresh_addr (Ptr.objects s)) lay.
Proof.
  set (this := Ptr.fresh_addr (Ptr.objects s)).
  assert (Hfresh : Ptr.objects s !! this = None) by apply fresh_addr_fresh.
  set (s0 := Ptr.set_objects s (<[this := Ptr.mkObject 0 0 0 None]> (Ptr.objects s))).
  destruct (initialize_sim s0 this (Ptr.mkObject 0 0 0 None) c)
    as (s' & lay & Hrun & Hrep & Harr & Hown & Hobjs & Harrs & Hnodes & Hexact);
    [subst s0; simpl; by rewrite lookup_insert_eq|].
  exists s', lay. split.
  { assert (Hnew : Ptr.new_object s = Ok (this, s0)) by done.
    rewrite (bind_ok _ _ _ _ _ Hnew). by rewrite (bind_ok _ _ _ _ _ Hrun). }
  split; [done|]. split; [done|]. split; [done|]. split; [|split; [done|split; [done|]]].
  { intros k x Hx. assert (k <> this) by (intros ->; congruence).
    rewrite Hobjs by done. subst s0. simpl. by rewrite lookup_insert_ne. }
  split.
  - done.
  - intros k Hk. rewrite Hobjs by done. subst s0. simpl. by rewrite lookup_insert_ne.
  - done.
  - intros b Hb. by rewrite Hexact.
  - intros k Hk. rewrite Hown in Hk. by apply elem_of_nil in Hk.
  - intros k _. by rewrite Hnodes.
Qed.

End ConstructSim.

(** * The claims *)

Section Claims.
Context {hasher : StdHash}.

(** C1.  Start from a table as a constructor leaves it and make any
    sequence of [addWord] and [removeWord] calls.  If the run is defined,
    [getWordCount] of any word returns the number of times the word was added
    after its most recent removal (0 if it was never added, or removed and
    not added again).  The run is defined whenever the number of calls fits
    an [int], so that [totalWordCount] cannot overflow. *)
Theorem getWordCount_counts_additions (t0 : WordCounter) (calls : list call)
    (k : string) :
  fresh t0 ->
  (forall t, run t0 calls = Ok t ->
             getWordCount t k = Ok (added_since_removal k 0 calls)) /\
  (Z.of_nat (length calls) <= INT_MAX -> exists t, run t0 calls = Ok t).
Proof.
  intros Hfresh. pose proof (fresh_inv t0 Hfresh) as Hinv. split.
  - intros t Hrun. destruct (run_inv t0 calls t Hinv Hrun) as (Hinv' & Hst & _).
    rewrite (getWordCount_stored t k Hinv'), Hst, (fresh_stored t0 k Hfresh). done.
  - intros Hlen. apply run_ok; [done|].
    destruct (fresh_counts t0 Hfresh) as [-> _]. lia.
Qed.

(** C2.  On every table satisfying the class invariant, a defined call
    [addWord t w] behaves as follows.  When [w] is absent ([getWordCount]
    gives 0) it creates the node [(w, 1)] and adds 1 to [uniqueWordCount];
    when [w] is present with count [c] the node becomes [(w, c + 1)] and
    [uniqueWordCount] is unchanged.  In both cases [totalWordCount] grows
    by exactly 1 and the call returns the new count of [w].  The call is
    defined whenever [totalWordCount] can still be incremented.  In
    particular (Scenario A) adding "cat", "dog", "cat" to a new table gives
    counts 2 and 1, 2 unique words and 3 words in total. *)
Theorem addWord_inserts_or_increments :
  (forall (t : WordCounter) (w : string), table_inv t ->
     (forall n t', addWord t w = Ok (n, t') ->
        (getWordCount t w = Ok 0 ->
           mkNode w 1 ∈ entries t' /\ getWordCount t' w = Ok 1 /\
           uniqueWordCount t' = uniqueWordCount t + 1) /\
        (forall c, c <> 0 -> getWordCount t w = Ok c ->
           mkNode w (c + 1) ∈ entries t' /\ getWordCount t' w = Ok (c + 1) /\
           uniqueWordCount t' = uniqueWordCount t) /\
        totalWordCount t' = totalWordCount t + 1 /\
        getWordCount t' w = Ok n) /\
     (totalWordCount t < INT_MAX -> exists n t', addWord t w = Ok (n, t'))) /\
  (exists t,
     run WordCounter_new [AddWord "cat"; AddWord "dog"; AddWord "cat"]%string = Ok t /\
     getWordCount t "cat" = Ok 2 /\ getWordCount t "dog" = Ok 1 /\
     getUniqueWordCount t = 2 /\ getTotalWordCount t = 3).
Proof.
  split.
  - intros t w Hinv. split.
    + intros n t' Hrun. destruct (addWord_post t w n t' Hinv Hrun) as [_ Hpost].
      pose proof (add_inv _ _ _ _ Hpost) as Hinv'.
      pose proof (add_node _ _ _ _ Hpost) as Hnode.
      pose proof (add_unique _ _ _ _ Hpost) as Hu.
      pose proof (add_result _ _ _ _ Hpost) as Hn.
      pose proof (add_stored _ _ _ _ Hpost w) as Hw. rewrite String.eqb_refl in Hw.
      rewrite !(getWordCount_stored _ _ Hinv), !(getWordCount_stored _ _ Hinv'), Hw.
      split; [|split; [|split]].
      * intros [= Hz]. rewrite Hz in *. subst n. done.
      * intros c Hc [= Hz]. rewrite Hz in *. subst n.
        apply Z.eqb_neq in Hc. rewrite Hc in Hu. split; [done|]. split; [done|lia].
      * apply Hpost.
      * by rewrite Hn.
    + intros Hlt. destruct (addWord_ok t w Hinv Hlt) as (n & t' & Hrun & _). eauto.
  - pose proof (fresh_inv _ fresh_default) as Hinv0.
    destruct (fresh_counts _ fresh_default) as [Ht0 Hu0].
    destruct capacity_constants as (_ & _ & HI & _).
    destruct (addWord_ok WordCounter_new "cat" Hinv0) as (n1 & t1 & Hrun1 & Hp1); [lia|].
    pose proof (add_inv _ _ _ _ Hp1) as Hinv1.
    pose proof (add_total _ _ _ _ Hp1) as Ht1.
    pose proof (add_unique _ _ _ _ Hp1) as Hu1.
    rewrite (fresh_stored _ "cat" fresh_default) in Hu1.
    destruct (addWord_ok t1 "dog" Hinv1) as (n2 & t2 & Hrun2 & Hp2); [lia|].
    pose proof (add_inv _ _ _ _ Hp2) as Hinv2.
    pose proof (add_total _ _ _ _ Hp2) as Ht2.
    pose proof (add_unique _ _ _ _ Hp2) as Hu2.
    rewrite (add_stored _ _ _ _ Hp1 "dog"), (fresh_stored _ "dog" fresh_default) in Hu2.
    destruct (addWord_ok t2 "cat" Hinv2) as (n3 & t3 & Hrun3 & Hp3); [lia|].
    pose proof (add_inv _ _ _ _ Hp3) as Hinv3.
    pose proof (add_total _ _ _ _ Hp3) as Ht3.
    pose proof (add_unique _ _ _ _ Hp3) as Hu3.
    rewrite (add_stored _ _ _ _ Hp2 "cat"), (add_stored _ _ _ _ Hp1 "cat"),
      (fresh_stored _ "cat" fresh_default) in Hu3.
    exists t3. split.
    { cbn [run step]. rewrite Hrun1. cbn [mbind res_bind mret res_ret].
      rewrite Hrun2. cbn [mbind res_bind mret res_ret]. rewrite Hrun3. done. }
    rewrite !(getWordCount_stored _ _ Hinv3).
    rewrite !(add_stored _ _ _ _ Hp3), !(add_stored _ _ _ _ Hp2),
      !(add_stored _ _ _ _ Hp1), !(fresh_stored _ _ fresh_default).
    unfold getUniqueWordCount, getTotalWordCount.
    simpl in Hu1, Hu2, Hu3 |- *. repeat split; try done; lia.
Qed.

(** C3.  In every state reachable from a constructor by [addWord] and
    [removeWord] calls, [totalWordCount] is the sum of the counts of the nodes
    stored in the bucket chains and [uniqueWordCount] is the number of those
    nodes; a call of [addWord] adds exactly 1 to [totalWordCount], a call of
    [removeWord] subtracts the whole count of the node it removes. *)
Theorem reachable_counts_agree (t : WordCounter) :
  reachable t ->
  totalWordCount t = sum_counts (entries t) /\
  uniqueWordCount t = Z.of_nat (length (entries t)) /\
  (forall w n t', addWord t w = Ok (n, t') ->
     totalWordCount t' = totalWordCount t + 1) /\
  (forall w t', removeWord t w = Ok t' ->
     forall n, n ∈ entries t -> word n = w ->
     totalWordCount t' = totalWordCount t - wordCount n).
Proof.
  intros Hreach. pose proof (reachable_inv t Hreach) as Hinv.
  split; [apply Hinv|]. split; [apply Hinv|]. split.
  - intros w n t' Hrun. apply (addWord_post t w n t' Hinv Hrun).
  - intros w t' Hrun n Hn Hw.
    rewrite (remove_total _ _ _ (removeWord_post t w t' Hinv Hrun)).
    unfold stored. rewrite <- Hw, chain_count_elem; [done|apply Hinv|done].
Qed.

(** C7.  The capacity of every reachable state is a member of the table of
    sizes, which is strictly ascending.  The constructor taking a capacity
    sets the smallest size that is at least the request, and the largest
    size when the request exceeds it; the default constructor sets the
    smallest size; [resize] always sets [getValidCapacity] of its argument. *)
Theorem capacity_is_valid_size :
  (forall t, reachable t -> capacity t ∈ primes) /\
  Sorted Z.lt primes /\
  (forall requested,
     capacity (WordCounter_new_capacity requested) = getValidCapacity requested /\
     getValidCapacity requested ∈ primes /\
     (requested <= MAX_CAPACITY ->
        requested <= getValidCapacity requested /\
        forall p, p ∈ primes -> requested <= p -> getValidCapacity requested <= p) /\
     (MAX_CAPACITY < requested -> getValidCapacity requested = MAX_CAPACITY)) /\
  capacity WordCounter_new = MIN_CAPACITY /\
  (forall t requested t',
     resize t requested = Ok t' -> capacity t' = getValidCapacity requested).
Proof.
  split; [|split; [|split; [|split]]].
  - intros t Hreach. apply (reachable_inv t Hreach).
  - unfold primes, MIN_CAPACITY, MAX_CAPACITY.
    repeat (apply Sorted_cons; [|first [apply HdRel_nil | apply HdRel_cons; reflexivity]]).
    apply Sorted_nil.
  - intros requested. split; [done|]. split; [apply getValidCapacity_prime|]. split.
    + intros Hle. split; [by apply getValidCapacity_ge|].
      intros p Hp Hrp. by apply getValidCapacity_least.
    + apply getValidCapacity_above.
  - done.
  - intros t requested t' Hrun. unfold resize in Hrun.
    destruct (rehash_buckets _ _ _ _) as [new|f]; simpl in Hrun; [|done].
    by inversion Hrun.
Qed.

(** C9.  [removeWord] is idempotent on every table satisfying the class
    invariant: removing a word that is not stored returns the table
    unchanged, a removal is always defined, and removing the same word a
    second time changes nothing more. *)
Theorem removeWord_idempotent (t : WordCounter) (w : string) :
  table_inv t ->
  (getWordCount t w = Ok 0 -> removeWord t w = Ok t) /\
  exists t', removeWord t w = Ok t' /\ removeWord t' w = Ok t' /\
             run t [RemoveWord w; RemoveWord w] = run t [RemoveWord w].
Proof.
  intros Hinv.
  assert (Habsent : forall u, table_inv u -> stored u w = 0 -> removeWord u w = Ok u).
  { intros u Hu Hz. destruct (removeWord_spec u w Hu) as (u' & Hrun & Hpost).
    by rewrite (remove_absent _ _ _ Hpost Hz) in Hrun. }
  split.
  - rewrite (getWordCount_stored t w Hinv). intros [= Hz]. by apply Habsent.
  - destruct (removeWord_spec t w Hinv) as (t' & Hrun & Hpost).
    assert (Hrun' : removeWord t' w = Ok t').
    { apply Habsent; [apply Hpost|].
      rewrite (remove_stored _ _ _ Hpost), String.eqb_refl. done. }
    exists t'. split; [done|]. split; [done|].
    cbn [run step]. rewrite Hrun. cbn [mbind res_bind]. rewrite Hrun'. done.
Qed.

(** C10.  For a positive [int] capacity, [getBucket] returns an index in
    [0, capacity).  On every table satisfying the class invariant the bucket
    array has [capacity] cells, so this index is inside the array, and no
    array access made by [getWordCount], [addWord], [removeWord] or [resize]
    is out of bounds: the first, third and fourth are always defined, and
    [addWord] can only stop on the overflow of a counter. *)
Theorem bucket_index_in_bounds :
  (forall w c, 0 < c <= INT_MAX -> exists b, getBucket w c = Ok b /\ 0 <= b < c) /\
  (forall t w, table_inv t ->
     (exists b ch, getBucket w (capacity t) = Ok b /\ 0 <= b < capacity t /\
                   (Z.to_nat b < length (wordTable t))%nat /\
                   array_get (wordTable t) b = Ok ch) /\
     (exists n, getWordCount t w = Ok n) /\
     (exists t', removeWord t w = Ok t') /\
     (forall requested, exists t', resize t requested = Ok t') /\
     (forall f, addWord t w = Fault f -> f = SignedOverflow)).
Proof.
  split.
  - intros w c Hc. exists (bucket_of w c).
    split; [by apply getBucket_ok|apply bucket_of_range; lia].
  - intros t w Hinv. pose proof (inv_capacity_int t Hinv) as Hc.
    pose proof (bucket_of_range w (capacity t) (proj1 Hc)) as Hb.
    split; [|split; [|split; [|split]]].
    + destruct (bucket_chain (wordTable t) (capacity t) w (proj1 Hc) (inv_length t Hinv))
        as [ch Hch].
      exists (bucket_of w (capacity t)), ch. split; [by apply getBucket_ok|].
      split; [done|]. split; [rewrite (inv_length t Hinv); lia|].
      rewrite <- (Z2Nat.id (bucket_of w (capacity t))) by lia.
      by apply array_get_ok.
    + exists (stored t w). by apply getWordCount_stored.
    + destruct (removeWord_spec t w Hinv) as (t' & Hrun & _). by exists t'.
    + intros requested.
      destruct (resize_ok t requested) as (t' & Hrun & _); [lia|apply Hinv|].
      by exists t'.
    + intros f Hrun. pose proof (addWord_spec t w Hinv) as Hs.
      rewrite Hrun in Hs. apply Hs.
Qed.

(** C4.  On a table satisfying the class invariant whose load factor is
    within [MIN_LOAD_FACTOR, MAX_LOAD_FACTOR] (or beyond a threshold with
    the capacity already at the smallest, respectively largest, size), every
    defined [addWord] and [removeWord] returns a table whose load factor is
    within the thresholds again, except when it is below the minimum with the
    capacity at the smallest size or above the maximum with the capacity at
    the largest size.  Hence this holds in every state a program reaches from
    the default constructor. *)
Theorem load_factor_restored :
  (forall (t : WordCounter) (w : string),
     table_inv t -> load_within t \/ load_clamped t ->
     (forall n t', addWord t w = Ok (n, t') -> load_within t' \/ load_clamped t') /\
     (forall t', removeWord t w = Ok t' -> load_within t' \/ load_clamped t')) /\
  (forall calls t,
     run WordCounter_new calls = Ok t -> load_within t \/ load_clamped t).
Proof.
  assert (Hstep : forall (t : WordCounter) (w : string),
     table_inv t -> load_within t \/ load_clamped t ->
     (forall n t', addWord t w = Ok (n, t') -> load_within t' \/ load_clamped t') /\
     (forall t', removeWord t w = Ok t' -> load_within t' \/ load_clamped t')).
  { intros t w Hinv Hpre.
    pose proof (inv_capacity_int t Hinv) as Hc.
    pose proof (inv_capacity_range t Hinv) as Hcr.
    pose proof (unique_nonneg t Hinv) as Hu0.
    rewrite load_within_iff, load_clamped_iff in Hpre by lia.
    destruct capacity_constants as (Hmin & Hmax & _).
    split.
    - intros n t' Hrun. destruct (addWord_post t w n t' Hinv Hrun) as [_ Hpost].
      pose proof (inv_capacity_int t' (add_inv _ _ _ _ Hpost)) as Hc'.
      pose proof (add_unique _ _ _ _ Hpost) as Hu.
      pose proof (add_capacity _ _ _ _ Hpost) as Hcap.
      rewrite load_within_iff, load_clamped_iff by lia.
      unfold capacity_after_add in Hcap.
      destruct (stored t w =? 0); simpl in Hcap; [|lia].
      destruct (3 * capacity t <? 4 * (uniqueWordCount t + 1)) eqn:Hover;
        simpl in Hcap; [apply Z.ltb_lt in Hover|apply Z.ltb_ge in Hover; lia].
      destruct (capacity t <? MAX_CAPACITY) eqn:Hbelow;
        [apply Z.ltb_lt in Hbelow|apply Z.ltb_ge in Hbelow; lia].
      assert (Hdiv : 3 * capacity t / 4 = uniqueWordCount t).
      { symmetry.
        apply (Z.div_unique (3 * capacity t) 4 _ (3 * capacity t - 4 * uniqueWordCount t));
          lia. }
      pose proof (grow_keeps_load (capacity t) (inv_capacity t Hinv) Hbelow) as Hgrow.
      rewrite Hdiv, <- Hcap in Hgrow. lia.
    - intros t' Hrun. pose proof (removeWord_post t w t' Hinv Hrun) as Hpost.
      pose proof (inv_capacity_int t' (remove_inv _ _ _ Hpost)) as Hc'.
      pose proof (remove_unique _ _ _ Hpost) as Hu.
      pose proof (remove_capacity _ _ _ Hpost) as Hcap.
      rewrite load_within_iff, load_clamped_iff by lia.
      unfold capacity_after_remove in Hcap.
      destruct (stored t w =? 0); simpl in Hcap; [lia|].
      destruct (10 * (uniqueWordCount t - 1) <? 3 * capacity t) eqn:Hunder;
        simpl in Hcap; [apply Z.ltb_lt in Hunder|apply Z.ltb_ge in Hunder; lia].
      destruct (MIN_CAPACITY <? capacity t) eqn:Habove;
        [apply Z.ltb_lt in Habove|apply Z.ltb_ge in Habove; lia].
      assert (Hdiv : (3 * capacity t - 1) / 10 = uniqueWordCount t - 1).
      { symmetry.
        apply (Z.div_unique (3 * capacity t - 1) 10 _
                 (3 * capacity t - 1 - 10 * (uniqueWordCount t - 1))); lia. }
      pose proof (shrink_keeps_load (capacity t) (inv_capacity t Hinv) Habove) as Hshrink.
      rewrite Hdiv, <- Hcap in Hshrink. lia. }
  split; [exact Hstep|].
  assert (Hrun : forall calls t0 t, table_inv t0 -> load_within t0 \/ load_clamped t0 ->
            run t0 calls = Ok t -> load_within t \/ load_clamped t).
  { induction calls as [|c calls IH]; intros t0 t Hinv0 Hpre Hrun.
    - by inversion Hrun; subst.
    - cbn [run] in Hrun. destruct (step t0 c) as [t1|f] eqn:Hs; [|done].
      destruct (step_inv t0 c t1 Hinv0 Hs) as (Hinv1 & _).
      apply (IH t1 t Hinv1); [|done].
      destruct c as [w|w]; simpl in Hs.
      + destruct (addWord t0 w) as [[n t'']|f] eqn:Hadd; simpl in Hs; [|done].
        inversion Hs; subst. apply (proj1 (Hstep t0 w Hinv0 Hpre) n t1 Hadd).
      + apply (proj2 (Hstep t0 w Hinv0 Hpre) t1 Hs). }
  intros calls t. apply Hrun; [apply fresh_inv; constructor|].
  right. left. split; [done|]. vm_compute. reflexivity.
Qed.

(** C5 (as amended).  On a table satisfying the class invariant, removing a
    stored word when the load factor without it is below [MIN_LOAD_FACTOR]
    and the capacity is above [MIN_CAPACITY] shrinks the table to the
    smallest size of the sequence that is at least half the capacity
    (integer division), which is a smaller size than the current one and
    never below the minimum; every remaining node is kept with its count,
    and only the removed word's node is gone. *)
Theorem removeWord_shrinks (t : WordCounter) (w : string) :
  table_inv t ->
  getWordCount t w <> Ok 0 ->
  (getLoadFactor (set_uniqueWordCount t (uniqueWordCount t - 1)) < MIN_LOAD_FACTOR)%Q ->
  MIN_CAPACITY < capacity t ->
  exists t', removeWord t w = Ok t' /\
    capacity t' = getValidCapacity (capacity t ÷ 2) /\
    capacity t' ∈ primes /\
    capacity t ÷ 2 <= capacity t' /\
    (forall p, p ∈ primes -> capacity t ÷ 2 <= p -> capacity t' <= p) /\
    capacity t' < capacity t /\
    getWordCount t' w = Ok 0 /\
    (forall k, k <> w -> getWordCount t' k = getWordCount t k) /\
    (forall n, n ∈ entries t' <-> n ∈ entries t /\ word n <> w).
Proof.
  intros Hinv Hpresent Hload Habove.
  pose proof (inv_capacity_int t Hinv) as Hc.
  pose proof (inv_capacity_range t Hinv) as Hcr.
  rewrite (getWordCount_stored t w Hinv) in Hpresent.
  assert (Hnz : (stored t w =? 0) = false) by (apply Z.eqb_neq; congruence).
  apply Qltb_lt in Hload. rewrite load_below_min in Hload by (simpl; lia).
  simpl in Hload.
  destruct (removeWord_spec t w Hinv) as (t' & Hrun & Hpost).
  pose proof (remove_inv _ _ _ Hpost) as Hinv'.
  pose proof (remove_capacity _ _ _ Hpost) as Hcap.
  unfold capacity_after_remove in Hcap. rewrite Hnz, Hload in Hcap.
  apply Z.ltb_lt in Habove as Hb. rewrite Hb in Hcap. simpl in Hcap.
  assert (Hhalf : capacity t ÷ 2 <= MAX_CAPACITY).
  { pose proof (Z.quot_le_upper_bound (capacity t) 2 (capacity t)). lia. }
  exists t'. rewrite Hcap. split; [done|]. split; [done|].
  split; [apply getValidCapacity_prime|].
  split; [by apply getValidCapacity_ge|].
  split; [intros p Hp Hle; by apply getValidCapacity_least|].
  split; [apply (shrink_keeps_load (capacity t) (inv_capacity t Hinv) Habove)|].
  split; [|split].
  - rewrite (getWordCount_stored t' w Hinv'), (remove_stored _ _ _ Hpost),
      String.eqb_refl. done.
  - intros k Hk. rewrite (getWordCount_stored t' k Hinv'),
      (getWordCount_stored t k Hinv), (remove_stored _ _ _ Hpost).
    destruct (String.eqb_spec k w); done.
  - intros n. rewrite (entries_stored t' n Hinv'), (entries_stored t n Hinv),
      (remove_stored _ _ _ Hpost).
    destruct (String.eqb_spec (word n) w) as [Heq|Hne]; [|tauto].
    split; [intros [Hz Hnz']; congruence | tauto].
Qed.

(** C6 (as amended).  On a table satisfying the class invariant, adding a
    word that is not stored when the load factor with it exceeds
    [MAX_LOAD_FACTOR] and the capacity is below [MAX_CAPACITY] grows the
    table to [getValidCapacity] of twice the capacity: the smallest size of
    the sequence that is at least twice the capacity, or [MAX_CAPACITY] when
    twice the capacity exceeds it.  The new capacity is larger than the old
    one, the new word is stored with count 1 and every other word keeps its
    count.  In particular (Scenario B) adding nine different words to a new
    table of capacity 11 leaves a larger capacity and each of the nine
    words with count 1. *)
Theorem addWord_grows :
  (forall (t : WordCounter) (w : string),
     table_inv t ->
     getWordCount t w = Ok 0 ->
     (MAX_LOAD_FACTOR < getLoadFactor (set_uniqueWordCount t (uniqueWordCount t + 1)))%Q ->
     capacity t < MAX_CAPACITY ->
     totalWordCount t < INT_MAX ->
     exists n t', addWord t w = Ok (n, t') /\
       capacity t' = getValidCapacity (capacity t * 2) /\
       capacity t' ∈ primes /\
       capacity t < capacity t' /\
       (capacity t * 2 <= MAX_CAPACITY ->
          capacity t * 2 <= capacity t' /\
          forall p, p ∈ primes -> capacity t * 2 <= p -> capacity t' <= p) /\
       (MAX_CAPACITY < capacity t * 2 -> capacity t' = MAX_CAPACITY) /\
       getWordCount t' w = Ok 1 /\
       (forall k, k <> w -> getWordCount t' k = getWordCount t k) /\
       (forall n, n ∈ entries t' <-> n ∈ entries t \/ n = mkNode w 1)) /\
  (capacity WordCounter_new = 11 /\
   forall ks : list string, NoDup ks -> length ks = 9%nat ->
     exists t, run WordCounter_new (AddWord <$> ks) = Ok t /\
               11 < capacity t /\
               forall k, k ∈ ks -> getWordCount t k = Ok 1).
Proof.
  pose proof addWord_growth as Hgrow.
  split.
  - intros t w Hinv Habsent Hload Hbelow Htot.
    pose proof (inv_capacity_int t Hinv) as Hc.
    rewrite (getWordCount_stored t w Hinv) in Habsent.
    assert (Hz : stored t w = 0) by congruence.
    apply Qltb_lt in Hload. rewrite load_above_max in Hload by (simpl; lia).
    simpl in Hload. apply Z.ltb_lt in Hload.
    destruct (Hgrow t w Hinv Hz Hload Hbelow Htot) as (n & t' & Hrun & Hpost & Hcap & Hlt).
    pose proof (add_inv _ _ _ _ Hpost) as Hinv'.
    exists n, t'. split; [done|]. split; [done|].
    split; [apply Hinv'|]. split; [done|]. rewrite Hcap.
    split; [|split; [|split; [|split]]].
    + intros Hle. split; [by apply getValidCapacity_ge|].
      intros p Hp Hle'. by apply getValidCapacity_least.
    + apply getValidCapacity_above.
    + rewrite (getWordCount_stored t' w Hinv'), (add_stored _ _ _ _ Hpost),
        String.eqb_refl, Hz. done.
    + intros k Hk. rewrite (getWordCount_stored t' k Hinv'),
        (getWordCount_stored t k Hinv), (add_stored _ _ _ _ Hpost).
      destruct (String.eqb_spec k w); done.
    + intros m. rewrite (entries_stored t' m Hinv'), (entries_stored t m Hinv),
        (add_stored _ _ _ _ Hpost).
      destruct (String.eqb_spec (word m) w) as [Heq|Hne]; [|split; [tauto|]].
      * rewrite Heq, Hz. split.
        -- intros [H1 _]. right. rewrite <- (node_eta m), Heq, <- H1. done.
        -- intros [[H1 H2] | ->]; [congruence|done].
      * intros [?| ->]; [done|]. simpl in Hne. done.
  - split; [done|]. intros ks Hnd Hlen.
    pose proof (fresh_inv _ fresh_default) as Hinv0.
    destruct (fresh_counts _ fresh_default) as [Ht0 Hu0].
    destruct capacity_constants as (Hmin & Hmax & HI & _).
    assert (Hc0 : capacity WordCounter_new = 11) by done.
    rewrite <- (take_drop 8 ks) in Hnd |- *.
    apply NoDup_app in Hnd as (Hnd8 & Hdisj & _).
    assert (Hlen8 : length (take 8 ks) = 8%nat) by (rewrite length_take; lia).
    destruct (drop 8 ks) as [|k9 [|k10 rest]] eqn:Hdrop;
      [ apply (f_equal length) in Hdrop; rewrite length_drop in Hdrop; simpl in Hdrop; lia
      | | apply (f_equal length) in Hdrop; rewrite length_drop in Hdrop; simpl in Hdrop; lia ].
    destruct (add_new_words (take 8 ks) WordCounter_new Hinv0 Hnd8)
      as (t8 & Hrun8 & Hinv8 & Hc8 & Hu8 & Ht8 & Hst8).
    { intros k _. apply fresh_stored. constructor. }
    { rewrite Hlen8, Hu0, Hc0. lia. }
    { rewrite Hlen8, Ht0. lia. }
    rewrite Hlen8 in Hu8, Ht8.
    assert (Hk9 : stored t8 k9 = 0).
    { rewrite Hst8. rewrite decide_False.
      - apply fresh_stored. constructor.
      - intros Hin. apply (Hdisj k9 Hin). left. }
    destruct (Hgrow t8 k9 Hinv8 Hk9) as (n & t & Hrun & Hpost & Hcap & Hlt); try lia.
    exists t. split.
    { rewrite fmap_app, run_app, Hrun8. cbn [mbind res_bind fmap list_fmap run step].
      rewrite Hrun. done. }
    split; [lia|]. intros k Hk.
    rewrite (getWordCount_stored t k (add_inv _ _ _ _ Hpost)), (add_stored _ _ _ _ Hpost).
    destruct (String.eqb_spec k k9) as [->|Hne]; [by rewrite Hk9|].
    rewrite Hst8. apply elem_of_app in Hk as [Hk|Hk].
    + by rewrite decide_True.
    + apply list_elem_of_singleton in Hk. done.
Qed.

(** C8.  Take any object [src] of the store that represents a table
    satisfying the class invariant.  The copy constructor returns a new
    object, and assignment to another table [dst], which owns its own
    storage, changes [dst], such that afterwards ([copied]):
    the source answers as before; the copy answers as the source does, in
    [getCapacity], [getUniqueWordCount], [getTotalWordCount] and in
    [getWordCount] of every word; both hold the same chains, bucket by
    bucket and in the same order, on storage they do not share; and every
    sequence of [addWord] and [removeWord] calls on either of the two that
    stays within the range of [int] runs to its end and leaves the answers
    of the other one unchanged.  Assigning a table to itself changes
    nothing. *)
Theorem copy_is_deep_and_independent s src t lay :
  represents s src t lay -> table_inv t ->
  (exists s' cp,
     Ptr.WordCounter_copy src s = Ok (cp, s') /\ Ptr.objects s !! cp = None /\
     copied s s' src cp t) /\
  (forall dst t0 lay0,
     represents s dst t0 lay0 -> table_inv t0 -> separate dst lay0 src lay ->
     exists s', Ptr.assign dst src s = Ok (tt, s') /\ copied s s' src dst t) /\
  Ptr.assign src src s = Ok (tt, s).
Proof.
  intros Hrep Hinv. split; [|split].
  - destruct (WordCounter_copy_sim s src t lay Hrep Hinv) as (s' & cp & Hrun & Hcopied & Hnew).
    by exists s', cp.
  - intros dst t0 lay0 Hdst Hinv0 Hsep.
    exact (assign_sim s dst src t0 lay0 t lay Hdst (inv_length t0 Hinv0) Hrep Hinv Hsep).
  - unfold Ptr.assign. by rewrite decide_True.
Qed.

End Claims.

Lemma getWordCount_counts_additions_witness :
  let calls := [AddWord "cat"; AddWord "dog"; AddWord "cat"; RemoveWord "dog";
                AddWord "cat"; RemoveWord "cat"; AddWord "cat"]%string in
  fresh WordCounter_new /\
  exists t, @run length_hash WordCounter_new calls = Ok t /\
            @getWordCount length_hash t "cat" = Ok 1 /\
            @getWordCount length_hash t "dog" = Ok 0.
Proof.
  intros calls. split; [constructor|].
  destruct (@getWordCount_counts_additions length_hash WordCounter_new calls "cat"
              fresh_default) as [Hcat [t Hrun]]; [vm_compute; discriminate|].
  destruct (@getWordCount_counts_additions length_hash WordCounter_new calls "dog"
              fresh_default) as [Hdog _].
  exists t. split; [exact Hrun|]. split; [exact (Hcat t Hrun)|exact (Hdog t Hrun)].
Defined.

Lemma cat_dog_table_run : @run length_hash WordCounter_new cat_dog_calls = Ok cat_dog_table.
Proof. vm_compute. reflexivity. Qed.

Lemma cat_dog_table_inv : @table_inv length_hash cat_dog_table.
Proof.
  apply (@run_inv length_hash WordCounter_new cat_dog_calls);
    [apply fresh_inv; constructor | apply cat_dog_table_run].
Qed.

Lemma cat_dog_table_reachable : @reachable length_hash cat_dog_table.
Proof.
  apply (@run_reachable length_hash WordCounter_new cat_dog_calls);
    [apply reach_fresh; constructor | apply cat_dog_table_run].
Qed.

Lemma addWord_inserts_or_increments_witness :
  @table_inv length_hash cat_dog_table /\
  @getWordCount length_hash cat_dog_table "cat" = Ok 2 /\
  exists t', @addWord length_hash cat_dog_table "cat" = Ok (3, t') /\
             mkNode "cat" 3 ∈ entries t' /\
             uniqueWordCount t' = 2 /\ totalWordCount t' = 4.
Proof.
  split; [exact cat_dog_table_inv|]. split; [vm_compute; reflexivity|].
  destruct (proj1 (@addWord_inserts_or_increments length_hash) cat_dog_table "cat"
              cat_dog_table_inv) as [Hpost Hok].
  destruct Hok as (n & t' & Hrun); [vm_compute; reflexivity|].
  destruct (Hpost n t' Hrun) as (_ & Hinc & Htot & Hret).
  destruct (Hinc 2) as (Hnode & Hcount & Huniq); [lia|vm_compute; reflexivity|].
  assert (n = 3) as -> by (rewrite Hcount in Hret; by inversion Hret).
  exists t'. repeat split; done.
Defined.

Lemma reachable_counts_agree_witness :
  @reachable length_hash cat_dog_table /\
  totalWordCount cat_dog_table = sum_counts (entries cat_dog_table) /\
  uniqueWordCount cat_dog_table = Z.of_nat (length (entries cat_dog_table)) /\
  exists t', @removeWord length_hash cat_dog_table "cat" = Ok t' /\
             totalWordCount t' = 1.
Proof.
  split; [exact cat_dog_table_reachable|].
  destruct (@reachable_counts_agree length_hash cat_dog_table cat_dog_table_reachable)
    as (Htotal & Hunique & _ & Hremove).
  split; [exact Htotal|]. split; [exact Hunique|].
  destruct (@removeWord length_hash cat_dog_table "cat") as [t'|f] eqn:Hrun;
    [|vm_compute in Hrun; discriminate].
  exists t'. split; [reflexivity|].
  rewrite (Hremove "cat"%string t' Hrun (mkNode "cat" 2));
    [reflexivity | apply list_elem_of_In; vm_compute; auto | reflexivity].
Defined.

Lemma capacity_is_valid_size_witness :
  @reachable length_hash cat_dog_table /\ capacity cat_dog_table ∈ primes /\
  capacity (WordCounter_new_capacity 1000) = 1151 /\
  capacity (WordCounter_new_capacity (-5)) = 11 /\
  capacity (WordCounter_new_capacity 2000000000) = MAX_CAPACITY.
Proof.
  split; [exact cat_dog_table_reachable|].
  destruct (@capacity_is_valid_size length_hash) as (Hreach & _ & Hctor & _ & _).
  split; [exact (Hreach cat_dog_table cat_dog_table_reachable)|].
  destruct (Hctor 1000) as (-> & _). destruct (Hctor (-5)) as (-> & _).
  destruct (Hctor 2000000000) as (-> & _ & _ & Hmax).
  rewrite (Hmax eq_refl). repeat split; vm_compute; reflexivity.
Defined.

Lemma removeWord_idempotent_witness :
  @table_inv length_hash cat_dog_table /\
  exists t', @removeWord length_hash cat_dog_table "dog" = Ok t' /\
             @removeWord length_hash t' "dog" = Ok t' /\
             @removeWord length_hash cat_dog_table "bird" = Ok cat_dog_table.
Proof.
  split; [exact cat_dog_table_inv|].
  destruct (@removeWord_idempotent length_hash cat_dog_table "dog" cat_dog_table_inv)
    as (_ & t' & Hrun & Hagain & _).
  destruct (@removeWord_idempotent length_hash cat_dog_table "bird" cat_dog_table_inv)
    as (Habsent & _).
  exists t'. split; [exact Hrun|]. split; [exact Hagain|].
  apply Habsent. vm_compute. reflexivity.
Defined.

Lemma bucket_index_in_bounds_witness :
  @table_inv length_hash cat_dog_table /\
  exists b, @getBucket length_hash "cat" (capacity cat_dog_table) = Ok b /\
            0 <= b < capacity cat_dog_table /\
            (Z.to_nat b < length (wordTable cat_dog_table))%nat.
Proof.
  split; [exact cat_dog_table_inv|].
  destruct (proj2 (@bucket_index_in_bounds length_hash) cat_dog_table "cat"
              cat_dog_table_inv) as ((b & ch & Hb & Hrange & Hlt & _) & _).
  exists b. split; [exact Hb|]. split; [exact Hrange|exact Hlt].
Defined.

Lemma eight_table_run :
  @run length_hash WordCounter_new (AddWord <$> eight_words) = Ok eight_table.
Proof. vm_compute. reflexivity. Qed.

Lemma eight_table_inv : @table_inv length_hash eight_table.
Proof.
  apply (@run_inv length_hash WordCounter_new (AddWord <$> eight_words));
    [apply fresh_inv; constructor | apply eight_table_run].
Qed.

Lemma load_factor_restored_witness :
  @table_inv length_hash eight_table /\ load_within eight_table /\
  exists n t', @addWord length_hash eight_table "iiiiiiiii" = Ok (n, t') /\
               capacity eight_table = 11 /\ capacity t' = 23 /\
               (load_within t' \/ load_clamped t').
Proof.
  assert (Hwithin : load_within eight_table) by (split; vm_compute; discriminate).
  split; [exact eight_table_inv|]. split; [exact Hwithin|].
  destruct (@addWord length_hash eight_table "iiiiiiiii") as [[n t']|f] eqn:Hrun;
    [|vm_compute in Hrun; discriminate].
  exists n, t'. split; [reflexivity|]. split; [reflexivity|].
  split; [vm_compute in Hrun; by inversion Hrun|].
  exact (proj1 (proj1 (@load_factor_restored length_hash) eight_table "iiiiiiiii"
                  eight_table_inv (or_introl Hwithin)) n t' Hrun).
Defined.

Lemma shrink_table_run :
  @run length_hash (WordCounter_new_capacity 29) (AddWord <$> nine_words)
  = Ok shrink_table.
Proof. vm_compute. reflexivity. Qed.

Lemma shrink_table_inv : @table_inv length_hash shrink_table.
Proof.
  apply (@run_inv length_hash (WordCounter_new_capacity 29) (AddWord <$> nine_words));
    [apply fresh_inv; constructor | apply shrink_table_run].
Qed.

Lemma removeWord_shrinks_witness :
  @table_inv length_hash shrink_table /\
  capacity shrink_table = 29 /\ uniqueWordCount shrink_table = 9 /\
  exists t', @removeWord length_hash shrink_table "a" = Ok t' /\
             capacity t' = 17 /\
             @getWordCount length_hash t' "a" = Ok 0 /\
             @getWordCount length_hash t' "bb" = Ok 1.
Proof.
  split; [exact shrink_table_inv|]. split; [reflexivity|]. split; [reflexivity|].
  destruct (@removeWord_shrinks length_hash shrink_table "a" shrink_table_inv)
    as (t' & Hrun & Hcap & _ & _ & _ & _ & Hgone & Hkept & _).
  - vm_compute. discriminate.
  - vm_compute. reflexivity.
  - vm_compute. reflexivity.
  - exists t'. split; [exact Hrun|]. split; [rewrite Hcap; vm_compute; reflexivity|].
    split; [exact Hgone|]. rewrite (Hkept "bb"%string) by discriminate.
    vm_compute. reflexivity.
Defined.

(** C5 as stated fails: at capacity 29 with nine words, removing one leaves
    load factor 8/29 < 0.30 with the capacity above the minimum, and the
    table shrinks to 17, which is more than half of 29 and not the minimum,
    although the sizes 11 and 13 are at most half of 29. *)
Lemma shrink_target_counterexample :
  @table_inv length_hash shrink_table /\
  capacity shrink_table = 29 /\
  MIN_CAPACITY < capacity shrink_table /\
  @getWordCount length_hash shrink_table "a" = Ok 1 /\
  exists t', @removeWord length_hash shrink_table "a" = Ok t' /\
    (getLoadFactor (mkWordCounter (capacity shrink_table) (totalWordCount t')
                      (uniqueWordCount t') (wordTable shrink_table))
     < MIN_LOAD_FACTOR)%Q /\
    capacity t' = 17 /\
    ~ (capacity t' * 2 <= capacity shrink_table \/ capacity t' = MIN_CAPACITY) /\
    13 ∈ primes /\ 13 * 2 <= capacity shrink_table.
Proof.
  split; [exact shrink_table_inv|]. split; [reflexivity|]. split; [reflexivity|].
  split; [vm_compute; reflexivity|].
  destruct (@removeWord length_hash shrink_table "a") as [t'|f] eqn:Hrun;
    vm_compute in Hrun; [|discriminate].
  inversion Hrun; subst t'; clear Hrun.
  eexists. split; [reflexivity|]. split; [vm_compute; reflexivity|].
  split; [reflexivity|]. split.
  - intros [Hle | Heq]; [vm_compute in Hle; by apply Hle|vm_compute in Heq; discriminate].
  - split; [|vm_compute; discriminate]. right. left.
Qed.

Lemma addWord_grows_witness :
  @table_inv length_hash eight_table /\
  capacity eight_table = 11 /\ uniqueWordCount eight_table = 8 /\
  exists n t', @addWord length_hash eight_table "iiiiiiiii" = Ok (n, t') /\
               capacity t' = 23 /\
               @getWordCount length_hash t' "iiiiiiiii" = Ok 1 /\
               @getWordCount length_hash t' "a" = Ok 1.
Proof.
  split; [exact eight_table_inv|]. split; [reflexivity|]. split; [reflexivity|].
  destruct (proj1 (@addWord_grows length_hash) eight_table "iiiiiiiii" eight_table_inv)
    as (n & t' & Hrun & Hcap & _ & _ & _ & _ & Hnew & Hkept & _).
  - vm_compute. reflexivity.
  - vm_compute. reflexivity.
  - vm_compute. reflexivity.
  - vm_compute. reflexivity.
  - exists n, t'. split; [exact Hrun|]. split; [rewrite Hcap; vm_compute; reflexivity|].
    split; [exact Hnew|]. rewrite (Hkept "a"%string) by discriminate.
    vm_compute. reflexivity.
Defined.

Section LargeTable.

Lemma a_word_length n : String.length (a_word n) = n.
Proof. induction n as [|n IH]; simpl; [done|by rewrite IH]. Qed.

Lemma a_word_inj n m : a_word n = a_word m -> n = m.
Proof. intros Heq. by rewrite <- (a_word_length n), <- (a_word_length m), Heq. Qed.

Lemma large_entries u k i :
  concat (large_chain u <$> seq i k) = large_node <$> seq i (Nat.min (i + k) u - i).
Proof.
  revert i. induction k as [|k IH]; intros i.
  - rewrite Nat.add_0_r. replace (Nat.min i u - i)%nat with 0%nat by lia. done.
  - cbn [seq]. rewrite fmap_cons. cbn [concat]. rewrite IH.
    unfold large_chain at 1. destruct (Nat.ltb_spec i u) as [Hlt|Hge].
    + replace (Nat.min (i + S k) u - i)%nat
        with (S (Nat.min (S i + k) u - S i)) by lia.
      done.
    + replace (Nat.min (S i + k) u - S i)%nat with 0%nat by lia.
      replace (Nat.min (i + S k) u - i)%nat with 0%nat by lia. done.
Qed.

Lemma large_table_entries c u :
  0 <= u <= c -> entries (large_table c u) = large_node <$> seq 0 (Z.to_nat u).
Proof.
  intros Hu. unfold entries, large_table. cbn [wordTable].
  rewrite large_entries. f_equal. f_equal. lia.
Qed.

Lemma large_words n : word <$> (large_node <$> seq 0 n) = a_word <$> seq 0 n.
Proof. rewrite <- list_fmap_compose. done. Qed.

Lemma large_sum i n : sum_counts (large_node <$> seq i n) = Z.of_nat n.
Proof.
  revert i. induction n as [|n IH]; intros i; [done|].
  cbn [seq]. rewrite fmap_cons. cbn [sum_counts]. rewrite IH. simpl. lia.
Qed.

Lemma large_bucket c (i : nat) :
  0 < c <= INT_MAX -> Z.of_nat i < c ->
  @bucket_of length_hash (a_word i) c = Z.of_nat i.
Proof.
  intros Hc Hi. unfold bucket_of, std_hash, length_hash.
  rewrite a_word_length.
  destruct capacity_constants as (_ & _ & HI & _ & HS).
  rewrite (Z.mod_small (Z.of_nat i) SIZE_MODULUS) by lia.
  apply Z.mod_small. lia.
Qed.

Lemma large_table_inv c u :
  c ∈ primes -> 0 <= u <= c -> @table_inv length_hash (large_table c u).
Proof.
  intros Hc Hu. pose proof (prime_int c Hc) as Hint.
  pose proof (large_table_entries c u Hu) as Hent.
  split; rewrite ?Hent.
  - done.
  - cbn [wordTable large_table capacity]. by rewrite length_fmap, length_seq.
  - intros b ch n Hl Hn. cbn [wordTable large_table capacity] in *.
    rewrite list_lookup_fmap in Hl.
    destruct (seq 0 (Z.to_nat c) !! b) as [j|] eqn:Hj; [|done].
    apply lookup_seq in Hj as [-> Hb]. simpl in Hl. inversion Hl; subst ch.
    unfold large_chain in Hn.
    destruct (b <? Z.to_nat u)%nat; [|by apply elem_of_nil in Hn].
    apply list_elem_of_singleton in Hn. subst n.
    apply large_bucket; [done|lia].
  - rewrite large_words. apply NoDup_fmap_2_strong; [|apply NoDup_seq].
    intros n m _ _. apply a_word_inj.
  - intros n Hn. apply list_elem_of_fmap in Hn as (j & -> & _). done.
  - cbn [uniqueWordCount large_table]. rewrite length_fmap, length_seq. lia.
  - cbn [totalWordCount large_table]. rewrite large_sum. lia.
  - cbn [totalWordCount large_table]. lia.
Qed.

Lemma large_table_next_absent c u :
  0 <= u <= c -> stored (large_table c u) (a_word (Z.to_nat u)) = 0.
Proof.
  intros Hu. unfold stored. rewrite (large_table_entries c u Hu).
  apply chain_count_absent. rewrite large_words.
  intros Hin. apply list_elem_of_fmap in Hin as (j & Heq & Hj).
  apply a_word_inj in Heq. subst j.
  apply elem_of_seq in Hj. lia.
Qed.

End LargeTable.

(** C6 as stated fails: at capacity 828179753 (below the maximum) with
    621134814 words stored, adding a new word makes the load factor exceed
    0.75 and the table grows to 993815743, the largest size, which is less
    than twice 828179753. *)
Lemma growth_target_counterexample :
  @table_inv length_hash (large_table 828179753 621134814) /\
  capacity (large_table 828179753 621134814) < MAX_CAPACITY /\
  (MAX_LOAD_FACTOR <
   getLoadFactor (set_uniqueWordCount (large_table 828179753 621134814)
                    (uniqueWordCount (large_table 828179753 621134814) + 1)))%Q /\
  exists w n t',
    @getWordCount length_hash (large_table 828179753 621134814) w = Ok 0 /\
    @addWord length_hash (large_table 828179753 621134814) w = Ok (n, t') /\
    capacity t' = 993815743 /\
    ~ (capacity (large_table 828179753 621134814) * 2 <= capacity t').
Proof.
  assert (Hprime : 828179753 ∈ primes).
  { apply list_elem_of_In. vm_compute. tauto. }
  assert (Hinv : @table_inv length_hash (large_table 828179753 621134814)).
  { apply large_table_inv; [exact Hprime|lia]. }
  assert (Habsent : stored (large_table 828179753 621134814)
                      (a_word (Z.to_nat 621134814)) = 0).
  { apply large_table_next_absent. lia. }
  destruct capacity_constants as (_ & HM & HI & _).
  split; [exact Hinv|].
  split; [cbn [capacity large_table]; lia|].
  split.
  { apply Qltb_lt. rewrite load_above_max;
      cbn [capacity uniqueWordCount set_uniqueWordCount large_table]; [|lia].
    apply Z.ltb_lt. lia. }
  destruct (@addWord_growth length_hash _ _ Hinv Habsent) as (n & t' & Hrun & _ & Hcap & _).
  - cbn [capacity uniqueWordCount large_table]. lia.
  - cbn [capacity large_table]. lia.
  - cbn [totalWordCount large_table]. lia.
  - cbn [capacity large_table] in Hcap.
    assert (Hmax : getValidCapacity (828179753 * 2) = 993815743)
      by (vm_compute; reflexivity).
    rewrite Hmax in Hcap.
    exists (a_word (Z.to_nat 621134814)), n, t'.
    split; [rewrite (getWordCount_stored _ _ Hinv); by rewrite Habsent|].
    split; [exact Hrun|]. split; [exact Hcap|].
    rewrite Hcap. cbn [capacity large_table]. lia.
Qed.

Lemma two_tables_represents :
  exists lay lay0,
    represents two_tables_store 2 cat_dog_table lay /\
    represents two_tables_store 3 (WordCounter_new_capacity 20) lay0 /\
    separate 3 lay0 2 lay.
Proof.
  destruct (@construct_sim Ptr.empty_store MIN_CAPACITY)
    as (s0 & lay0 & Hnew & Hrep0 & _).
  assert (H2 : Ptr.fresh_addr (Ptr.objects Ptr.empty_store) = 2%positive)
    by (vm_compute; reflexivity).
  rewrite H2 in *.
  destruct (@run_sim length_hash cat_dog_calls s0 2%positive WordCounter_new lay0
              cat_dog_table Hrep0 (@fresh_inv length_hash _ fresh_default)
              cat_dog_table_run)
    as (s1 & lay1 & Hrun1 & Hrep1 & _ & _ & _).
  destruct (@construct_sim s1 (getValidCapacity 20))
    as (s2 & lay2 & Hnew2 & Hrep2 & Harr2 & Hown2 & Hobjs2 & Harrs2 & Hnodes2 & _).
  assert (H3 : Ptr.fresh_addr (Ptr.objects s1) = 3%positive).
  { clear -Hnew Hrun1. vm_compute in Hnew. injection Hnew as <-.
    vm_compute in Hrun1. injection Hrun1 as <-. vm_compute. reflexivity. }
  rewrite H3 in *.
  assert (Hstore : two_tables_store = s2).
  { unfold two_tables_store, two_tables.
    assert (Hnew' : Ptr.WordCounter_new Ptr.empty_store = Ok (2%positive, s0)) by exact Hnew.
    rewrite (bind_ok _ _ _ _ _ Hnew'). rewrite (bind_ok _ _ _ _ _ Hrun1).
    assert (Hnew2' : Ptr.WordCounter_new_capacity 20 s1 = Ok (3%positive, s2))
      by exact Hnew2.
    rewrite (bind_ok _ _ _ _ _ Hnew2'). reflexivity. }
  rewrite Hstore. clear Hstore. exists lay1, lay2. split; [|split].
  - apply (represents_mono s1); [exact Hrep1| | |].
    + rewrite (rep_object _ _ _ _ Hrep1). apply Hobjs2. apply Hrep1.
    + rewrite (at_array _ _ _ (rep_table _ _ _ _ Hrep1)). apply Harrs2. apply Hrep1.
    + intros k x _ Hx. by rewrite Hnodes2.
  - exact Hrep2.
  - apply (separate_fresh s1 3 lay2 2 cat_dog_table lay1);
      [exact Hrep1|discriminate|exact Harr2|].
    intros k Hk. rewrite Hown2 in Hk. by apply elem_of_nil in Hk.
Qed.

Lemma copy_is_deep_and_independent_witness :
  exists lay lay0,
    represents two_tables_store 2 cat_dog_table lay /\
    @table_inv length_hash cat_dog_table /\
    represents two_tables_store 3 (WordCounter_new_capacity 20) lay0 /\
    @table_inv length_hash (WordCounter_new_capacity 20) /\
    separate 3 lay0 2 lay /\
    (exists s' cp,
       Ptr.WordCounter_copy 2 two_tables_store = Ok (cp, s') /\
       Ptr.objects two_tables_store !! cp = None /\
       @copied length_hash two_tables_store s' 2 cp cat_dog_table) /\
    (exists s',
       Ptr.assign 3 2 two_tables_store = Ok (tt, s') /\
       @copied length_hash two_tables_store s' 2 3 cat_dog_table) /\
    Ptr.assign 2 2 two_tables_store = Ok (tt, two_tables_store).
Proof.
  destruct two_tables_represents as (lay & lay0 & Hsrc & Hdst & Hsep).
  pose proof (@fresh_inv length_hash _ (fresh_capacity 20)) as Hinv0.
  destruct (@copy_is_deep_and_independent length_hash two_tables_store 2 cat_dog_table
              lay Hsrc cat_dog_table_inv) as (Hcopy & Hassign & Hself).
  exists lay, lay0. split; [exact Hsrc|]. split; [exact cat_dog_table_inv|].
  split; [exact Hdst|]. split; [exact Hinv0|]. split; [exact Hsep|].
  split; [exact Hcopy|]. split; [|exact Hself].
  exact (Hassign 3%positive _ lay0 Hdst Hinv0 Hsep).
Defined.

(** * Further properties of the class *)

Section TableProperties.
Context {hasher : StdHash}.

Lemma sum_counts_zero l :
  (forall n, n ∈ l -> 1 <= wordCount n) -> sum_counts l = 0 -> l = [].
Proof.
  intros Hpos Hsum. pose proof (sum_counts_lower l Hpos) as Hlow.
  rewrite Hsum in Hlow. destruct l; [done|]. simpl in Hlow. lia.
Qed.

Lemma resize_inv t requested :
  table_inv t ->
  exists t', resize t requested = Ok t' /\ table_inv t' /\
    capacity t' = getValidCapacity requested /\
    totalWordCount t' = totalWordCount t /\
    uniqueWordCount t' = uniqueWordCount t /\
    forall k, stored t' k = stored t k.
Proof.
  intros Hinv. pose proof (inv_capacity_int t Hinv) as Hc.
  destruct (resize_ok t requested (Z.lt_le_incl _ _ (proj1 Hc)) (inv_length t Hinv))
    as (t' & Hrun & Hcap & Hlen & Hbuckets & Hperm & Htotal & Hunique).
  exists t'. split; [done|]. split.
  { apply (table_inv_intro t' (entries t)); try done.
    - rewrite Hcap. apply getValidCapacity_prime.
    - apply Hinv.
    - apply Hinv.
    - rewrite Hunique. apply Hinv.
    - rewrite Htotal. apply Hinv.
    - rewrite Htotal. apply Hinv. }
  split; [done|]. split; [done|]. split; [done|].
  intros k. apply (stored_perm t' (entries t)); [done|apply Hinv].
Qed.

(** X1.  Both constructors give an empty table, whatever capacity is
    requested (negative, zero or beyond the largest size): its capacity is
    a size of the table of sizes, the counters are 0, [empty] answers true,
    the load factor is 0, every word has count 0 and [removeWord] of any
    word leaves the table as it is. *)
Theorem constructed_table_is_empty (t : WordCounter) (w : string) :
  fresh t ->
  capacity t ∈ primes /\ MIN_CAPACITY <= getCapacity t <= MAX_CAPACITY /\
  getUniqueWordCount t = 0 /\ getTotalWordCount t = 0 /\ empty t = true /\
  (getLoadFactor t == 0)%Q /\
  getWordCount t w = Ok 0 /\ removeWord t w = Ok t.
Proof.
  intros Hfresh. pose proof (fresh_inv t Hfresh) as Hinv.
  destruct (fresh_counts t Hfresh) as [Htotal Hunique].
  split; [apply Hinv|]. split; [apply (inv_capacity_range t Hinv)|].
  split; [done|]. split; [done|].
  split; [unfold empty; by rewrite Htotal|]. split.
  { unfold getLoadFactor. rewrite Hunique. unfold Qdiv. apply Qmult_0_l. }
  split.
  - rewrite (getWordCount_stored t w Hinv). by rewrite (fresh_stored t w Hfresh).
  - destruct (removeWord_spec t w Hinv) as (t' & Hrun & Hpost).
    rewrite Hrun. f_equal. apply (remove_absent _ _ _ Hpost).
    by apply fresh_stored.
Qed.

(** X2.  On a table satisfying the class invariant, [empty], which tests
    [totalWordCount], answers true exactly when no word is stored: when
    [getUniqueWordCount] is 0, when the chains hold no node, and when
    [getWordCount] is 0 for every word. *)
Theorem empty_iff_no_words (t : WordCounter) :
  table_inv t ->
  (empty t = true <-> getUniqueWordCount t = 0) /\
  (empty t = true <-> entries t = []) /\
  (empty t = true <-> forall w, getWordCount t w = Ok 0).
Proof.
  intros Hinv.
  assert (Hnil : empty t = true <-> entries t = []).
  { unfold empty. rewrite Z.eqb_eq, (inv_total t Hinv). split.
    - apply sum_counts_zero. apply Hinv.
    - by intros ->. }
  split; [|split; [done|]].
  - rewrite Hnil. unfold getUniqueWordCount. rewrite (inv_unique t Hinv). split.
    + by intros ->.
    + intros Hlen. destruct (entries t); [done|]. simpl in Hlen. lia.
  - rewrite Hnil. split.
    + intros Hent w. rewrite (getWordCount_stored t w Hinv).
      unfold stored. by rewrite Hent.
    + intros Hall. destruct (entries t) as [|n l] eqn:Hent; [done|].
      assert (Hn : n ∈ entries t) by (rewrite Hent; apply elem_of_cons; by left).
      apply (entries_stored t n Hinv) in Hn as [Hst Hnz].
      specialize (Hall (word n)). rewrite (getWordCount_stored t _ Hinv) in Hall.
      congruence.
Qed.

(** X3.  On a table satisfying the class invariant [removeWord] is always
    defined and takes the whole entry of the word away, whatever its count:
    afterwards the word has count 0, [totalWordCount] is smaller by the
    count the word had, [uniqueWordCount] is smaller by 1 if the word was
    stored, every other word keeps its count, and the invariant holds
    again. *)
Theorem removeWord_removes_entry (t : WordCounter) (w : string) :
  table_inv t ->
  exists c t',
    getWordCount t w = Ok c /\ removeWord t w = Ok t' /\ table_inv t' /\
    getWordCount t' w = Ok 0 /\
    (forall k, k <> w -> getWordCount t' k = getWordCount t k) /\
    getTotalWordCount t' = getTotalWordCount t - c /\
    getUniqueWordCount t' = getUniqueWordCount t - (if c =? 0 then 0 else 1).
Proof.
  intros Hinv. destruct (removeWord_spec t w Hinv) as (t' & Hrun & Hpost).
  pose proof (remove_inv _ _ _ Hpost) as Hinv'.
  exists (stored t w), t'. split; [by apply getWordCount_stored|].
  split; [done|]. split; [done|]. split; [|split; [|split]].
  - rewrite (getWordCount_stored t' w Hinv'), (remove_stored _ _ _ Hpost).
    by rewrite String.eqb_refl.
  - intros k Hk. rewrite (getWordCount_stored t' k Hinv'),
      (getWordCount_stored t k Hinv), (remove_stored _ _ _ Hpost).
    destruct (String.eqb_spec k w); done.
  - apply (remove_total _ _ _ Hpost).
  - apply (remove_unique _ _ _ Hpost).
Qed.

(** X4.  How [addWord] and [removeWord] of one word compose, on a table
    satisfying the class invariant whose [totalWordCount] can still grow.
    Adding a word and then removing it leaves every other count as it was
    and the word with count 0: a word that was stored before is gone with
    all its count, and for a word that was not stored both counters are
    back at their old values.  Removing a word and then adding it gives
    the word count 1, whatever count it had. *)
Theorem add_remove_compose (t : WordCounter) (w : string) :
  table_inv t -> totalWordCount t < INT_MAX ->
  (exists n t1 t2,
     addWord t w = Ok (n, t1) /\ removeWord t1 w = Ok t2 /\
     getWordCount t2 w = Ok 0 /\
     (forall k, k <> w -> getWordCount t2 k = getWordCount t k) /\
     totalWordCount t2 = totalWordCount t - stored t w /\
     uniqueWordCount t2 = uniqueWordCount t - (if stored t w =? 0 then 0 else 1)) /\
  (exists t1 t2,
     removeWord t w = Ok t1 /\ addWord t1 w = Ok (1, t2) /\
     getWordCount t2 w = Ok 1 /\
     (forall k, k <> w -> getWordCount t2 k = getWordCount t k)).
Proof.
  intros Hinv Hroom. pose proof (stored_nonneg t w Hinv) as Hnn. split.
  - destruct (addWord_ok t w Hinv Hroom) as (n & t1 & Hadd & Hpost1).
    pose proof (add_inv _ _ _ _ Hpost1) as Hinv1.
    destruct (removeWord_spec t1 w Hinv1) as (t2 & Hrem & Hpost2).
    pose proof (remove_inv _ _ _ Hpost2) as Hinv2.
    assert (Hst1 : stored t1 w = stored t w + 1).
    { rewrite (add_stored _ _ _ _ Hpost1). by rewrite String.eqb_refl. }
    exists n, t1, t2. split; [done|]. split; [done|]. split; [|split; [|split]].
    + rewrite (getWordCount_stored t2 w Hinv2), (remove_stored _ _ _ Hpost2).
      by rewrite String.eqb_refl.
    + intros k Hk. rewrite (getWordCount_stored t2 k Hinv2),
        (getWordCount_stored t k Hinv), (remove_stored _ _ _ Hpost2),
        (add_stored _ _ _ _ Hpost1).
      destruct (String.eqb_spec k w); done.
    + rewrite (remove_total _ _ _ Hpost2), (add_total _ _ _ _ Hpost1). lia.
    + rewrite (remove_unique _ _ _ Hpost2), (add_unique _ _ _ _ Hpost1), Hst1.
      destruct (stored t w + 1 =? 0) eqn:He; [apply Z.eqb_eq in He; lia|].
      destruct (stored t w =? 0); lia.
  - destruct (removeWord_spec t w Hinv) as (t1 & Hrem & Hpost1).
    pose proof (remove_inv _ _ _ Hpost1) as Hinv1.
    assert (Hst1 : stored t1 w = 0).
    { rewrite (remove_stored _ _ _ Hpost1). by rewrite String.eqb_refl. }
    assert (Hroom1 : totalWordCount t1 < INT_MAX).
    { rewrite (remove_total _ _ _ Hpost1). lia. }
    destruct (addWord_ok t1 w Hinv1 Hroom1) as (n & t2 & Hadd & Hpost2).
    pose proof (add_inv _ _ _ _ Hpost2) as Hinv2.
    assert (n = 1) by (rewrite (add_result _ _ _ _ Hpost2); lia). subst n.
    exists t1, t2. split; [done|]. split; [done|]. split.
    + rewrite (getWordCount_stored t2 w Hinv2), (add_stored _ _ _ _ Hpost2).
      rewrite String.eqb_refl, Hst1. done.
    + intros k Hk. rewrite (getWordCount_stored t2 k Hinv2),
        (getWordCount_stored t k Hinv), (add_stored _ _ _ _ Hpost2),
        (remove_stored _ _ _ Hpost1).
      destruct (String.eqb_spec k w); done.
Qed.

(** X5.  [getValidCapacity] is monotone and idempotent; it gives the
    smallest size for every request up to it, zero and negative requests
    included, and leaves a request as it is exactly when the request is a
    size of the table of sizes. *)
Theorem getValidCapacity_monotone (a b : Z) :
  a <= b ->
  getValidCapacity a <= getValidCapacity b /\
  getValidCapacity (getValidCapacity a) = getValidCapacity a /\
  (a <= MIN_CAPACITY -> getValidCapacity a = MIN_CAPACITY) /\
  (getValidCapacity a = a <-> a ∈ primes).
Proof.
  intros Hab. pose proof (getValidCapacity_bounded a) as Ha.
  pose proof (getValidCapacity_bounded b) as Hb. split; [|split; [|split]].
  - destruct (decide (b <= MAX_CAPACITY)) as [Hle|Hgt].
    + apply getValidCapacity_least; [apply getValidCapacity_prime|].
      pose proof (getValidCapacity_ge b Hle). lia.
    + rewrite (getValidCapacity_above b) by lia. lia.
  - apply getValidCapacity_fixed, getValidCapacity_prime.
  - intros Hsmall.
    pose proof (getValidCapacity_least a MIN_CAPACITY MIN_CAPACITY_prime Hsmall). lia.
  - split; [intros <-; apply getValidCapacity_prime|apply getValidCapacity_fixed].
Qed.

(** X6.  On a table satisfying the class invariant [resize] is defined for
    every requested capacity, also one that is zero, negative or smaller
    than the number of words stored.  The new capacity is
    [getValidCapacity] of the request, the table holds the same nodes as
    before (in chains of the new array), every word keeps its count, both
    counters are unchanged and the invariant holds again. *)
Theorem resize_keeps_contents (t : WordCounter) (requested : Z) :
  table_inv t ->
  exists t',
    resize t requested = Ok t' /\ table_inv t' /\
    getCapacity t' = getValidCapacity requested /\
    entries t' ≡ₚ entries t /\
    (forall w, getWordCount t' w = getWordCount t w) /\
    getTotalWordCount t' = getTotalWordCount t /\
    getUniqueWordCount t' = getUniqueWordCount t.
Proof.
  intros Hinv. pose proof (inv_capacity_int t Hinv) as Hc.
  destruct (resize_inv t requested Hinv)
    as (t' & Hrun & Hinv' & Hcap & Htotal & Hunique & Hstored).
  destruct (resize_ok t requested (Z.lt_le_incl _ _ (proj1 Hc)) (inv_length t Hinv))
    as (t'' & Hrun' & _ & _ & _ & Hperm & _).
  assert (t'' = t') by congruence. subst t''.
  exists t'. split; [done|]. split; [done|]. split; [done|]. split; [done|].
  split; [|done]. intros w.
  by rewrite (getWordCount_stored t' w Hinv'), (getWordCount_stored t w Hinv), Hstored.
Qed.

(** X7.  On a table satisfying the class invariant the capacity moves in
    one direction only: [addWord] never makes it smaller and leaves it as
    it is when the word is stored already; [removeWord] never makes it
    larger. *)
Theorem capacity_moves_one_way (t : WordCounter) (w : string) :
  table_inv t ->
  (forall n t', addWord t w = Ok (n, t') ->
     capacity t <= capacity t' /\
     (getWordCount t w <> Ok 0 -> capacity t' = capacity t)) /\
  (forall t', removeWord t w = Ok t' -> capacity t' <= capacity t).
Proof.
  intros Hinv. pose proof (inv_capacity_range t Hinv) as Hr.
  pose proof (inv_capacity_int t Hinv) as Hc. split.
  - intros n t' Hadd. destruct (addWord_post t w n t' Hinv Hadd) as [_ Hpost].
    rewrite (add_capacity _ _ _ _ Hpost). unfold capacity_after_add.
    rewrite (getWordCount_stored t w Hinv). split.
    + destruct (_ && _ && (capacity t <? MAX_CAPACITY)) eqn:Hcond; [|lia].
      apply andb_prop in Hcond as [_ Hlt]. apply Z.ltb_lt in Hlt.
      destruct (decide (capacity t * 2 <= MAX_CAPACITY)) as [Hle|Hgt].
      * pose proof (getValidCapacity_ge _ Hle). lia.
      * rewrite getValidCapacity_above by lia. lia.
    + intros Hstored. destruct (stored t w =? 0) eqn:Hz; [|done].
      apply Z.eqb_eq in Hz. congruence.
  - intros t' Hrem. pose proof (removeWord_post t w t' Hinv Hrem) as Hpost.
    rewrite (remove_capacity _ _ _ Hpost). unfold capacity_after_remove.
    destruct (_ && _ && (MIN_CAPACITY <? capacity t)) eqn:Hcond; [|lia].
    apply andb_prop in Hcond as [_ Hlt]. apply Z.ltb_lt in Hlt.
    pose proof (shrink_keeps_load (capacity t) (inv_capacity t Hinv) Hlt). lia.
Qed.

End TableProperties.

Section StoreProperties.
Context {hasher : StdHash}.

Lemma store_eq (s s' : Ptr.Store) :
  (forall k, Ptr.objects s' !! k = Ptr.objects s !! k) ->
  (forall b, Ptr.arrays s' !! b = Ptr.arrays s !! b) ->
  (forall k, Ptr.nodes s' !! k = Ptr.nodes s !! k) ->
  s' = s.
Proof.
  intros Ho Ha Hn. destruct s as [o a n], s' as [o' a' n']. simpl in *.
  f_equal; by apply map_eq.
Qed.

(** The destructor releases the object, its array and its nodes, and
    nothing else. *)
Lemma WordCounter_delete_ok s this t lay :
  represents s this t lay -> length (wordTable t) = Z.to_nat (capacity t) ->
  exists s',
    Ptr.WordCounter_delete this s = Ok (tt, s') /\
    Ptr.objects s' = delete this (Ptr.objects s) /\
    Ptr.arrays s' !! lay_array lay = None /\
    (forall b, b <> lay_array lay -> Ptr.arrays s' !! b = Ptr.arrays s !! b) /\
    (forall k, k ∈ owned lay -> Ptr.nodes s' !! k = None) /\
    (forall k, k ∉ owned lay -> Ptr.nodes s' !! k = Ptr.nodes s !! k).
Proof.
  intros [Hobj Hat] Hlen.
  destruct (clear_ok s this _ lay (wordTable t) Hobj eq_refl Hat)
    as (s1 & Hclear & Hobj1 & Hgone1 & Harr1 & Hdel1 & Hkeep1); [by rewrite Hlen|].
  assert (Hthis : is_Some (Ptr.objects s1 !! this))
    by (rewrite Hobj1, lookup_insert_eq; by eexists).
  destruct Hthis as [o1 Ho1].
  exists (Ptr.set_objects s1 (delete this (Ptr.objects s1))). split.
  { unfold Ptr.WordCounter_delete. rewrite (bind_ok _ _ _ _ _ Hclear).
    unfold Ptr.delete_object. by rewrite Ho1. }
  simpl. split; [by rewrite Hobj1, delete_insert_eq|]. done.
Qed.

(** A table that was added to a store, used, and destroyed leaves the
    store as it was before the table was added. *)
Lemma lifetime_restores s s0 s1 this lay0 lay1 t1 :
  adds_table s s0 this lay0 ->
  frame s0 s1 this lay0 -> reuses s0 lay0 lay1 -> accounted s0 s1 lay0 lay1 ->
  represents s1 this t1 lay1 -> length (wordTable t1) = Z.to_nat (capacity t1) ->
  Ptr.WordCounter_delete this s1 = Ok (tt, s).
Proof.
  intros Hadds Hframe Hreuse Hacc Hrep Hlen.
  destruct (WordCounter_delete_ok s1 this t1 lay1 Hrep Hlen)
    as (s2 & Hrun & Hobj2 & Hgone2 & Harr2 & Hdel2 & Hkeep2).
  rewrite Hrun. f_equal. f_equal. apply store_eq.
  - intros k. rewrite Hobj2. destruct (decide (k = this)) as [->|Hne].
    { rewrite lookup_delete_eq. symmetry. apply Hadds. }
    rewrite lookup_delete_ne by done. rewrite <- (adds_objects _ _ _ _ Hadds k Hne).
    destruct (Ptr.objects s0 !! k) as [x|] eqn:Hx.
    + by apply (frame_objects _ _ _ _ Hframe).
    + destruct (Ptr.objects s1 !! k) as [y|] eqn:Hy; [|done].
      destruct (acc_objects _ _ _ _ Hacc k) as [z Hz]; [by eexists|]. congruence.
  - intros b.
    assert (Hnone : forall b0, Ptr.arrays s0 !! b0 = None -> Ptr.arrays s !! b0 = None).
    { intros b0 Hb0. destruct (decide (b0 = lay_array lay0)) as [->|Hne];
        [apply Hadds|]. by rewrite <- (adds_arrays _ _ _ _ Hadds b0 Hne). }
    destruct (decide (b = lay_array lay1)) as [->|Hne1].
    { rewrite Hgone2. symmetry.
      destruct (reuses_array _ _ _ Hreuse) as [He|He]; [rewrite He; apply Hadds|].
      by apply Hnone. }
    rewrite Harr2 by done.
    destruct (Ptr.arrays s1 !! b) as [y|] eqn:Hy.
    + destruct (acc_arrays _ _ _ _ Hacc b) as [?|[[x Hx] Hne0]]; [by eexists|done|].
      rewrite <- (adds_arrays _ _ _ _ Hadds b Hne0), Hx.
      rewrite (frame_arrays _ _ _ _ Hframe b x Hne0 Hx) in Hy. done.
    + symmetry. destruct (decide (b = lay_array lay0)) as [->|Hne0]; [apply Hadds|].
      rewrite <- (adds_arrays _ _ _ _ Hadds b Hne0).
      destruct (Ptr.arrays s0 !! b) as [x|] eqn:Hx; [|done].
      rewrite (frame_arrays _ _ _ _ Hframe b x Hne0 Hx) in Hy. done.
  - intros k.
    assert (Hnone : forall k0, Ptr.nodes s0 !! k0 = None -> Ptr.nodes s !! k0 = None).
    { intros k0 Hk0. destruct (decide (k0 ∈ owned lay0)) as [Hin|Hout];
        [by apply Hadds|]. by rewrite <- (adds_nodes _ _ _ _ Hadds k0 Hout). }
    destruct (decide (k ∈ owned lay1)) as [Hin1|Hout1].
    { rewrite Hdel2 by done. symmetry.
      destruct (reuses_nodes _ _ _ Hreuse k Hin1) as [Hin0|Hfree]; [by apply Hadds|].
      by apply Hnone. }
    rewrite Hkeep2 by done.
    destruct (Ptr.nodes s1 !! k) as [y|] eqn:Hy.
    + destruct (acc_nodes _ _ _ _ Hacc k) as [?|[[x Hx] Hout0]]; [by eexists|done|].
      rewrite <- (adds_nodes _ _ _ _ Hadds k Hout0), Hx.
      rewrite (frame_nodes _ _ _ _ Hframe k x Hout0 Hx) in Hy. done.
    + symmetry. destruct (decide (k ∈ owned lay0)) as [Hin0|Hout0]; [by apply Hadds|].
      rewrite <- (adds_nodes _ _ _ _ Hadds k Hout0).
      destruct (Ptr.nodes s0 !! k) as [x|] eqn:Hx; [|done].
      rewrite (frame_nodes _ _ _ _ Hframe k x Hout0 Hx) in Hy. done.
Qed.

(** The copy constructor adds one table to the store, on storage that was
    not in use. *)
Lemma WordCounter_copy_adds s src t lay :
  represents s src t lay -> length (wordTable t) = Z.to_nat (capacity t) ->
  exists s' cp lay',
    Ptr.WordCounter_copy src s = Ok (cp, s') /\ represents s' cp t lay' /\
    adds_table s s' cp lay'.
Proof.
  intros Hrep Hlen.
  set (cp := Ptr.fresh_addr (Ptr.objects s)).
  assert (Hfresh : Ptr.objects s !! cp = None) by apply fresh_addr_fresh.
  assert (Hne : cp <> src).
  { intros He. rewrite He, (rep_object _ _ _ _ Hrep) in Hfresh. done. }
  set (s0 := Ptr.set_objects s (<[cp := Ptr.mkObject 0 0 0 None]> (Ptr.objects s))).
  assert (Hrep0 : represents s0 src t lay).
  { apply (represents_mono s); [done| |done|done].
    subst s0. simpl. by rewrite lookup_insert_ne. }
  destruct (copy_sim s0 cp src (Ptr.mkObject 0 0 0 None) t lay Hrep0 Hlen)
    as (s' & lay' & Hrun & Hcp & Harr & Hnodes & _ & _ & _ & Hexo & Hexa & Hexn);
    [subst s0; simpl; by rewrite lookup_insert_eq|done|].
  exists s', cp, lay'. split.
  { unfold Ptr.WordCounter_copy.
    assert (Hnew : Ptr.new_object s = Ok (cp, s0)) by done.
    rewrite (bind_ok _ _ _ _ _ Hnew). by rewrite (bind_ok _ _ _ _ _ Hrun). }
  split; [done|]. split; [done| |done| |done|].
  - intros k Hk. rewrite Hexo by done. subst s0. simpl. by rewrite lookup_insert_ne.
  - intros b Hb. by rewrite Hexa.
  - intros k Hk. by rewrite Hexn.
Qed.

(** X8.  The member functions on linked nodes in a store compute what
    they compute on chains as lists.  On an object that represents a table
    satisfying the class invariant, every sequence of [addWord] and
    [removeWord] calls that stays within the range of [int] runs to its
    end: no access through nullptr or a released node, no index outside
    an array, no walk along [next] that does not end.  Afterwards the
    object represents the table the same calls give on lists, so
    [getWordCount] of a word is the number of times it was added since it
    was last removed, on top of its old count if it was not removed.
    A single [addWord] returns the count [getWordCount] gave before,
    plus 1. *)
Theorem calls_on_store_refine s this t lay (calls : list call) :
  represents s this t lay -> table_inv t ->
  totalWordCount t + Z.of_nat (length calls) <= INT_MAX ->
  (exists s' t' lay',
     Ptr.run this calls s = Ok (tt, s') /\ run t calls = Ok t' /\
     represents s' this t' lay' /\ table_inv t' /\
     Ptr.getCapacity this s' = Ok (capacity t', s') /\
     Ptr.getUniqueWordCount this s' = Ok (uniqueWordCount t', s') /\
     Ptr.getTotalWordCount this s' = Ok (totalWordCount t', s') /\
     forall w c, Ptr.getWordCount this w s = Ok (c, s) ->
       Ptr.getWordCount this w s' = Ok (added_since_removal w c calls, s')) /\
  (forall w, totalWordCount t < INT_MAX ->
     exists c s', Ptr.getWordCount this w s = Ok (c, s) /\
                  Ptr.addWord this w s = Ok (c + 1, s')).
Proof.
  intros Hrep Hinv Hbound.
  destruct (answers_of s this t lay Hrep Hinv) as (_ & _ & _ & Hcount). split.
  - destruct (run_ok t calls Hinv Hbound) as [t' Hrun].
    destruct (run_sim calls s this t lay t' Hrep Hinv Hrun)
      as (s' & lay' & Hrun' & Hrep' & _).
    destruct (run_inv t calls t' Hinv Hrun) as (Hinv' & Hstored & _).
    destruct (answers_of s' this t' lay' Hrep' Hinv') as (Hc' & Hu' & Ht' & Hcount').
    exists s', t', lay'. repeat (split; [done|]).
    intros w c Hw. rewrite Hcount in Hw. inversion Hw; subst c.
    by rewrite Hcount', Hstored.
  - intros w Hroom. destruct (addWord_ok t w Hinv Hroom) as (n & t' & Hadd & Hpost).
    destruct (addWord_sim s this t lay w n t' Hrep (inv_length t Hinv) Hadd)
      as (s' & lay' & Hrun & _).
    exists (stored t w), s'. split; [done|].
    by rewrite <- (add_result _ _ _ _ Hpost).
Qed.

(** X9.  The destructor of an object that represents a table releases the
    object, its bucket array and every node of its chains, and nothing
    else: every other object, array and node of the store is as before. *)
Theorem destructor_releases_storage s this t lay :
  represents s this t lay -> table_inv t ->
  exists s',
    Ptr.WordCounter_delete this s = Ok (tt, s') /\
    Ptr.objects s' !! this = None /\
    Ptr.arrays s' !! lay_array lay = None /\
    (forall k, k ∈ owned lay -> Ptr.nodes s' !! k = None) /\
    (forall k, k <> this -> Ptr.objects s' !! k = Ptr.objects s !! k) /\
    (forall b, b <> lay_array lay -> Ptr.arrays s' !! b = Ptr.arrays s !! b) /\
    (forall k, k ∉ owned lay -> Ptr.nodes s' !! k = Ptr.nodes s !! k).
Proof.
  intros Hrep Hinv.
  destruct (WordCounter_delete_ok s this t lay Hrep (inv_length t Hinv))
    as (s' & Hrun & Hobj & Hgone & Harr & Hdel & Hkeep).
  exists s'. split; [done|]. split; [by rewrite Hobj, lookup_delete_eq|].
  split; [done|]. split; [done|]. split; [|done].
  intros k Hk. by rewrite Hobj, lookup_delete_ne.
Qed.

(** X10.  A table leaves no storage behind.  In any store, constructing a
    table (with the default or with any requested capacity), making any
    sequence of [addWord] and [removeWord] calls on it whose number fits
    an [int], and destroying it runs to its end and gives back exactly
    the store it started from: every node and array allocated on the
    way, also by the resizes, has been released, and nothing else was
    touched. *)
Theorem table_lifetime_restores_store s (requested : Z) (calls : list call) :
  Z.of_nat (length calls) <= INT_MAX ->
  (this ← Ptr.WordCounter_new_capacity requested;
   Ptr.run this calls;; Ptr.WordCounter_delete this) s = Ok (tt, s) /\
  (this ← Ptr.WordCounter_new;
   Ptr.run this calls;; Ptr.WordCounter_delete this) s = Ok (tt, s).
Proof.
  intros Hbound.
  assert (Hgen : forall c, c ∈ primes ->
    (this ← (this ← Ptr.new_object; Ptr.initialize this c;; mret this);
     Ptr.run this calls;; Ptr.WordCounter_delete this) s = Ok (tt, s)).
  { intros c Hc. pose proof (initialize_inv c Hc) as Hinv.
    destruct (construct_sim s c) as (s0 & lay0 & Hnew & Hrep0 & _ & _ & _ & _ & _ & Hadds).
    destruct (run_ok (initialize c) calls Hinv) as [t1 Hrun]; [simpl; lia|].
    destruct (run_sim calls s0 _ (initialize c) lay0 t1 Hrep0 Hinv Hrun)
      as (s1 & lay1 & Hrun1 & Hrep1 & Hframe & Hreuse & Hacc).
    destruct (run_inv _ calls t1 Hinv Hrun) as (Hinv1 & _).
    rewrite (bind_ok _ _ _ _ _ Hnew). rewrite (bind_ok _ _ _ _ _ Hrun1).
    by apply (lifetime_restores s s0 s1 _ lay0 lay1 t1 Hadds Hframe Hreuse Hacc Hrep1),
             inv_length. }
  split.
  - apply (Hgen (getValidCapacity requested)), getValidCapacity_prime.
  - apply (Hgen MIN_CAPACITY), MIN_CAPACITY_prime.
Qed.

(** X11.  A copy leaves no storage behind either.  Copy-constructing from
    a table, making any sequence of calls on the copy that stays within
    the range of [int], and destroying the copy gives back exactly the
    store before the copy: the source and everything else is bit for bit
    as it was, and all storage of the copy, the anchor nodes of
    [copyBucket] included, has been released. *)
Theorem copy_lifetime_restores_store s src t lay (calls : list call) :
  represents s src t lay -> table_inv t ->
  totalWordCount t + Z.of_nat (length calls) <= INT_MAX ->
  (cp ← Ptr.WordCounter_copy src;
   Ptr.run cp calls;; Ptr.WordCounter_delete cp) s = Ok (tt, s).
Proof.
  intros Hrep Hinv Hbound.
  destruct (WordCounter_copy_adds s src t lay Hrep (inv_length t Hinv))
    as (s0 & cp & lay0 & Hcopy & Hrep0 & Hadds).
  destruct (run_ok t calls Hinv Hbound) as [t1 Hrun].
  destruct (run_sim calls s0 cp t lay0 t1 Hrep0 Hinv Hrun)
    as (s1 & lay1 & Hrun1 & Hrep1 & Hframe & Hreuse & Hacc).
  destruct (run_inv _ calls t1 Hinv Hrun) as (Hinv1 & _).
  rewrite (bind_ok _ _ _ _ _ Hcopy). rewrite (bind_ok _ _ _ _ _ Hrun1).
  by apply (lifetime_restores s s0 s1 cp lay0 lay1 t1 Hadds Hframe Hreuse Hacc Hrep1),
           inv_length.
Qed.

(** X12.  Assignment releases what the assigned table held.  For two
    tables on separate storage, assigning [src] to [dst] and then
    destroying [dst] ends in the same store as destroying [dst] without
    the assignment: the old array and nodes of [dst] were released by the
    assignment, and its new ones by the destructor. *)
Theorem assign_releases_old_contents s dst src t0 lay0 t lay :
  represents s dst t0 lay0 -> table_inv t0 ->
  represents s src t lay -> table_inv t -> separate dst lay0 src lay ->
  exists s',
    Ptr.WordCounter_delete dst s = Ok (tt, s') /\
    (Ptr.assign dst src;; Ptr.WordCounter_delete dst) s = Ok (tt, s').
Proof.
  intros Hdst Hinv0 Hrep Hinv Hsep.
  pose proof (sep_objects _ _ _ _ Hsep) as Hne.
  destruct (WordCounter_delete_ok s dst t0 lay0 Hdst (inv_length t0 Hinv0))
    as (s' & Hdel & Hobj' & Hgone' & Harr' & Hdel' & Hkeep').
  exists s'. split; [done|].
  destruct (clear_ok s dst _ lay0 (wordTable t0) (rep_object _ _ _ _ Hdst) eq_refl
              (rep_table _ _ _ _ Hdst))
    as (s1 & Hclear & Hobj1 & Hgone1 & Harr1 & Hdel1 & Hkeep1);
    [by rewrite (inv_length t0 Hinv0)|].
  cbn [Ptr.capacity Ptr.totalWordCount Ptr.uniqueWordCount] in Hobj1.
  assert (Hrep1 : represents s1 src t lay).
  { apply (represents_mono s); [done| | |].
    - rewrite Hobj1. by rewrite lookup_insert_ne.
    - apply Harr1. intros He. by apply (sep_arrays _ _ _ _ Hsep).
    - intros k x Hk Hx. rewrite Hkeep1; [done|]. intros Hin.
      by apply (sep_nodes _ _ _ _ Hsep k). }
  destruct (copy_sim s1 dst src
              (Ptr.mkObject (capacity t0) (totalWordCount t0) (uniqueWordCount t0) None)
              t lay Hrep1 (inv_length t Hinv))
    as (s2 & lay2 & Hrun & Hcp & Harr & Hnodes & _ & _ & _ & Hexo & Hexa & Hexn);
    [rewrite Hobj1; by rewrite lookup_insert_eq|done|].
  destruct (WordCounter_delete_ok s2 dst t lay2 Hcp (inv_length t Hinv))
    as (s3 & Hdel3 & Hobj3 & Hgone3 & Harr3 & Hdel3' & Hkeep3).
  assert (Hassign : Ptr.assign dst src s = Ok (tt, s2)).
  { unfold Ptr.assign. rewrite decide_False by done.
    by rewrite (bind_ok _ _ _ _ _ Hclear). }
  rewrite (bind_ok _ _ _ _ _ Hassign), Hdel3. f_equal. f_equal. apply store_eq.
  - intros k. rewrite Hobj', Hobj3. destruct (decide (k = dst)) as [->|Hk].
    + by rewrite !lookup_delete_eq.
    + rewrite !lookup_delete_ne by done. rewrite Hexo by done.
      rewrite Hobj1. by rewrite lookup_insert_ne.
  - intros b. destruct (decide (b = lay_array lay2)) as [->|Hb2].
    + rewrite Hgone3. destruct (decide (lay_array lay2 = lay_array lay0)) as [He|Hb0].
      * by rewrite He, Hgone'.
      * rewrite Harr' by done. rewrite <- Harr1 by done. by rewrite Harr.
    + rewrite Harr3, Hexa by done.
      destruct (decide (b = lay_array lay0)) as [->|Hb0]; [by rewrite Hgone1, Hgone'|].
      by rewrite Harr1, Harr'.
  - intros k. destruct (decide (k ∈ owned lay2)) as [Hk2|Hk2].
    + rewrite Hdel3' by done. destruct (decide (k ∈ owned lay0)) as [Hk0|Hk0].
      * by rewrite Hdel'.
      * rewrite Hkeep' by done. rewrite <- Hkeep1 by done. symmetry. by apply Hnodes.
    + rewrite Hkeep3, Hexn by done.
      destruct (decide (k ∈ owned lay0)) as [Hk0|Hk0]; [by rewrite Hdel1, Hdel'|].
      by rewrite Hkeep1, Hkeep'.
Qed.

End StoreProperties.

(** ** Instances of the further properties *)

Lemma constructed_table_is_empty_witness :
  fresh (WordCounter_new_capacity (-5)) /\
  capacity (WordCounter_new_capacity (-5)) = 11 /\
  @getWordCount length_hash (WordCounter_new_capacity (-5)) "cat" = Ok 0 /\
  @removeWord length_hash (WordCounter_new_capacity (-5)) "cat"
  = Ok (WordCounter_new_capacity (-5)).
Proof.
  pose proof (@constructed_table_is_empty length_hash (WordCounter_new_capacity (-5))
                "cat"%string (fresh_capacity (-5))) as H.
  split; [apply fresh_capacity|]. split; [reflexivity|]. split; apply H.
Defined.

Lemma empty_iff_no_words_witness :
  @table_inv length_hash cat_dog_table /\
  (empty cat_dog_table = true <-> getUniqueWordCount cat_dog_table = 0) /\
  empty cat_dog_table = false.
Proof.
  split; [apply cat_dog_table_inv|].
  split; [apply (@empty_iff_no_words length_hash cat_dog_table cat_dog_table_inv)|].
  reflexivity.
Defined.

Lemma removeWord_removes_entry_witness :
  @table_inv length_hash cat_dog_table /\
  exists c t',
    @getWordCount length_hash cat_dog_table "cat" = Ok c /\
    @removeWord length_hash cat_dog_table "cat" = Ok t' /\
    @table_inv length_hash t' /\
    @getWordCount length_hash t' "cat" = Ok 0 /\
    (forall k, k <> "cat"%string ->
       @getWordCount length_hash t' k = @getWordCount length_hash cat_dog_table k) /\
    getTotalWordCount t' = getTotalWordCount cat_dog_table - c /\
    getUniqueWordCount t' =
      getUniqueWordCount cat_dog_table - (if c =? 0 then 0 else 1).
Proof.
  split; [apply cat_dog_table_inv|].
  exact (@removeWord_removes_entry length_hash cat_dog_table "cat"%string
           cat_dog_table_inv).
Defined.

Lemma add_remove_compose_witness :
  @table_inv length_hash cat_dog_table /\ totalWordCount cat_dog_table < INT_MAX /\
  exists t1 t2,
    @removeWord length_hash cat_dog_table "cat" = Ok t1 /\
    @addWord length_hash t1 "cat" = Ok (1, t2) /\
    @getWordCount length_hash t2 "cat" = Ok 1.
Proof.
  assert (Hroom : totalWordCount cat_dog_table < INT_MAX) by reflexivity.
  split; [apply cat_dog_table_inv|]. split; [exact Hroom|].
  destruct (@add_remove_compose length_hash cat_dog_table "cat"%string
              cat_dog_table_inv Hroom) as (_ & t1 & t2 & Hrem & Hadd & Hcount & _).
  exists t1, t2. split; [exact Hrem|]. split; [exact Hadd|exact Hcount].
Defined.

Lemma getValidCapacity_monotone_witness :
  12 <= 20 /\ getValidCapacity 12 = 13 /\ getValidCapacity 20 = 23 /\
  getValidCapacity 12 <= getValidCapacity 20.
Proof.
  assert (H : 12 <= 20) by (intros Hc; discriminate Hc).
  split; [exact H|]. split; [reflexivity|]. split; [reflexivity|].
  apply (getValidCapacity_monotone 12 20 H).
Defined.

Lemma resize_keeps_contents_witness :
  @table_inv length_hash cat_dog_table /\
  exists t',
    @resize length_hash cat_dog_table 0 = Ok t' /\ @table_inv length_hash t' /\
    getCapacity t' = getValidCapacity 0 /\
    entries t' ≡ₚ entries cat_dog_table /\
    (forall w, @getWordCount length_hash t' w = @getWordCount length_hash cat_dog_table w) /\
    getTotalWordCount t' = getTotalWordCount cat_dog_table /\
    getUniqueWordCount t' = getUniqueWordCount cat_dog_table.
Proof.
  split; [apply cat_dog_table_inv|].
  exact (@resize_keeps_contents length_hash cat_dog_table 0 cat_dog_table_inv).
Defined.

Lemma capacity_moves_one_way_witness :
  @table_inv length_hash cat_dog_table /\
  (forall n t', @addWord length_hash cat_dog_table "emu" = Ok (n, t') ->
     capacity cat_dog_table <= capacity t') /\
  (forall t', @removeWord length_hash cat_dog_table "cat" = Ok t' ->
     capacity t' <= capacity cat_dog_table).
Proof.
  split; [apply cat_dog_table_inv|].
  pose proof (@capacity_moves_one_way length_hash cat_dog_table "emu"%string
                cat_dog_table_inv) as [Hadd _].
  pose proof (@capacity_moves_one_way length_hash cat_dog_table "cat"%string
                cat_dog_table_inv) as [_ Hrem].
  split; [intros n t' H; apply (Hadd n t' H)|exact Hrem].
Defined.

Lemma calls_on_store_refine_witness :
  exists lay,
    represents two_tables_store 2 cat_dog_table lay /\
    @table_inv length_hash cat_dog_table /\
    totalWordCount cat_dog_table + 2 <= INT_MAX /\
    exists s' t' lay',
      @Ptr.run length_hash 2 [RemoveWord "cat"; AddWord "emu"]%string two_tables_store
      = Ok (tt, s') /\
      @run length_hash cat_dog_table [RemoveWord "cat"; AddWord "emu"]%string = Ok t' /\
      represents s' 2 t' lay'.
Proof.
  destruct two_tables_represents as (lay & _ & Hsrc & _ & _).
  assert (Hbound : totalWordCount cat_dog_table
                   + Z.of_nat (length [RemoveWord "cat"; AddWord "emu"]%string)
                   <= INT_MAX) by (intros Hc; discriminate Hc).
  exists lay. split; [exact Hsrc|]. split; [exact cat_dog_table_inv|].
  split; [exact Hbound|].
  destruct (@calls_on_store_refine length_hash two_tables_store 2 cat_dog_table lay
              [RemoveWord "cat"; AddWord "emu"]%string Hsrc cat_dog_table_inv Hbound)
    as ((s' & t' & lay' & Hrun & Hrun' & Hrep & _) & _).
  exists s', t', lay'. split; [exact Hrun|]. split; [exact Hrun'|exact Hrep].
Defined.

Lemma destructor_releases_storage_witness :
  exists lay,
    represents two_tables_store 2 cat_dog_table lay /\
    @table_inv length_hash cat_dog_table /\
    exists s',
      Ptr.WordCounter_delete 2 two_tables_store = Ok (tt, s') /\
      Ptr.objects s' !! 2%positive = None /\
      Ptr.objects s' !! 3%positive = Ptr.objects two_tables_store !! 3%positive.
Proof.
  destruct two_tables_represents as (lay & _ & Hsrc & _ & _).
  exists lay. split; [exact Hsrc|]. split; [exact cat_dog_table_inv|].
  destruct (@destructor_releases_storage length_hash two_tables_store 2 cat_dog_table
              lay Hsrc cat_dog_table_inv)
    as (s' & Hrun & Hgone & _ & _ & Hobjs & _).
  exists s'. split; [exact Hrun|]. split; [exact Hgone|].
  apply Hobjs. intros Hc; discriminate Hc.
Defined.

Lemma table_lifetime_restores_store_witness :
  Z.of_nat (length cat_dog_calls) <= INT_MAX /\
  (this ← Ptr.WordCounter_new_capacity 20;
   @Ptr.run length_hash this cat_dog_calls;; Ptr.WordCounter_delete this)
    two_tables_store = Ok (tt, two_tables_store).
Proof.
  assert (Hbound : Z.of_nat (length cat_dog_calls) <= INT_MAX)
    by (intros Hc; discriminate Hc).
  split; [exact Hbound|].
  apply (@table_lifetime_restores_store length_hash two_tables_store 20 cat_dog_calls
           Hbound).
Defined.

Lemma copy_lifetime_restores_store_witness :
  exists lay,
    represents two_tables_store 2 cat_dog_table lay /\
    @table_inv length_hash cat_dog_table /\
    totalWordCount cat_dog_table + 2 <= INT_MAX /\
    (cp ← Ptr.WordCounter_copy 2;
     @Ptr.run length_hash cp [RemoveWord "cat"; AddWord "emu"]%string;;
     Ptr.WordCounter_delete cp) two_tables_store = Ok (tt, two_tables_store).
Proof.
  destruct two_tables_represents as (lay & _ & Hsrc & _ & _).
  assert (Hbound : totalWordCount cat_dog_table
                   + Z.of_nat (length [RemoveWord "cat"; AddWord "emu"]%string)
                   <= INT_MAX) by (intros Hc; discriminate Hc).
  exists lay. split; [exact Hsrc|]. split; [exact cat_dog_table_inv|].
  split; [exact Hbound|].
  exact (@copy_lifetime_restores_store length_hash two_tables_store 2 cat_dog_table lay
           [RemoveWord "cat"; AddWord "emu"]%string Hsrc cat_dog_table_inv Hbound).
Defined.

Lemma assign_releases_old_contents_witness :
  exists lay lay0,
    represents two_tables_store 3 (WordCounter_new_capacity 20) lay0 /\
    @table_inv length_hash (WordCounter_new_capacity 20) /\
    represents two_tables_store 2 cat_dog_table lay /\
    @table_inv length_hash cat_dog_table /\
    separate 3 lay0 2 lay /\
    exists s',
      Ptr.WordCounter_delete 3 two_tables_store = Ok (tt, s') /\
      (Ptr.assign 3 2;; Ptr.WordCounter_delete 3) two_tables_store = Ok (tt, s').
Proof.
  destruct two_tables_represents as (lay & lay0 & Hsrc & Hdst & Hsep).
  pose proof (@fresh_inv length_hash _ (fresh_capacity 20)) as Hinv0.
  exists lay, lay0. split; [exact Hdst|]. split; [exact Hinv0|].
  split; [exact Hsrc|]. split; [exact cat_dog_table_inv|]. split; [exact Hsep|].
  exact (@assign_releases_old_contents length_hash two_tables_store 3 2
           (WordCounter_new_capacity 20) lay0 cat_dog_table lay
           Hdst Hinv0 Hsrc cat_dog_table_inv Hsep).
Defined.

(** * The text functions of the test driver *)

Section TextFacts.

Lemma string_app_cons a (s t : string) : (String a s ++ t)%string = String a (s ++ t)%string.
Proof. reflexivity. Qed.

Lemma string_app_nil_l (t : string) : (EmptyString ++ t)%string = t.
Proof. reflexivity. Qed.

Lemma string_app_nil_r (s : string) : (s ++ "")%string = s.
Proof. induction s as [|a s IH]; [done|]. by rewrite string_app_cons, IH. Qed.

Lemma string_length_app (a b : string) :
  String.length (a ++ b) = (String.length a + String.length b)%nat.
Proof.
  induction a as [|x a IH]; [done|]. rewrite string_app_cons. simpl. by rewrite IH.
Qed.

Lemma spaces_length k : String.length (spaces k) = k.
Proof. induction k as [|k IH]; simpl; [done|by rewrite IH]. Qed.

Lemma substring_to_end (s : string) : forall p n m : nat,
  (String.length s <= p + n)%nat -> (String.length s <= p + m)%nat ->
  substring p n s = substring p m s.
Proof.
  induction s as [|c s IH]; intros p n m Hn Hm.
  - by destruct p, n, m.
  - destruct p as [|p]; simpl in *.
    + destruct n as [|n]; [lia|]. destruct m as [|m]; [lia|].
      f_equal. apply IH; lia.
    + apply IH; lia.
Qed.

Lemma substring_all (s : string) (n : nat) :
  (String.length s <= n)%nat -> substring 0 n s = s.
Proof.
  revert n. induction s as [|c s IH]; intros n Hn; [by destruct n|].
  destruct n as [|n]; simpl in *; [lia|]. f_equal. apply IH. lia.
Qed.

Lemma substring_prefix_length (s : string) : forall p : nat,
  (String.length (substring 0 p s) <= String.length s)%nat.
Proof.
  induction s as [|c s IH]; intros [|p]; simpl; try lia. specialize (IH p). lia.
Qed.

Lemma string_find_head c a r :
  string_find c (String a r) = Some 0%nat <-> a = c.
Proof.
  simpl. destruct (Ascii.eqb_spec a c) as [->|Hne]; [done|].
  split; [|done]. by destruct (string_find c r).
Qed.

Lemma string_find_nil_head c s :
  string_find c s <> Some 0%nat <-> s = EmptyString \/ exists a r, s = String a r /\ a <> c.
Proof.
  destruct s as [|a r].
  - split; [by left|done].
  - rewrite string_find_head. split.
    + intros Hne. right. by exists a, r.
    + intros [?|(a' & r' & Heq & Hne)]; [done|]. by inversion Heq; subst.
Qed.

Lemma string_erase_head a r : string_erase (String a r) 0 1 = Ok r.
Proof. unfold string_erase. simpl. f_equal. apply substring_all. lia. Qed.

Lemma trim_loop_ok (line : string) : forall steps : nat,
  (String.length line < steps)%nat ->
  exists k rest,
    trim_loop steps line = Ok rest /\ line = (spaces k ++ rest)%string /\
    string_find space rest <> Some 0%nat.
Proof.
  induction line as [|a r IH]; intros steps Hlen.
  - destruct steps as [|steps]; [lia|]. exists 0%nat, EmptyString. done.
  - destruct steps as [|steps]; [lia|]. cbn [trim_loop].
    destruct (decide (string_find space (String a r) = Some 0%nat)) as [Hsp|Hsp].
    + apply string_find_head in Hsp as ->. rewrite string_erase_head.
      cbn [mbind res_bind].
      destruct (IH steps) as (k & rest & Hrun & Heq & Hrest); [simpl in Hlen; lia|].
      exists (S k), rest. split; [done|]. split; [|done].
      cbn [spaces]. by rewrite string_app_cons, <- Heq.
    + exists 0%nat, (String a r). done.
Qed.

(** Where a line with a space is cut. *)
Lemma string_find_split (s : string) : forall p : nat,
  string_find space s = Some p ->
  exists w r,
    s = (w ++ String space r)%string /\ string_find space w = None /\
    (p <= String.length s)%nat /\
    substring 0 p s = w /\ substring p (String.length s) s = String space r.
Proof.
  induction s as [|a s IH]; intros p Hp; [done|]. simpl in Hp.
  destruct (Ascii.eqb_spec a space) as [->|Hne].
  - inversion Hp; subst p. exists EmptyString, s. split; [done|]. split; [done|].
    split; [lia|]. split; [done|]. simpl. f_equal. apply substring_all. lia.
  - destruct (string_find space s) as [p'|] eqn:Hfind; [|done].
    inversion Hp; subst p.
    destruct (IH p' eq_refl) as (w & r & Heq & Hw & Hle & Hpre & Hsuf).
    exists (String a w), r. split; [by rewrite string_app_cons, <- Heq|]. split.
    { simpl. destruct (Ascii.eqb_spec a space); [done|]. by rewrite Hw. }
    split; [simpl; lia|]. split; [simpl; by rewrite Hpre|].
    simpl. rewrite <- Hsuf. apply substring_to_end; lia.
Qed.

Lemma trimLeadingSpaces_ok (line : string) :
  exists k rest,
    trimLeadingSpaces line = Ok rest /\ line = (spaces k ++ rest)%string /\
    string_find space rest <> Some 0%nat.
Proof. apply trim_loop_ok. lia. Qed.

Lemma trimLeadingSpaces_fixed (rest : string) :
  string_find space rest <> Some 0%nat -> trimLeadingSpaces rest = Ok rest.
Proof.
  intros Hrest. unfold trimLeadingSpaces. cbn [trim_loop].
  by destruct (decide (string_find space rest = Some 0%nat)).
Qed.

Lemma getWordFromLine_ok (line : string) :
  exists k word rest,
    getWordFromLine line = Ok (word, rest) /\
    line = (spaces k ++ word ++ rest)%string /\
    string_find space word = None /\
    (rest = EmptyString \/ exists r, rest = String space r) /\
    (word = EmptyString -> rest = EmptyString).
Proof.
  destruct (trimLeadingSpaces_ok line) as (k & trimmed & Htrim & Heq & Hhead).
  unfold getWordFromLine. rewrite Htrim. cbn [mbind res_bind].
  destruct (String.eqb_spec trimmed EmptyString) as [->|Hne]; cbn [negb].
  { exists k, EmptyString, EmptyString. by split_and!; [|..|left|]. }
  destruct (string_find space trimmed) as [p|] eqn:Hfind.
  - destruct (string_find_split trimmed p Hfind) as (w & r & Hcut & Hw & Hle & Hpre & Hsuf).
    exists k, w, (String space r). unfold string_substr.
    destruct (Nat.ltb_spec (String.length trimmed) 0) as [|_]; [lia|].
    destruct (Nat.ltb_spec (String.length trimmed) p) as [|_]; [lia|].
    cbn [mbind res_bind mret res_ret].
    rewrite Hpre, Hsuf. split; [done|]. split; [by rewrite <- Hcut|].
    split; [done|]. split; [right; by exists r|].
    intros ->. rewrite string_app_nil_l in Hcut. subst trimmed.
    exfalso. apply Hhead. rewrite <- Hfind. by apply string_find_head.
  - exists k, trimmed, EmptyString. unfold string_substr.
    destruct (Nat.ltb_spec (String.length trimmed) 0) as [|_]; [lia|].
    cbn [mbind res_bind mret res_ret].
    rewrite substring_all by lia. split; [done|].
    split; [by rewrite string_app_nil_r|]. by split_and!; [|left|].
Qed.

Lemma getWordFromLine_shorter line k word rest :
  line = (spaces k ++ word ++ rest)%string ->
  (word = EmptyString -> rest = EmptyString) ->
  line <> EmptyString ->
  (String.length rest < String.length line)%nat.
Proof.
  intros -> Hword Hne. rewrite !string_length_app, spaces_length.
  destruct word as [|a w]; [|simpl; lia].
  rewrite (Hword eq_refl) in *. rewrite !string_app_nil_r in Hne. simpl.
  destruct k; [done|lia].
Qed.

Lemma fields_nonempty (s : string) : fields s <> [].
Proof.
  induction s as [|c s IH]; simpl; [done|].
  destruct (Ascii.eqb c space); [done|]. by destruct (fields s).
Qed.

Lemma fields_spaces (k : nat) (s : string) :
  fields (spaces k ++ s) = replicate k EmptyString ++ fields s.
Proof.
  induction k as [|k IH]; [done|]. cbn [spaces replicate].
  rewrite string_app_cons. cbn [fields]. rewrite Ascii.eqb_refl. by rewrite IH.
Qed.

Lemma fields_word (w s : string) :
  string_find space w = None ->
  exists f fs, fields s = f :: fs /\ fields (w ++ s) = (w ++ f)%string :: fs.
Proof.
  induction w as [|a w IH]; intros Hw.
  - destruct (fields s) as [|f fs] eqn:Hs; [by apply fields_nonempty in Hs|].
    exists f, fs. by rewrite !string_app_nil_l.
  - simpl in Hw. destruct (Ascii.eqb_spec a space) as [|Ha]; [done|].
    destruct (string_find space w) eqn:Hfind; [done|].
    destruct (IH eq_refl) as (f & fs & Hs & Hws). exists f, fs. split; [done|].
    rewrite string_app_cons. cbn [fields].
    destruct (Ascii.eqb_spec a space); [done|]. by rewrite Hws.
Qed.

Lemma filter_blank_fields (k : nat) :
  filter (fun w : string => w <> EmptyString) (replicate k EmptyString) = [].
Proof.
  induction k as [|k IH]; [done|]. cbn [replicate].
  by rewrite filter_cons_False by (intros H; by apply H).
Qed.

Lemma looked_up_nil : looked_up EmptyString = [].
Proof. reflexivity. Qed.

Lemma looked_up_blank (k : nat) :
  (0 < k)%nat -> looked_up (spaces k) = [EmptyString].
Proof.
  intros Hk. unfold looked_up.
  pose proof (fields_spaces k EmptyString) as Hf.
  rewrite string_app_nil_r in Hf. rewrite Hf.
  rewrite filter_app, filter_blank_fields. cbn [fields].
  rewrite filter_cons_False by (intros H; by apply H). rewrite filter_nil.
  rewrite last_snoc. rewrite decide_True; [done|].
  split; [|done]. destruct k; [lia|done].
Qed.

Lemma looked_up_word (k : nat) (word rest : string) :
  string_find space word = None ->
  rest = EmptyString \/ (exists r, rest = String space r) ->
  word <> EmptyString ->
  looked_up (spaces k ++ word ++ rest) = word :: looked_up rest.
Proof.
  intros Hw Hrest Hne.
  assert (Hline : (spaces k ++ word ++ rest)%string <> EmptyString).
  { intros Heq. apply (f_equal String.length) in Heq.
    rewrite !string_length_app in Heq. destruct word; [done|]. simpl in Heq. lia. }
  unfold looked_up at 1. rewrite fields_spaces.
  destruct Hrest as [->|[r ->]].
  - destruct (fields_word word EmptyString Hw) as (f & fs & Hs & Hws).
    cbn [fields] in Hs. inversion Hs; subst f fs. rewrite string_app_nil_r in *.
    rewrite Hws. rewrite filter_app, filter_blank_fields.
    rewrite filter_cons_True by done. rewrite filter_nil.
    rewrite last_snoc. rewrite decide_False; [done|].
    intros [_ Hlast]. by inversion Hlast.
  - destruct (fields_word word (String space r) Hw) as (f & fs & Hs & Hws).
    cbn [fields] in Hs. rewrite Ascii.eqb_refl in Hs. inversion Hs; subst f fs.
    rewrite string_app_nil_r in Hws. rewrite Hws.
    rewrite filter_app, filter_blank_fields. rewrite filter_cons_True by done.
    unfold looked_up. cbn [fields]. rewrite Ascii.eqb_refl.
    rewrite filter_cons_False by (intros H; by apply H).
    cbn [app]. f_equal. f_equal.
    destruct (fields r) as [|x xs] eqn:Hr; [by apply fields_nonempty in Hr|].
    rewrite last_app_cons, !last_cons_cons.
    apply decide_ext. split; intros [_ Hlast]; by split.
Qed.

Section Display.
Context {hasher : StdHash}.

Lemma display_loop_S (steps : nat) (line : string) (t : WordCounter) :
  display_loop (S steps) line t =
  if (String.length line =? 0)%nat then mret []
  else
    '(word, rest) ← getWordFromLine line;
    count ← getWordCount t word;
    printed ← display_loop steps rest t;
    mret ((word, count) :: printed).
Proof. reflexivity. Qed.

Lemma display_loop_ok (t : WordCounter) :
  table_inv t ->
  forall (n : nat) (line : string),
    (String.length line <= n)%nat ->
    display_loop (S n) line t = Ok ((fun w => (w, stored t w)) <$> looked_up line).
Proof.
  intros Hinv. induction n as [|n IH]; intros line Hlen.
  - destruct line; [done|]. simpl in Hlen. lia.
  - rewrite display_loop_S. destruct (Nat.eqb_spec (String.length line) 0) as [H0|H0].
    { destruct line; [done|]. done. }
    assert (Hne : line <> EmptyString) by (by intros ->).
    destruct (getWordFromLine_ok line) as (k & word & rest & Hget & Heq & Hw & Hrest & Hword).
    rewrite Hget. cbn [mbind res_bind].
    rewrite (getWordCount_stored t word Hinv). cbn [mbind res_bind].
    pose proof (getWordFromLine_shorter line k word rest Heq Hword Hne) as Hshort.
    rewrite IH by lia. cbn [mbind res_bind mret res_ret]. f_equal.
    destruct (decide (word = EmptyString)) as [->|Hwne].
    + rewrite (Hword eq_refl) in *. rewrite !string_app_nil_r in Heq. subst line.
      rewrite looked_up_blank; [done|]. destruct k; [done|lia].
    + rewrite Heq. by rewrite looked_up_word.
Qed.

End Display.

Lemma sum_after_zeroing (f g : string -> Z) (w : string) :
  (forall k, g k = if String.eqb k w then 0 else f k) ->
  forall l : list string, NoDup l ->
    foldr Z.add 0 (g <$> l) =
    foldr Z.add 0 (f <$> l) - (if decide (w ∈ l) then f w else 0).
Proof.
  intros Hg l Hl. induction Hl as [|x l Hx Hl IH].
  - simpl. lia.
  - rewrite !fmap_cons. cbn [foldr]. rewrite IH, Hg.
    destruct (String.eqb_spec x w) as [->|Hne].
    + rewrite (decide_False (P := w ∈ l)) by done.
      rewrite decide_True by apply list_elem_of_here. lia.
    + destruct (decide (w ∈ l)) as [Hin|Hin].
      * rewrite decide_True by (by apply list_elem_of_further). lia.
      * rewrite decide_False; [lia|].
        intros [?|?]%elem_of_cons; [by subst|done].
Qed.

Section CommonWords.
Context {hasher : StdHash}.

Lemma common_loop_S (steps : nat) (commonWords : list string) (i : Z)
    (t : WordCounter) :
  common_loop (S steps) commonWords i t =
  if size_t_of_int i <? Z.of_nat (length commonWords) then
    w ← array_get commonWords i;
    t ← removeWord t w;
    i ← int_of (i + 1);
    common_loop steps commonWords i t
  else mret t.
Proof. reflexivity. Qed.

Lemma size_t_of_index (n : nat) :
  Z.of_nat n <= INT_MAX -> size_t_of_int (Z.of_nat n) = Z.of_nat n.
Proof.
  intros Hn. unfold size_t_of_int, SIZE_MODULUS. apply Z.mod_small.
  unfold INT_MAX in Hn. lia.
Qed.

(** The loop visits the words in the order of the vector. *)
Lemma common_loop_run (commonWords : list string) :
  Z.of_nat (length commonWords) <= INT_MAX ->
  forall (rest visited : list string) (steps : nat) (t : WordCounter),
    commonWords = visited ++ rest ->
    (length rest < steps)%nat ->
    common_loop steps commonWords (Z.of_nat (length visited)) t =
    run t (RemoveWord <$> rest).
Proof.
  intros Hsize. induction rest as [|w rest IH]; intros visited steps t Heq Hsteps.
  - destruct steps as [|steps]; [simpl in Hsteps; lia|]. rewrite common_loop_S.
    rewrite app_nil_r in Heq. subst visited.
    rewrite size_t_of_index by done. by rewrite Z.ltb_irrefl.
  - destruct steps as [|steps]; [simpl in Hsteps; lia|]. rewrite common_loop_S.
    assert (Hlen : (length visited < length commonWords)%nat).
    { rewrite Heq, length_app. simpl. lia. }
    rewrite size_t_of_index by lia.
    destruct (Z.ltb_spec (Z.of_nat (length visited)) (Z.of_nat (length commonWords)))
      as [_|]; [|lia].
    assert (Hget : array_get commonWords (Z.of_nat (length visited)) = Ok w).
    { unfold array_get. destruct (Z.ltb_spec (Z.of_nat (length visited)) 0); [lia|].
      by rewrite Nat2Z.id, Heq, list_lookup_middle. }
    rewrite Hget. cbn [mbind res_bind fmap list_fmap run step].
    destruct (removeWord t w) as [t1|f]; [|done]. cbn [mbind res_bind].
    assert (Hnext : int_of (Z.of_nat (length visited) + 1) =
                    Ok (Z.of_nat (length (visited ++ [w])))).
    { unfold int_of. rewrite length_app. simpl length.
      replace (Z.of_nat (length visited + 1)) with (Z.of_nat (length visited) + 1) by lia.
      destruct (Z.leb_spec INT_MIN (Z.of_nat (length visited) + 1));
        [|unfold INT_MIN in *; lia].
      destruct (Z.leb_spec (Z.of_nat (length visited) + 1) INT_MAX); [done|lia]. }
    rewrite Hnext. cbn [mbind res_bind].
    apply IH; [by rewrite <- app_assoc|simpl in Hsteps; lia].
Qed.

Lemma removeWord_capacity_le (t : WordCounter) (w : string) (t' : WordCounter) :
  table_inv t -> remove_post t w t' -> capacity t' <= capacity t.
Proof.
  intros Hinv Hpost. pose proof (inv_capacity_int t Hinv) as Hc.
  rewrite (remove_capacity _ _ _ Hpost). unfold capacity_after_remove.
  destruct (_ && _ && (MIN_CAPACITY <? capacity t)) eqn:Hcond; [|lia].
  apply andb_prop in Hcond as [_ Hlt]. apply Z.ltb_lt in Hlt.
  pose proof (shrink_keeps_load (capacity t) (inv_capacity t Hinv) Hlt). lia.
Qed.

Lemma run_removes (ws : list string) : forall t : WordCounter,
  table_inv t ->
  exists t',
    run t (RemoveWord <$> ws) = Ok t' /\ table_inv t' /\
    (forall k, stored t' k = if decide (k ∈ ws) then 0 else stored t k) /\
    totalWordCount t' =
      totalWordCount t - foldr Z.add 0 (stored t <$> remove_dups ws) /\
    uniqueWordCount t' =
      uniqueWordCount t -
      foldr Z.add 0 ((fun k => if stored t k =? 0 then 0 else 1) <$> remove_dups ws) /\
    capacity t' <= capacity t /\
    ((forall k, k ∈ ws -> stored t k = 0) -> t' = t).
Proof.
  induction ws as [|w ws IH]; intros t Hinv.
  - exists t. split; [done|]. split; [done|]. split.
    { intros k. rewrite decide_False; [done|]. by intros ?%elem_of_nil. }
    simpl. split; [lia|]. split; [lia|]. split; [lia|done].
  - destruct (removeWord_spec t w Hinv) as (t1 & Hrem & Hpost).
    pose proof (remove_inv _ _ _ Hpost) as Hinv1.
    destruct (IH t1 Hinv1) as (t' & Hrun & Hinv' & Hst & Htot & Huniq & Hcap & Hsame).
    exists t'. split; [cbn [fmap list_fmap run step]; by rewrite Hrem|].
    split; [done|]. split; [|split; [|split; [|split]]].
    + intros k. rewrite Hst, (remove_stored _ _ _ Hpost).
      destruct (String.eqb_spec k w) as [->|Hne].
      * rewrite (decide_True (P := w ∈ w :: ws)) by apply list_elem_of_here.
        by destruct (decide (w ∈ ws)).
      * destruct (decide (k ∈ ws)) as [Hin|Hin].
        -- by rewrite decide_True by (by apply list_elem_of_further).
        -- rewrite decide_False; [done|].
           intros [?|?]%elem_of_cons; [by subst|done].
    + rewrite Htot, (remove_total _ _ _ Hpost).
      rewrite (sum_after_zeroing (stored t) (stored t1) w (remove_stored _ _ _ Hpost))
        by apply NoDup_remove_dups.
      cbn [remove_dups]. destruct (decide_rel elem_of w ws) as [Hin|Hin].
      * rewrite decide_True by (by apply elem_of_remove_dups). lia.
      * rewrite decide_False by (by rewrite elem_of_remove_dups).
        rewrite fmap_cons. cbn [foldr]. lia.
    + rewrite Huniq, (remove_unique _ _ _ Hpost).
      rewrite (sum_after_zeroing (fun k => if stored t k =? 0 then 0 else 1)
                 (fun k => if stored t1 k =? 0 then 0 else 1) w)
        by (first [apply NoDup_remove_dups
                  |intros k; rewrite (remove_stored _ _ _ Hpost);
                   by destruct (String.eqb k w)]).
      cbn [remove_dups]. destruct (decide_rel elem_of w ws) as [Hin|Hin].
      * rewrite decide_True by (by apply elem_of_remove_dups). lia.
      * rewrite decide_False by (by rewrite elem_of_remove_dups).
        rewrite fmap_cons. cbn [foldr]. lia.
    + pose proof (removeWord_capacity_le t w t1 Hinv Hpost). lia.
    + intros Habsent.
      assert (t1 = t) as ->.
      { apply (remove_absent _ _ _ Hpost), Habsent, list_elem_of_here. }
      apply Hsame. intros k Hk. by apply Habsent, list_elem_of_further.
Qed.

End CommonWords.

End TextFacts.

(** * Properties of the test driver's text functions *)

Section DriverProperties.
Context {hasher : StdHash}.

(** X13.  [trimLeadingSpaces] returns for every line: the loop ends, and
    what it returns is the line without the spaces at its start, all of
    them and nothing else.  The result does not begin with a space, a line
    that does not begin with a space is returned as it is, and trimming a
    trimmed line changes nothing. *)
Theorem trimLeadingSpaces_strips (line : string) :
  exists k rest,
    trimLeadingSpaces line = Ok rest /\
    line = (spaces k ++ rest)%string /\
    string_find space rest <> Some 0%nat /\
    (string_find space line <> Some 0%nat -> rest = line) /\
    trimLeadingSpaces rest = Ok rest.
Proof.
  destruct (trimLeadingSpaces_ok line) as (k & rest & Hrun & Heq & Hhead).
  exists k, rest. split; [done|]. split; [done|]. split; [done|].
  split; [|by apply trimLeadingSpaces_fixed].
  intros Hline. rewrite (trimLeadingSpaces_fixed line Hline) in Hrun.
  by inversion Hrun.
Qed.

(** X14.  [getWordFromLine] returns for every line, without an exception
    from [substr]: the line is some spaces, the word returned, and the
    line left in the reference parameter.  The word has no space in it,
    the line left is empty or begins with a space, and the word is empty
    only when the line was empty or all spaces, and then nothing is left.
    A line that is not empty gets shorter. *)
Theorem getWordFromLine_splits (line : string) :
  exists k word rest,
    getWordFromLine line = Ok (word, rest) /\
    line = (spaces k ++ word ++ rest)%string /\
    string_find space word = None /\
    (rest = EmptyString \/ exists r, rest = String space r) /\
    (word = EmptyString -> rest = EmptyString /\ line = spaces k) /\
    (line <> EmptyString -> (String.length rest < String.length line)%nat).
Proof.
  destruct (getWordFromLine_ok line) as (k & word & rest & Hget & Heq & Hw & Hrest & Hword).
  exists k, word, rest. split; [done|]. split; [done|]. split; [done|].
  split; [done|]. split.
  - intros ->. rewrite (Hword eq_refl) in *. by rewrite !string_app_nil_r in Heq.
  - intros Hne. by apply (getWordFromLine_shorter line k word rest).
Qed.

(** X15.  On a table satisfying the class invariant [displayWordCounts]
    ends for every line and prints one line per word looked up, each with
    the count [getWordCount] gives for it.  The words looked up are the
    words of the line between its spaces, in their order and as often as
    they occur; when the line is not empty and ends in a space (or is all
    spaces), the empty word is looked up once more at the end. *)
Theorem displayWordCounts_prints (line : string) (t : WordCounter) :
  table_inv t ->
  exists printed,
    displayWordCounts line t = Ok printed /\
    printed.*1 = looked_up line /\
    Forall (fun p => getWordCount t p.1 = Ok p.2) printed.
Proof.
  intros Hinv. exists ((fun w => (w, stored t w)) <$> looked_up line).
  split; [by apply display_loop_ok|]. split.
  - rewrite <- list_fmap_compose. by rewrite <- (list_fmap_id (looked_up line)) at 2.
  - apply Forall_fmap, Forall_forall. intros w _. by apply getWordCount_stored.
Qed.

(** X16.  [removeCommonWords], for a vector of at most [INT_MAX] words and
    a table satisfying the class invariant: the loop ends without a
    failure and does what the calls [removeWord] for the words of the
    vector do one after the other.  Afterwards every word of the vector
    has count 0 and every other word the count it had; [totalWordCount]
    is smaller by the counts of the distinct words of the vector,
    [uniqueWordCount] by the number of them that were stored; the
    capacity is not larger; the invariant holds.  When no word of the
    vector is stored the table is left as it is. *)
Theorem removeCommonWords_removes_listed (commonWords : list string)
    (t : WordCounter) :
  table_inv t -> Z.of_nat (length commonWords) <= INT_MAX ->
  exists t',
    removeCommonWords commonWords t = Ok t' /\
    run t (RemoveWord <$> commonWords) = Ok t' /\
    table_inv t' /\
    (forall k, k ∈ commonWords -> getWordCount t' k = Ok 0) /\
    (forall k, k ∉ commonWords -> getWordCount t' k = getWordCount t k) /\
    getTotalWordCount t' =
      getTotalWordCount t - foldr Z.add 0 (stored t <$> remove_dups commonWords) /\
    getUniqueWordCount t' =
      getUniqueWordCount t -
      Z.of_nat (length (filter (fun k => stored t k <> 0) (remove_dups commonWords))) /\
    getCapacity t' <= getCapacity t /\
    ((forall k, k ∈ commonWords -> getWordCount t k = Ok 0) -> t' = t).
Proof.
  intros Hinv Hsize.
  destruct (run_removes commonWords t Hinv)
    as (t' & Hrun & Hinv' & Hst & Htot & Huniq & Hcap & Hsame).
  exists t'. split.
  { unfold removeCommonWords. rewrite <- Hrun.
    by apply (common_loop_run commonWords Hsize commonWords []); [|lia]. }
  split; [done|]. split; [done|]. split; [|split; [|split; [|split; [|split]]]].
  - intros k Hk. rewrite (getWordCount_stored t' k Hinv'), Hst. by rewrite decide_True.
  - intros k Hk. rewrite (getWordCount_stored t' k Hinv'), (getWordCount_stored t k Hinv), Hst.
    by rewrite decide_False.
  - done.
  - unfold getUniqueWordCount. rewrite Huniq. f_equal.
    generalize (remove_dups commonWords). intros l.
    induction l as [|x l IH]; [done|]. rewrite fmap_cons. cbn [foldr]. rewrite IH.
    destruct (Z.eqb_spec (stored t x) 0) as [Hz|Hz].
    + by rewrite filter_cons_False by (intros H; by apply H).
    + rewrite filter_cons_True by done. simpl length. lia.
  - done.
  - intros Habsent. apply Hsame. intros k Hk.
    specialize (Habsent k Hk). rewrite (getWordCount_stored t k Hinv) in Habsent.
    by inversion Habsent.
Qed.

End DriverProperties.

(** ** Instances of the driver's properties *)

Lemma displayWordCounts_prints_witness :
  @table_inv length_hash cat_dog_table /\
  exists printed,
    @displayWordCounts length_hash " cat dog  emu cat " cat_dog_table = Ok printed /\
    printed.*1 = looked_up " cat dog  emu cat " /\
    Forall (fun p => @getWordCount length_hash cat_dog_table p.1 = Ok p.2) printed.
Proof.
  split; [apply cat_dog_table_inv|].
  exact (@displayWordCounts_prints length_hash " cat dog  emu cat "%string
           cat_dog_table cat_dog_table_inv).
Defined.

Lemma removeCommonWords_removes_listed_witness :
  @table_inv length_hash cat_dog_table /\
  Z.of_nat (length ["the"; "cat"; "the"]%string) <= INT_MAX /\
  exists t',
    @removeCommonWords length_hash ["the"; "cat"; "the"]%string cat_dog_table = Ok t' /\
    @getWordCount length_hash t' "cat" = Ok 0 /\
    @getWordCount length_hash t' "dog" = @getWordCount length_hash cat_dog_table "dog".
Proof.
  split; [apply cat_dog_table_inv|].
  assert (Hsize : Z.of_nat (length ["the"; "cat"; "the"]%string) <= INT_MAX)
    by (vm_compute; discriminate).
  split; [exact Hsize|].
  destruct (@removeCommonWords_removes_listed length_hash
              ["the"; "cat"; "the"]%string cat_dog_table cat_dog_table_inv Hsize)
    as (t' & Hrun & _ & _ & Hgone & Hkept & _).
  exists t'. split; [exact Hrun|]. split.
  - apply Hgone. apply list_elem_of_further, list_elem_of_here.
  - apply Hkept. intros Hin.
    repeat (apply elem_of_cons in Hin as [Hin|Hin]; [discriminate Hin|]).
    by apply elem_of_nil in Hin.
Defined.
